(** * Limits, greedy cover and the least-conditional-part derivation of
      [internal.cpp]

    A shallow embedding of the limit manager, of the set-cover helpers, of
    the global preprocessor, of the variable tables and of a local-search
    round of [src/internal.cpp], followed by the properties proved about
    them.  Literals are signed integers ([Z]); a [vector<int>] is
    a [list Z]; an [unordered_set<int>] is a [gset Z]. *)

From stdpp Require Import gmap list sorting.
From Stdlib Require Import ZArith Lia.

Local Open Scope Z_scope.

(* ===================================================================== *)
(** * Part I: the embedding                                               *)
(* ===================================================================== *)

(** ** Options

    The fields of [opts] read by the embedded functions.  Integer options
    that the source only tests for truth are booleans here. *)

Record Options := {
  subsumeint : Z;
  elimint : Z;
  elimboundmin : Z;
  compactint : Z;
  probeint : Z;
  conditionint : Z;
  reduceint : Z;
  flushint : Z;
  rephaseint : Z;
  restartint : Z;
  opt_stabilize : bool;
  stabilizeonly : bool;
  stabilizeint : Z;
  reluctant : Z;
  reluctantmax : Z;
  globalpreprocess : bool;
  globalchessheur : bool;
  globaltouch : bool;
  globalisort : bool;
  globalorderi : bool;
  globalbothpol : bool;
  globaltimelim : Z;
  globalalphaasort : bool;
  globalalphaarandom : bool;
  globalalphaagreedy : bool;
  globalbcp : bool;
  globalnoshrink : bool;
  globalmaxclause : Z;
  globalfiltertriv : bool;
  globallearn : bool;
  globalrecord : bool;
  globalmaxlen : Z
}.

(** ** The limit manager: [init_preprocessing_limits], [init_search_limits]

    [lim], [inc], [last] and the part of [stats] the two functions touch.
    The counters are [int64_t] in the source; signed overflow has no defined
    wrap-around there, so the sums are the mathematical ones. *)

Record Limit := {
  initialized : bool;
  subsume : Z;
  elim : Z;
  elimbound : Z;
  compact : Z;
  probe : Z;
  condition : Z;
  lim_preprocessing : Z;
  reduce : Z;
  flush : Z;
  rephase : Z;
  rephased : Z * Z;
  restart : Z;
  stabilize : Z;
  lim_conflicts : Z;
  lim_decisions : Z;
  lim_localsearch : Z
}.

(** The increments [inc]. *)
Record Inc := {
  inc_flush : Z;
  inc_stabilize : Z;
  inc_conflicts : Z;
  inc_decisions : Z;
  inc_preprocessing : Z;
  inc_localsearch : Z
}.

(** The marks of [last] that the two functions reset. *)
Record Last := {
  last_elim_marked : Z;
  last_ternary_marked : Z;
  last_reduce_conflicts : Z
}.

(** Modelled from the spec: the reluctant-doubling restart scheduler is
    declared outside this file; it is disabled, or armed with a period and a
    maximum cap by [reluctant.enable (period, max)]. *)
Inductive Reluctant :=
| ReluctantDisabled
| ReluctantEnabled (period limit : Z).

(** Modelled from the spec: the pair of exponential-moving-average
    trackers is kept by code outside this file; [Averages] records whether
    the pair was initialised and how often it was swapped since. *)
Record Averages := {
  averages_initialized : bool;
  averages_swaps : nat
}.

(** Modelled from the spec: [init_averages] starts the trackers afresh. *)
Definition init_averages (a : Averages) : Averages :=
  {| averages_initialized := true; averages_swaps := 0 |}.

(** Modelled from the spec: [swap_averages] swaps the pair of trackers on
    a change of search mode. *)
Definition swap_averages (a : Averages) : Averages :=
  {| averages_initialized := averages_initialized a;
     averages_swaps := S (averages_swaps a) |}.

(** The part of the solver the limit manager reads and writes. *)
Record LimitState := {
  lim : Limit;
  inc : Inc;
  last : Last;
  stats_conflicts : Z;
  stats_decisions : Z;
  stable : bool;
  averages : Averages;
  reluctant_state : Reluctant
}.

(** The setters of [LimitState], one per field group. *)
Definition set_lim (f : Limit -> Limit) (s : LimitState) : LimitState :=
  {| lim := f (lim s); inc := inc s; last := last s;
     stats_conflicts := stats_conflicts s;
     stats_decisions := stats_decisions s;
     stable := stable s; averages := averages s;
     reluctant_state := reluctant_state s |}.

Definition set_inc (f : Inc -> Inc) (s : LimitState) : LimitState :=
  {| lim := lim s; inc := f (inc s); last := last s;
     stats_conflicts := stats_conflicts s;
     stats_decisions := stats_decisions s;
     stable := stable s; averages := averages s;
     reluctant_state := reluctant_state s |}.

Definition set_last (f : Last -> Last) (s : LimitState) : LimitState :=
  {| lim := lim s; inc := inc s; last := f (last s);
     stats_conflicts := stats_conflicts s;
     stats_decisions := stats_decisions s;
     stable := stable s; averages := averages s;
     reluctant_state := reluctant_state s |}.

Definition set_stable (b : bool) (f : Averages -> Averages)
    (s : LimitState) : LimitState :=
  {| lim := lim s; inc := inc s; last := last s;
     stats_conflicts := stats_conflicts s;
     stats_decisions := stats_decisions s;
     stable := b; averages := f (averages s);
     reluctant_state := reluctant_state s |}.

Definition set_reluctant (r : Reluctant) (s : LimitState) : LimitState :=
  {| lim := lim s; inc := inc s; last := last s;
     stats_conflicts := stats_conflicts s;
     stats_decisions := stats_decisions s;
     stable := stable s; averages := averages s;
     reluctant_state := r |}.

(** The assignments to the fields of [lim], one per field;
    [upd_rephase] also clears [lim.rephased], as the source does in the
    same block. *)
Definition upd_subsume (v : Z) (l : Limit) : Limit :=
  {| initialized := initialized l; subsume := v; elim := elim l;
     elimbound := elimbound l; compact := compact l; probe := probe l;
     condition := condition l; lim_preprocessing := lim_preprocessing l;
     reduce := reduce l; flush := flush l; rephase := rephase l;
     rephased := rephased l; restart := restart l; stabilize := stabilize l;
     lim_conflicts := lim_conflicts l; lim_decisions := lim_decisions l;
     lim_localsearch := lim_localsearch l |}.

Definition upd_elim (v : Z) (l : Limit) : Limit :=
  {| initialized := initialized l; subsume := subsume l; elim := v;
     elimbound := elimbound l; compact := compact l; probe := probe l;
     condition := condition l; lim_preprocessing := lim_preprocessing l;
     reduce := reduce l; flush := flush l; rephase := rephase l;
     rephased := rephased l; restart := restart l; stabilize := stabilize l;
     lim_conflicts := lim_conflicts l; lim_decisions := lim_decisions l;
     lim_localsearch := lim_localsearch l |}.

Definition upd_elimbound (v : Z) (l : Limit) : Limit :=
  {| initialized := initialized l; subsume := subsume l; elim := elim l;
     elimbound := v; compact := compact l; probe := probe l;
     condition := condition l; lim_preprocessing := lim_preprocessing l;
     reduce := reduce l; flush := flush l; rephase := rephase l;
     rephased := rephased l; restart := restart l; stabilize := stabilize l;
     lim_conflicts := lim_conflicts l; lim_decisions := lim_decisions l;
     lim_localsearch := lim_localsearch l |}.

Definition upd_compact (v : Z) (l : Limit) : Limit :=
  {| initialized := initialized l; subsume := subsume l; elim := elim l;
     elimbound := elimbound l; compact := v; probe := probe l;
     condition := condition l; lim_preprocessing := lim_preprocessing l;
     reduce := reduce l; flush := flush l; rephase := rephase l;
     rephased := rephased l; restart := restart l; stabilize := stabilize l;
     lim_conflicts := lim_conflicts l; lim_decisions := lim_decisions l;
     lim_localsearch := lim_localsearch l |}.

Definition upd_probe (v : Z) (l : Limit) : Limit :=
  {| initialized := initialized l; subsume := subsume l; elim := elim l;
     elimbound := elimbound l; compact := compact l; probe := v;
     condition := condition l; lim_preprocessing := lim_preprocessing l;
     reduce := reduce l; flush := flush l; rephase := rephase l;
     rephased := rephased l; restart := restart l; stabilize := stabilize l;
     lim_conflicts := lim_conflicts l; lim_decisions := lim_decisions l;
     lim_localsearch := lim_localsearch l |}.

Definition upd_condition (v : Z) (l : Limit) : Limit :=
  {| initialized := initialized l; subsume := subsume l; elim := elim l;
     elimbound := elimbound l; compact := compact l; probe := probe l;
     condition := v; lim_preprocessing := lim_preprocessing l;
     reduce := reduce l; flush := flush l; rephase := rephase l;
     rephased := rephased l; restart := restart l; stabilize := stabilize l;
     lim_conflicts := lim_conflicts l; lim_decisions := lim_decisions l;
     lim_localsearch := lim_localsearch l |}.

Definition upd_preprocessing (v : Z) (l : Limit) : Limit :=
  {| initialized := initialized l; subsume := subsume l; elim := elim l;
     elimbound := elimbound l; compact := compact l; probe := probe l;
     condition := condition l; lim_preprocessing := v;
     reduce := reduce l; flush := flush l; rephase := rephase l;
     rephased := rephased l; restart := restart l; stabilize := stabilize l;
     lim_conflicts := lim_conflicts l; lim_decisions := lim_decisions l;
     lim_localsearch := lim_localsearch l |}.

Definition upd_reduce (v : Z) (l : Limit) : Limit :=
  {| initialized := initialized l; subsume := subsume l; elim := elim l;
     elimbound := elimbound l; compact := compact l; probe := probe l;
     condition := condition l; lim_preprocessing := lim_preprocessing l;
     reduce := v; flush := flush l; rephase := rephase l;
     rephased := rephased l; restart := restart l; stabilize := stabilize l;
     lim_conflicts := lim_conflicts l; lim_decisions := lim_decisions l;
     lim_localsearch := lim_localsearch l |}.

Definition upd_flush (v : Z) (l : Limit) : Limit :=
  {| initialized := initialized l; subsume := subsume l; elim := elim l;
     elimbound := elimbound l; compact := compact l; probe := probe l;
     condition := condition l; lim_preprocessing := lim_preprocessing l;
     reduce := reduce l; flush := v; rephase := rephase l;
     rephased := rephased l; restart := restart l; stabilize := stabilize l;
     lim_conflicts := lim_conflicts l; lim_decisions := lim_decisions l;
     lim_localsearch := lim_localsearch l |}.

Definition upd_rephase (v : Z) (l : Limit) : Limit :=
  {| initialized := initialized l; subsume := subsume l; elim := elim l;
     elimbound := elimbound l; compact := compact l; probe := probe l;
     condition := condition l; lim_preprocessing := lim_preprocessing l;
     reduce := reduce l; flush := flush l; rephase := v;
     rephased := (0, 0); restart := restart l; stabilize := stabilize l;
     lim_conflicts := lim_conflicts l; lim_decisions := lim_decisions l;
     lim_localsearch := lim_localsearch l |}.

Definition upd_restart (v : Z) (l : Limit) : Limit :=
  {| initialized := initialized l; subsume := subsume l; elim := elim l;
     elimbound := elimbound l; compact := compact l; probe := probe l;
     condition := condition l; lim_preprocessing := lim_preprocessing l;
     reduce := reduce l; flush := flush l; rephase := rephase l;
     rephased := rephased l; restart := v; stabilize := stabilize l;
     lim_conflicts := lim_conflicts l; lim_decisions := lim_decisions l;
     lim_localsearch := lim_localsearch l |}.

Definition upd_stabilize (v : Z) (l : Limit) : Limit :=
  {| initialized := initialized l; subsume := subsume l; elim := elim l;
     elimbound := elimbound l; compact := compact l; probe := probe l;
     condition := condition l; lim_preprocessing := lim_preprocessing l;
     reduce := reduce l; flush := flush l; rephase := rephase l;
     rephased := rephased l; restart := restart l; stabilize := v;
     lim_conflicts := lim_conflicts l; lim_decisions := lim_decisions l;
     lim_localsearch := lim_localsearch l |}.

Definition upd_conflicts (v : Z) (l : Limit) : Limit :=
  {| initialized := initialized l; subsume := subsume l; elim := elim l;
     elimbound := elimbound l; compact := compact l; probe := probe l;
     condition := condition l; lim_preprocessing := lim_preprocessing l;
     reduce := reduce l; flush := flush l; rephase := rephase l;
     rephased := rephased l; restart := restart l; stabilize := stabilize l;
     lim_conflicts := v; lim_decisions := lim_decisions l;
     lim_localsearch := lim_localsearch l |}.

Definition upd_decisions (v : Z) (l : Limit) : Limit :=
  {| initialized := initialized l; subsume := subsume l; elim := elim l;
     elimbound := elimbound l; compact := compact l; probe := probe l;
     condition := condition l; lim_preprocessing := lim_preprocessing l;
     reduce := reduce l; flush := flush l; rephase := rephase l;
     rephased := rephased l; restart := restart l; stabilize := stabilize l;
     lim_conflicts := lim_conflicts l; lim_decisions := v;
     lim_localsearch := lim_localsearch l |}.

Definition upd_localsearch (v : Z) (l : Limit) : Limit :=
  {| initialized := initialized l; subsume := subsume l; elim := elim l;
     elimbound := elimbound l; compact := compact l; probe := probe l;
     condition := condition l; lim_preprocessing := lim_preprocessing l;
     reduce := reduce l; flush := flush l; rephase := rephase l;
     rephased := rephased l; restart := restart l; stabilize := stabilize l;
     lim_conflicts := lim_conflicts l; lim_decisions := lim_decisions l;
     lim_localsearch := v |}.

Definition upd_initialized (l : Limit) : Limit :=
  {| initialized := true; subsume := subsume l; elim := elim l;
     elimbound := elimbound l; compact := compact l; probe := probe l;
     condition := condition l; lim_preprocessing := lim_preprocessing l;
     reduce := reduce l; flush := flush l; rephase := rephase l;
     rephased := rephased l; restart := restart l; stabilize := stabilize l;
     lim_conflicts := lim_conflicts l; lim_decisions := lim_decisions l;
     lim_localsearch := lim_localsearch l |}.

Section LimitManager.

(** [scale] is declared outside this file: it stretches an interval by the
    size of the formula.  It is a parameter of the embedding. *)
Variable scale : Z -> Z.
Variable o : Options.

(** The statements of [init_preprocessing_limits], one per block of the
    source, in the order of the source.  An [if] whose two branches
    assign the same field is the assignment of the chosen value. *)
Definition init_preprocessing_limits (s : LimitState) : LimitState :=
  let incremental := initialized (lim s) in
  let s :=
    if incremental then s
    else set_lim (upd_subsume (stats_conflicts s + scale (subsumeint o))) s in
  let s :=
    if incremental then s
    else
      let s := set_last (fun l =>
                 {| last_elim_marked := -1;
                    last_ternary_marked := last_ternary_marked l;
                    last_reduce_conflicts := last_reduce_conflicts l |}) s in
      set_lim (upd_elim (stats_conflicts s + scale (elimint o))) s in
  let s := set_lim (upd_elimbound (elimboundmin o)) s in
  let s :=
    if negb incremental then
      let s := set_last (fun l =>
                 {| last_elim_marked := last_elim_marked l;
                    last_ternary_marked := -1;
                    last_reduce_conflicts := last_reduce_conflicts l |}) s in
      set_lim (upd_compact (stats_conflicts s + compactint o)) s
    else s in
  let s :=
    if incremental then s
    else set_lim (upd_probe (stats_conflicts s + probeint o)) s in
  let s :=
    if incremental then s
    else set_lim (upd_condition (stats_conflicts s + conditionint o)) s in
  set_lim (upd_preprocessing
             (if inc_preprocessing (inc s) <=? 0 then 0
              else inc_preprocessing (inc s))) s.

(** The block of [init_search_limits] that picks the search mode; [None]
    is the failed [assert (stable)]. *)
Definition init_stable (incremental : bool) (s : LimitState)
    : option LimitState :=
  if negb incremental then
    Some (set_stable (opt_stabilize o && stabilizeonly o) init_averages s)
  else if opt_stabilize o && stabilizeonly o then
    if stable s then Some s else None
  else if stable s then Some (set_stable false swap_averages s)
  else Some s.

(** [init_search_limits] up to the mode block. *)
Definition search_limits_before_mode (s : LimitState) : LimitState :=
  let incremental := initialized (lim s) in
  let s :=
    if incremental then s
    else
      let s := set_last (fun l =>
                 {| last_elim_marked := last_elim_marked l;
                    last_ternary_marked := last_ternary_marked l;
                    last_reduce_conflicts := -1 |}) s in
      set_lim (upd_reduce (stats_conflicts s + reduceint o)) s in
  let s :=
    if incremental then s
    else
      let s := set_lim (upd_flush (flushint o)) s in
      set_inc (fun i =>
        {| inc_flush := flushint o; inc_stabilize := inc_stabilize i;
           inc_conflicts := inc_conflicts i;
           inc_decisions := inc_decisions i;
           inc_preprocessing := inc_preprocessing i;
           inc_localsearch := inc_localsearch i |}) s in
  (* Initialize or reset 'rephase' limits in any case. *)
  let s := set_lim (upd_rephase (stats_conflicts s + rephaseint o)) s in
  (* Initialize or reset 'restart' limits in any case. *)
  set_lim (upd_restart (stats_conflicts s + restartint o)) s.

(** [init_search_limits] after the mode block. *)
Definition search_limits_after_mode (s : LimitState) : LimitState :=
  let s := set_inc (fun i =>
        {| inc_flush := inc_flush i; inc_stabilize := stabilizeint o;
           inc_conflicts := inc_conflicts i;
           inc_decisions := inc_decisions i;
           inc_preprocessing := inc_preprocessing i;
           inc_localsearch := inc_localsearch i |}) s in
  let s := set_lim (upd_stabilize
                      (stats_conflicts s + inc_stabilize (inc s))) s in
  let s :=
    set_reluctant
      (if opt_stabilize o && negb (reluctant o =? 0)
       then ReluctantEnabled (reluctant o) (reluctantmax o)
       else ReluctantDisabled) s in
  let s :=
    set_lim (upd_conflicts
               (if inc_conflicts (inc s) <? 0 then -1
                else stats_conflicts s + inc_conflicts (inc s))) s in
  let s :=
    set_lim (upd_decisions
               (if inc_decisions (inc s) <? 0 then -1
                else stats_decisions s + inc_decisions (inc s))) s in
  let s :=
    set_lim (upd_localsearch
               (if inc_localsearch (inc s) <=? 0 then 0
                else inc_localsearch (inc s))) s in
  set_lim upd_initialized s.

(** [init_search_limits]: the three parts in the order of the source;
    [lim.initialized] is set last. *)
Definition init_search_limits (s : LimitState) : option LimitState :=
  match init_stable (initialized (lim s)) (search_limits_before_mode s) with
  | None => None
  | Some s => Some (search_limits_after_mode s)
  end.

(** The two calls as [solve] makes them when it is not in
    preprocessing-only mode. *)
Definition init_limits (s : LimitState) : option LimitState :=
  init_search_limits (init_preprocessing_limits s).

End LimitManager.

(** ** Greedy set cover: [greedySetCover], [greedySetCoverSpecial] *)

(** [subsets[i]] counted against [covered]: the number of its elements not
    yet covered. *)
Definition new_elements (covered s : gset Z) : nat := size (s ∖ covered).

(** The inner [for] loop of [greedySetCover]: [best_idx] is [None] for the
    source's [-1]. *)
Fixpoint find_best (i : nat) (subsets : list (gset Z)) (covered : gset Z)
    (best_idx : option nat) (max_new_elements : nat) : option nat :=
  match subsets with
  | [] => best_idx
  | s :: rest =>
      if (max_new_elements <? new_elements covered s)%nat
      then find_best (S i) rest covered (Some i) (new_elements covered s)
      else find_best (S i) rest covered best_idx max_new_elements
  end.

(** The [while] loop of [greedySetCover].  Every round that does not break
    covers a new element, so the number of rounds is bounded by the size of
    the union of the subsets; [fuel] counts the rounds and [None] is a loop
    that has not finished within it. *)
Fixpoint greedy_loop (fuel : nat) (subsets : list (gset Z))
    (total_size : nat) (covered uncovered : gset Z) (chosen : list nat)
    : option (list nat * gset Z) :=
  if (size covered <? total_size)%nat then
    match find_best 0 subsets covered None 0 with
    | None => Some (chosen, uncovered)
    | Some best_idx =>
        match fuel with
        | O => None
        | S fuel' =>
            let s := default ∅ (subsets !! best_idx) in
            greedy_loop fuel' subsets total_size
              (covered ∪ s) (uncovered ∖ s) (chosen ++ [best_idx])
        end
    end
  else Some (chosen, uncovered).

(** [greedySetCover]: the loop started with nothing covered, the
    uncovered set turned into a vector at the end. *)
Definition greedySetCover (subsets : list (gset Z)) (total_elements : list Z)
    : option (list nat * list Z) :=
  match greedy_loop (size (⋃ subsets)) subsets (length total_elements)
          ∅ (list_to_set total_elements) [] with
  | Some (chosen_subsets, uncovered) =>
      Some (chosen_subsets, elements uncovered)
  | None => None
  end.

(** [distance (begin, find (begin, end, x))]: the position of the first
    occurrence, the length of the vector when there is none. *)
Fixpoint index_of (x : Z) (l : list Z) : nat :=
  match l with
  | [] => O
  | y :: r => if x =? y then O else S (index_of x r)
  end.

(** The [for] loop of [greedySetCoverSpecial]; [None] is a failed [assert]. *)
Fixpoint special_loop (curr_global_try alpha_a : list Z)
    (subsets : list (gset Z)) (uncovered : gset Z) (chosen : list nat)
    : option (list nat * gset Z) :=
  match curr_global_try with
  | [] => Some (chosen, uncovered)
  | learn :: rest =>
      let learn_idx := index_of learn alpha_a in
      match subsets !! learn_idx with
      | Some s =>
          if (length alpha_a =? length subsets)%nat
          then special_loop rest alpha_a subsets (uncovered ∖ s)
                 (chosen ++ [learn_idx])
          else None
      | None => None
      end
  end.

(** [greedySetCoverSpecial]: the schedule-directed selection.  The set
    [covered] of the source is written but never read; it is left out. *)
Definition greedySetCoverSpecial (curr_global_try alpha_a : list Z)
    (subsets : list (gset Z)) (total_elements : list Z)
    : option (list nat * list Z) :=
  match special_loop curr_global_try alpha_a subsets
          (list_to_set total_elements) [] with
  | Some (chosen_subsets, uncovered) =>
      Some (chosen_subsets, elements uncovered)
  | None => None
  end.

(** The coverage set that [greedy_sort_alpha_a] records for one antecedent:
    the literals of [neg_alpha_c] that are false under the assignment [v]
    reached by assuming the antecedent's negation. *)
Definition coverage (v : Z -> Z) (neg_alpha_c : list Z) : gset Z :=
  list_to_set (filter (λ l, v l < 0) neg_alpha_c).

(** The union of the coverage sets picked by [chosen]. *)
Definition chosen_union (subsets : list (gset Z)) (chosen : list nat)
    : gset Z :=
  ⋃ (map (λ i, default ∅ (subsets !! i)) chosen).

(** ** The solver state and the external collaborators *)

(** A clause with the metadata the preprocessor reads. *)
Record Clause := {
  literals : list Z;
  redundant : bool;
  garbage : bool
}.

(** [Flags::status], as far as the preprocessor tells its values apart. *)
Inductive Status := ACTIVE | FIXED | ELIMINATED.

(** [f.status == Flags::FIXED]. *)
Definition is_fixed (st : Status) : bool :=
  match st with FIXED => true | _ => false end.

(** The assignment, trail, clause database, propagation and conflict
    analysis live outside this file.  [Collaborators St] is the interface
    the preprocessor consumes from them, over an arbitrary representation
    [St] of the solver state. *)
Class Collaborators (St : Type) := {
  (* the formula and the flags of the solver *)
  ext_max_var : St -> Z;
  ext_clauses : St -> list Clause;
  ext_proof : St -> bool;              (* [proof] is not null *)
  ext_unsat : St -> bool;
  ext_level : St -> Z;
  (* the assignment *)
  ext_val : St -> Z -> Z;
  ext_flags : St -> Z -> Status;       (* [flags (lit).status] *)
  ext_active : St -> Z -> bool;
  ext_is_decision : St -> Z -> bool;
  ext_var_level : St -> Z -> Z;        (* [var (lit).level] *)
  ext_watches : St -> Z -> list Clause;
  (* the search primitives *)
  ext_propagate : St -> bool * St;
  ext_analyze : St -> St;
  ext_backtrack : Z -> St -> St;
  ext_search_assume_decision : Z -> St -> St;
  (* clause learning: the member [clause], then the arguments *)
  ext_new_learned_weak_irredundant_global_clause :
    list Z -> Z -> list Z -> list Z -> St -> St;
  ext_assign_original_unit_gbc : Z -> list Z -> St -> St;
  (* the sources of randomness: [std::shuffle] and [rand ()] *)
  ext_shuffle : list Z -> St -> list Z * St;
  ext_rand : St -> Z * St
}.

(** The contract of the collaborators that the termination of the
    conflict loops and the level claims rest on. *)
Class CollaboratorLaws (St : Type) `{Collaborators St} : Prop := {
  level_nonneg : ∀ s, 0 ≤ ext_level s;
  backtrack_level : ∀ s, ext_level (ext_backtrack 0 s) = 0;
  propagate_level : ∀ s, ext_level (ext_propagate s).2 = ext_level s;
  analyze_level : ∀ s s',
    ext_propagate s = (false, s') →
    ext_unsat (ext_analyze s') = true ∨
    ext_level (ext_analyze s') < ext_level s'
}.

(** The members of [Internal] that this file owns next to the solver
    state: the options, the mark bitset, the current schedule batch and the
    two output streams (one list of literals per line).  The collaborators
    act on the solver state only: none of them reads or writes
    [globalmarks], [global_try] or the streams.

    The clock is no member of [Internal] and no part of the solver: it
    runs on its own, whatever the program does between two readings.
    [clock] holds the values that the calls of [time ()] still to come
    will return, in the order of the calls; [clock i 0] is the next
    reading.  Nothing is assumed about them. *)
Record Internal (St : Type) := {
  solver : St;
  opts : Options;
  globalmarks : list bool;
  global_try : list Z;
  outFile : list (list Z);
  outFile_pr : list (list Z);
  clock : nat → Z
}.
Arguments solver {St} _.
Arguments opts {St} _.
Arguments globalmarks {St} _.
Arguments global_try {St} _.
Arguments outFile {St} _.
Arguments outFile_pr {St} _.
Arguments clock {St} _.

(** Computations over [Internal]: [None] is a run without a defined result
    (a failed [assert], a table read out of range, the end of a value
    returning function reached without [return], a conflict loop that
    does not end). *)
Definition M (St A : Type) : Type := Internal St → option (A * Internal St).

(** [M] is a state monad with failure. *)
#[global] Instance M_ret {St} : MRet (M St) := λ A a i, Some (a, i).
#[global] Instance M_bind {St} : MBind (M St) := λ A B f m i,
  match m i with
  | Some (a, i') => f a i'
  | None => None
  end.

(** The run without a defined result. *)
Definition fail {St A} : M St A := λ _, None.

Section Derivation.
Context {St : Type} `{Collaborators St}.

(** A collaborator that changes the solver state and returns nothing. *)
Definition with_solver (f : St → St) : M St unit := λ i,
  Some (tt, {| solver := f (solver i); opts := opts i;
               globalmarks := globalmarks i; global_try := global_try i;
               outFile := outFile i; outFile_pr := outFile_pr i;
               clock := clock i |}).

(** A read of the state. *)
Definition read {A} (f : Internal St → A) : M St A := λ i, Some (f i, i).

(** The assignments to [globalmarks] and [global_try], and a line
    appended to each output stream. *)
Definition set_globalmarks (m : list bool) : M St unit := λ i,
  Some (tt, {| solver := solver i; opts := opts i;
               globalmarks := m; global_try := global_try i;
               outFile := outFile i; outFile_pr := outFile_pr i;
               clock := clock i |}).

Definition set_global_try (g : list Z) : M St unit := λ i,
  Some (tt, {| solver := solver i; opts := opts i;
               globalmarks := globalmarks i; global_try := g;
               outFile := outFile i; outFile_pr := outFile_pr i;
               clock := clock i |}).

Definition write_lines (l l_pr : list Z) : M St unit := λ i,
  Some (tt, {| solver := solver i; opts := opts i;
               globalmarks := globalmarks i; global_try := global_try i;
               outFile := outFile i ++ [l];
               outFile_pr := outFile_pr i ++ [l_pr];
               clock := clock i |}).

(** The state after one reading of the clock: the readings to come are
    those after the first. *)
Definition after_reading (i : Internal St) : Internal St :=
  {| solver := solver i; opts := opts i;
     globalmarks := globalmarks i; global_try := global_try i;
     outFile := outFile i; outFile_pr := outFile_pr i;
     clock := λ n, clock i (S n) |}.

(** [time ()]: the next reading; a second call returns the reading after
    it, which need not be the same although nothing else has changed. *)
Definition time : M St Z := λ i, Some (clock i 0%nat, after_reading i).

(** The collaborators as computations over [Internal]. *)
Definition val (lit : Z) : M St Z := read (λ i, ext_val (solver i) lit).
Definition flags (lit : Z) : M St Status :=
  read (λ i, ext_flags (solver i) lit).
Definition unsat : M St bool := read (λ i, ext_unsat (solver i)).
Definition level : M St Z := read (λ i, ext_level (solver i)).
Definition max_var : M St Z := read (λ i, ext_max_var (solver i)).
Definition is_decision (lit : Z) : M St bool :=
  read (λ i, ext_is_decision (solver i) lit).
Definition watches (lit : Z) : M St (list Clause) :=
  read (λ i, ext_watches (solver i) lit).

Definition backtrack (new_level : Z) : M St unit :=
  with_solver (ext_backtrack new_level).
Definition search_assume_decision (lit : Z) : M St unit :=
  with_solver (ext_search_assume_decision lit).
Definition analyze : M St unit := with_solver ext_analyze.
Definition propagate : M St bool := λ i,
  let '(ok, s) := ext_propagate (solver i) in
  Some (ok, {| solver := s; opts := opts i;
               globalmarks := globalmarks i; global_try := global_try i;
               outFile := outFile i; outFile_pr := outFile_pr i;
               clock := clock i |}).

(** [while (!unsat && !propagate ()) analyze ();].  Each [analyze] after
    a conflict lowers the decision level or sets [unsat], so the loop
    body runs at most [level + 1] times; the bound is the fuel. *)
Fixpoint analyze_loop_fuel (fuel : nat) : M St unit :=
  match fuel with
  | O => fail
  | S fuel' =>
      u ← unsat;
      if u : bool then mret tt
      else
        ok ← propagate;
        if ok : bool then mret tt
        else analyze;; analyze_loop_fuel fuel'
  end.

(** The same loop with the fuel that the contract makes sufficient. *)
Definition analyze_loop : M St unit :=
  l ← level; analyze_loop_fuel (Z.to_nat l + 2).

(** A literal taken from the hard-coded schedule indexes the variable
    tables only when its variable exists. *)
Definition in_range (mv lit : Z) : bool :=
  (1 <=? Z.abs lit) && (Z.abs lit <=? mv).

(** The access of a variable table with a schedule literal: it has a
    defined result only in range. *)
Definition check_range (lit : Z) : M St unit :=
  mv ← max_var; if in_range mv lit then mret tt else fail.

(** *** The mark bitset *)

(** Modelled from the spec: [global_getbit], [global_setbit] and
    [global_unsetbit] are declared outside this file; [globalmarks] holds
    one bit per literal of either polarity, [2 * max_var + 1] in all, so a
    literal's bit is at offset [lit + max_var]. *)
Definition mark_index (mv lit : Z) : nat := Z.to_nat (lit + mv).

(** Modelled from the spec: the bit of [lit] read from a bitset. *)
Definition getbit_in (mv : Z) (marks : list bool) (lit : Z) : bool :=
  default false (marks !! mark_index mv lit).

(** Modelled from the spec: the bit of [lit] set in a bitset. *)
Definition setbit_in (mv : Z) (marks : list bool) (lit : Z) : list bool :=
  <[mark_index mv lit := true]> marks.

(** Modelled from the spec: the bit of [lit] unset in a bitset. *)
Definition unsetbit_in (mv : Z) (marks : list bool) (lit : Z) : list bool :=
  <[mark_index mv lit := false]> marks.

(** Modelled from the spec: [global_getbit] on [globalmarks]. *)
Definition global_getbit (lit : Z) : M St bool :=
  mv ← max_var; read (λ i, getbit_in mv (globalmarks i) lit).

(** Modelled from the spec: [global_setbit] on [globalmarks]. *)
Definition global_setbit (lit : Z) : M St unit :=
  mv ← max_var; m ← read globalmarks; set_globalmarks (setbit_in mv m lit).

(** Modelled from the spec: [global_unsetbit] on [globalmarks]. *)
Definition global_unsetbit (lit : Z) : M St unit :=
  mv ← max_var; m ← read globalmarks; set_globalmarks (unsetbit_in mv m lit).

(** A [for] loop whose body returns nothing. *)
Fixpoint for_each {A} (f : A → M St unit) (l : list A) : M St unit :=
  match l with
  | [] => mret tt
  | x :: r => f x;; for_each f r
  end.

End Derivation.

Section Helpers.
Context {St : Type} `{Collaborators St}.

(** [compare_alpha_a]: a conflict under the assumption hits
    [assert (false)]. *)
Definition compare_alpha_a (a b : Z) : M St bool :=
  backtrack 0;;
  search_assume_decision a;;
  ok ← propagate;
  if ok : bool then
    v ← val b;
    mret (0 <? v)
  else fail.

(** [imp_sort_alpha_a]: the two nested index loops with the swap. *)
Fixpoint imp_sort_inner (i : nat) (js : list nat) (alpha_a : list Z)
    : M St (list Z) :=
  match js with
  | [] => mret alpha_a
  | j :: js' =>
      let aj := nth j alpha_a 0 in
      let ai := nth i alpha_a 0 in
      b ← compare_alpha_a aj ai;
      imp_sort_inner i js'
        (if b : bool then <[i := aj]> (<[j := ai]> alpha_a) else alpha_a)
  end.

Fixpoint imp_sort_outer (idxs : list nat) (alpha_a : list Z)
    : M St (list Z) :=
  match idxs with
  | [] => mret alpha_a
  | i :: idxs_rest =>
      alpha_a' ← imp_sort_inner i
                   (seq (S i) (length alpha_a - S i)) alpha_a;
      imp_sort_outer idxs_rest alpha_a'
  end.

(** [imp_sort_alpha_a]: both loops run over the indices of the vector. *)
Definition imp_sort_alpha_a (alpha_a : list Z) : M St (list Z) :=
  imp_sort_outer (seq 0 (length alpha_a)) alpha_a.

(** [random_sort_alpha_a]: the shuffle draws from a source of randomness
    outside the solver state's control; the collaborator supplies it. *)
Definition random_sort_alpha_a (alpha_a : list Z) : M St (list Z) := λ i,
  let '(l, s) := ext_shuffle alpha_a (solver i) in
  Some (l, {| solver := s; opts := opts i;
              globalmarks := globalmarks i; global_try := global_try i;
              outFile := outFile i; outFile_pr := outFile_pr i;
              clock := clock i |}).

(** [custom_sort_alpha_a] takes the vector by reference: the reordered
    vector is the result. *)
Definition custom_sort_alpha_a (alpha_a : list Z) : M St (list Z) :=
  o ← read opts;
  if globalalphaasort o then imp_sort_alpha_a alpha_a
  else if globalalphaarandom o then random_sort_alpha_a alpha_a
  else mret alpha_a.

(** The literals of [neg_alpha_c] that are false now. *)
Definition falsified (neg_alpha_c : list Z) : M St (gset Z) :=
  read (λ i, coverage (ext_val (solver i)) neg_alpha_c).

(** [greedy_sort_alpha_a_special]: the loop over [global_try]; the result
    is [inl] for the early [return] of the pair of empty vectors and
    [inr] with the loop's variables at its end. *)
Fixpoint special_sort_loop (tries alpha_a neg_alpha_c : list Z)
    (global_try_final : list Z) (propagated : gset Z)
    : M St (unit + list Z * gset Z) :=
  match tries with
  | [] => mret (inr (global_try_final, propagated))
  | learn :: rest =>
      let global_try_final :=
        if bool_decide (learn ∈ alpha_a)
        then global_try_final ++ [learn] else global_try_final in
      check_range learn;;
      f ← flags learn;
      if is_fixed f
      then special_sort_loop rest alpha_a neg_alpha_c
             global_try_final propagated
      else
        v ← val (- learn);
        if v <? 0 then fail
        else if 0 <? v
        then special_sort_loop rest alpha_a neg_alpha_c
               global_try_final propagated
        else
          search_assume_decision (- learn);;
          ok ← propagate;
          if ok : bool then
            p ← falsified neg_alpha_c;
            special_sort_loop rest alpha_a neg_alpha_c
              global_try_final (propagated ∪ p)
          else
            analyze;;
            ok2 ← propagate;
            (if ok2 : bool then mret tt else analyze);;
            mret (inl tt)
  end.

(** [greedy_sort_alpha_a_special]: the closing [assert] compares the
    number of propagated literals with the size of [neg_alpha_c]. *)
Definition greedy_sort_alpha_a_special (alpha_a neg_alpha_c : list Z)
    : M St (list Z * list Z) :=
  backtrack 0;;
  tries ← read global_try;
  r ← special_sort_loop tries alpha_a neg_alpha_c [] ∅;
  match r with
  | inl _ => mret ([], [])
  | inr (global_try_final, propagated) =>
      backtrack 0;;
      if (size propagated =? length neg_alpha_c)%nat
      then mret (global_try_final, [])
      else fail
  end.

(** [greedy_sort_alpha_a]: the loop that records one coverage set per
    antecedent. *)
Fixpoint coverage_loop (alpha_a neg_alpha_c : list Z)
    (alpha_a_useful : list Z) (alpha_a_propagated : list (gset Z))
    : M St (list Z * list (gset Z)) :=
  match alpha_a with
  | [] => mret (alpha_a_useful, alpha_a_propagated)
  | a :: rest =>
      f ← flags a;
      if is_fixed f
      then coverage_loop rest neg_alpha_c alpha_a_useful alpha_a_propagated
      else
        backtrack 0;;
        search_assume_decision (- a);;
        ok ← propagate;
        if ok : bool then
          p ← falsified neg_alpha_c;
          if (0 <? size p)%nat
          then coverage_loop rest neg_alpha_c
                 (alpha_a_useful ++ [a]) (alpha_a_propagated ++ [p])
          else coverage_loop rest neg_alpha_c
                 alpha_a_useful alpha_a_propagated
        else
          analyze;;
          u ← unsat;
          if u : bool then mret (alpha_a_useful, alpha_a_propagated)
          else
            ok2 ← propagate;
            if ok2 : bool
            then coverage_loop rest neg_alpha_c
                   alpha_a_useful alpha_a_propagated
            else analyze;; mret (alpha_a_useful, alpha_a_propagated)
  end.

(** [alpha_a_useful[index]] for every chosen index; an index past the end
    of the vector has no defined value. *)
Fixpoint pick_useful (alpha_a_useful : list Z) (chosen : list nat)
    : option (list Z) :=
  match chosen with
  | [] => Some []
  | index :: rest =>
      match alpha_a_useful !! index, pick_useful alpha_a_useful rest with
      | Some a, Some l => Some (a :: l)
      | _, _ => None
      end
  end.

(** [greedy_sort_alpha_a]: the coverage sets, then the schedule-directed
    selection (the call of [greedySetCover] is commented out in the
    source), then the chosen antecedents. *)
Definition greedy_sort_alpha_a (alpha_a neg_alpha_c : list Z)
    : M St (list Z * list Z) :=
  '(alpha_a_useful, alpha_a_propagated) ←
    coverage_loop alpha_a neg_alpha_c [] [];
  backtrack 0;;
  tries ← read global_try;
  match greedySetCoverSpecial tries alpha_a alpha_a_propagated
          neg_alpha_c with
  | Some (chosen_indices, neg_alpha_c_without_c0) =>
      match pick_useful alpha_a_useful chosen_indices with
      | Some alpha_a_useful_final =>
          mret (alpha_a_useful_final, neg_alpha_c_without_c0)
      | None => fail
      end
  | None => fail
  end.

(** *** [bcp_shrink]

    The binary-clause test of the innermost loop. *)
Definition links (c : Clause) (a r : Z) : bool :=
  (length (literals c) =? 2)%nat &&
  (((nth 0 (literals c) 0 =? a) && (nth 1 (literals c) 0 =? - r)) ||
   ((nth 1 (literals c) 0 =? a) && (nth 0 (literals c) 0 =? - r))).

(** The loop over [alpha_c_j]: erase the first residual literal that the
    clause links to [a]; [None] when there is none. *)
Fixpoint erase_linked (c : Clause) (a : Z) (neg : list Z)
    : option (list Z) :=
  match neg with
  | [] => None
  | r :: rest =>
      if links c a r then Some rest
      else match erase_linked c a rest with
           | Some rest' => Some (r :: rest')
           | None => None
           end
  end.

(** The loop over the watches of [a]. *)
Fixpoint scan_watches (ws : list Clause) (a : Z) (neg : list Z)
    (keep_i : bool) : list Z * bool :=
  match ws with
  | [] => (neg, keep_i)
  | c :: rest =>
      match erase_linked c a neg with
      | Some neg' => scan_watches rest a neg' true
      | None => scan_watches rest a neg keep_i
      end
  end.

(** The body of [bcp_shrink], run on the function's own copies of
    [alpha_a_useful] and [neg_alpha_c_minus_c0]; the result is the value
    of the two copies when the loop ends. *)
Fixpoint bcp_shrink_body (alpha_a alpha_a_useful neg_alpha_c_minus_c0 : list Z)
    : M St (list Z * list Z) :=
  match alpha_a with
  | [] => mret (alpha_a_useful, neg_alpha_c_minus_c0)
  | a :: rest =>
      f ← flags a;
      if is_fixed f
      then bcp_shrink_body rest alpha_a_useful neg_alpha_c_minus_c0
      else
        ws ← watches a;
        let '(neg', keep_i) :=
          scan_watches ws a neg_alpha_c_minus_c0 false in
        bcp_shrink_body rest
          (if keep_i : bool then alpha_a_useful ++ [a] else alpha_a_useful)
          neg'
  end.

(** [bcp_shrink] as a call: the three vectors are passed by value and the
    function returns nothing, so the copies are dropped on return. *)
Definition bcp_shrink (alpha_a alpha_a_useful neg_alpha_c_minus_c0 : list Z)
    : M St unit :=
  _ ← bcp_shrink_body alpha_a alpha_a_useful neg_alpha_c_minus_c0;
  mret tt.

(** *** [propagate_shrink]

    The inner loop: erase every residual literal that is false now. *)
Fixpoint erase_falsified (v : Z → Z) (neg : list Z) (keep_i : bool)
    : list Z * bool :=
  match neg with
  | [] => ([], keep_i)
  | r :: rest =>
      if v r <? 0 then erase_falsified v rest true
      else let '(rest', k) := erase_falsified v rest keep_i in
           (r :: rest', k)
  end.

(** The loop of [propagate_shrink] on the function's own copies: [inl]
    is the [return false] inside the loop, [inr] the value of the copies
    when the loop ends. *)
Fixpoint propagate_shrink_body
    (alpha_a alpha_a_useful neg_alpha_c_minus_c0 : list Z)
    : M St (unit + list Z * list Z) :=
  match alpha_a with
  | [] => mret (inr (alpha_a_useful, neg_alpha_c_minus_c0))
  | a :: rest =>
      f ← flags a;
      if is_fixed f
      then propagate_shrink_body rest alpha_a_useful neg_alpha_c_minus_c0
      else
        backtrack 0;;
        search_assume_decision (- a);;
        ok ← propagate;
        if ok : bool then
          v ← read (λ i, ext_val (solver i));
          let '(neg', keep_i) :=
            erase_falsified v neg_alpha_c_minus_c0 false in
          propagate_shrink_body rest
            (if keep_i : bool then alpha_a_useful ++ [a]
             else alpha_a_useful)
            neg'
        else
          analyze;;
          ok2 ← propagate;
          if ok2 : bool
          then propagate_shrink_body rest alpha_a_useful
                 neg_alpha_c_minus_c0
          else mret (inl tt)
  end.

(** [propagate_shrink] as a call.  After the loop the function backtracks
    and reaches its closing brace without a [return]: no value is
    returned there. *)
Definition propagate_shrink
    (alpha_a alpha_a_useful neg_alpha_c_minus_c0 : list Z) : M St bool :=
  r ← propagate_shrink_body alpha_a alpha_a_useful neg_alpha_c_minus_c0;
  match r with
  | inl _ => mret false
  | inr _ => backtrack 0;; fail
  end.

End Helpers.

Section LeastConditionalPart.
Context {St : Type} `{Collaborators St}.

(** [sort_vec_by_decision_level]: [std::sort] by descending
    [var (x).level]; the order among equal levels is left open by the
    source, an insertion sort fixes one. *)
Fixpoint insert_by_level (lv : Z → Z) (x : Z) (l : list Z) : list Z :=
  match l with
  | [] => [x]
  | y :: r => if lv y <? lv x then x :: l else y :: insert_by_level lv x r
  end.

(** [sort_vec_by_decision_level] with the levels read from the solver. *)
Definition sort_vec_by_decision_level (lv : Z → Z) (v : list Z) : list Z :=
  foldr (insert_by_level lv) [] v.

(** [record_clause]: one line per stream. *)
Definition record_clause (lit : Z) (negated_conditional autarky : list Z)
    : M St unit :=
  write_lines (lit :: negated_conditional)
              (lit :: negated_conditional ++ lit :: autarky).

(** [std::remove] followed by [erase]. *)
Definition remove_lit (lit : Z) (l : list Z) : list Z :=
  filter (λ x, x ≠ lit) l.

(** [add_clause]: the member [clause] is the sorted copy of [new_clause]
    and is handed to the collaborator that learns it; the increment of
    [clause_id] belongs to the collaborator that assigns the unit.  A unit
    is assigned from [clause[0]], which an empty clause does not have. *)
Definition add_clause (new_clause : list Z) (lit : Z)
    (negated_conditional autarky : list Z) : M St unit :=
  let autarky := remove_lit lit autarky in
  let negated_conditional := remove_lit lit negated_conditional in
  lv ← read (λ i, ext_var_level (solver i));
  let clause := sort_vec_by_decision_level lv new_clause in
  o ← read opts;
  (if globallearn o then
     if (1 <? length clause)%nat
     then with_solver
            (ext_new_learned_weak_irredundant_global_clause
               clause lit negated_conditional autarky)
     else match clause with
          | c0 :: _ => with_solver (ext_assign_original_unit_gbc c0 autarky)
          | [] => fail
          end
   else mret tt);;
  (if globalrecord o
   then record_clause lit negated_conditional autarky
   else mret tt).

(** *** [check_if_clause_trivial]

    The loop over the literals of [c]; the result is [is_trivial]. *)
Fixpoint trivial_loop (c : list Z) : M St bool :=
  match c with
  | [] => mret false
  | lit :: rest =>
      v ← val lit;
      if 0 <? v then mret true
      else if v <? 0 then trivial_loop rest
      else
        search_assume_decision (-1 * lit);;
        ok ← propagate;
        if ok : bool then trivial_loop rest
        else analyze;; analyze_loop;; mret true
  end.

(** [c.size () > opts.globalmaxlen] compares a [size_t] with an [int]:
    the option is converted to the unsigned 64-bit type first. *)
Definition exceeds_maxlen (o : Options) (c : list Z) : bool :=
  globalmaxlen o `mod` 2 ^ 64 <? Z.of_nat (length c).

(** [check_if_clause_trivial]: the length guard returns before the first
    [backtrack]; the other paths backtrack before and after the loop. *)
Definition check_if_clause_trivial (c : list Z) : M St bool :=
  o ← read opts;
  if exceeds_maxlen o c then mret true
  else
    backtrack 0;;
    is_trivial ← trivial_loop c;
    backtrack 0;;
    mret is_trivial.

(** *** [least_conditional_part]

    [times_touched] is a [std::map<int, int>]: an association list kept
    in ascending key order, which is the order the source iterates it
    in. *)
Fixpoint touch (lit : Z) (m : list (Z * Z)) : list (Z * Z) :=
  match m with
  | [] => [(lit, 1)]
  | (k, n) :: r =>
      if lit <? k then (lit, 1) :: m
      else if lit =? k then (k, n + 1) :: r
      else (k, n) :: touch lit r
  end.

(** The first loop over the literals of a clause: does a literal that is
    true and fixed short-circuit the clause? *)
Definition skip_clause (s : St) (c : Clause) : bool :=
  existsb (λ lit, (0 <? ext_val s lit) && is_fixed (ext_flags s lit))
          (literals c).

(** The second loop over the literals of a clause. *)
Fixpoint scan_literals (s : St) (marks : list bool) (lits : list Z)
    (satisfies_clause : bool) (times_touched : list (Z * Z))
    (alpha_touches : list Z) : bool * list (Z * Z) * list Z :=
  match lits with
  | [] => (satisfies_clause, times_touched, alpha_touches)
  | lit :: rest =>
      let lit_val := ext_val s lit in
      if 0 <? lit_val
      then scan_literals s marks rest true (touch lit times_touched)
             alpha_touches
      else if lit_val <? 0 then
        if is_fixed (ext_flags s lit)
        then scan_literals s marks rest satisfies_clause times_touched
               alpha_touches
        else if negb (getbit_in (ext_max_var s) marks lit)
        then scan_literals s marks rest satisfies_clause times_touched
               (alpha_touches ++ [lit])
        else scan_literals s marks rest satisfies_clause times_touched
               alpha_touches
      else scan_literals s marks rest satisfies_clause times_touched
             alpha_touches
  end.

(** The bits of a list of literals set, and unset, one after the
    other. *)
Definition set_marks (mv : Z) (lits : list Z) (marks : list bool)
    : list bool :=
  foldl (setbit_in mv) marks lits.

Definition unset_marks (mv : Z) (lits : list Z) (marks : list bool)
    : list bool :=
  foldl (unsetbit_in mv) marks lits.

(** The loop over [clauses]. *)
Fixpoint scan_clauses (s : St) (cs : list Clause) (marks : list bool)
    (neg_alpha_c : list Z) (times_touched : list (Z * Z))
    : list bool * list Z * list (Z * Z) :=
  match cs with
  | [] => (marks, neg_alpha_c, times_touched)
  | c :: rest =>
      if redundant c && negb (ext_proof s)
      then scan_clauses s rest marks neg_alpha_c times_touched
      else if garbage c
      then scan_clauses s rest marks neg_alpha_c times_touched
      else if skip_clause s c
      then scan_clauses s rest marks neg_alpha_c times_touched
      else
        let '(satisfies_clause, times_touched', alpha_touches) :=
          scan_literals s marks (literals c) false times_touched [] in
        if satisfies_clause : bool
        then scan_clauses s rest marks neg_alpha_c times_touched'
        else scan_clauses s rest
               (set_marks (ext_max_var s) alpha_touches marks)
               (neg_alpha_c ++ alpha_touches) times_touched'
  end.

(** The loop over [times_touched]. *)
Fixpoint collect_keys (s : St) (marks : list bool)
    (times_touched : list (Z * Z)) (neg_alpha_c : list Z)
    (clauses_to_add : list (list Z)) (alpha_a : list Z)
    : list (list Z) * list Z :=
  match times_touched with
  | [] => (clauses_to_add, alpha_a)
  | (key, _) :: rest =>
      if negb (getbit_in (ext_max_var s) marks key)
      then collect_keys s marks rest neg_alpha_c
             (if negb (ext_is_decision s key)
              then clauses_to_add ++ [neg_alpha_c ++ [key]]
              else clauses_to_add)
             (alpha_a ++ [key])
      else collect_keys s marks rest neg_alpha_c clauses_to_add alpha_a
  end.

(** [!(opts.globalfiltertriv && check_if_clause_trivial (c))]: the check
    runs only when the filter is on. *)
Definition filtered_out (c : list Z) : M St bool :=
  o ← read opts;
  if globalfiltertriv o then check_if_clause_trivial c else mret false.

(** The loop over the first candidates of [clauses_to_add]; the result
    is the function's return value. *)
Fixpoint fallback_loop (cands : list (list Z)) (alpha_a : list Z)
    (original_time : Z) (adding_a_clause : bool) : M St bool :=
  match cands with
  | [] => mret adding_a_clause
  | new_clause :: rest =>
      t ← time;
      o ← read opts;
      if globaltimelim o <? t - original_time then mret false
      else
        skip ← filtered_out new_clause;
        (if skip : bool then mret tt
         else add_clause new_clause (List.last new_clause 0)
                new_clause alpha_a);;
        fallback_loop rest alpha_a original_time true
  end.

(** Steps 1 to 3: the scan, the candidate clauses and the clearing of the
    marks.  The result is [(neg_alpha_c, clauses_to_add, alpha_a)]. *)
Definition collect_conditional_part
    : M St (list Z * list (list Z) * list Z) :=
  s ← read solver;
  marks ← read globalmarks;
  let '(marks', neg_alpha_c, times_touched) :=
    scan_clauses s (ext_clauses s) marks [] [] in
  set_globalmarks marks';;
  let '(clauses_to_add, alpha_a) :=
    collect_keys s marks' times_touched neg_alpha_c [] [] in
  for_each global_unsetbit neg_alpha_c;;
  mret (neg_alpha_c, clauses_to_add, alpha_a).

(** Step 4: the selected shrink strategy.  [inl] is the early
    [return false]; [inr] carries the caller's [alpha_a_useful] and
    [neg_alpha_c_minus_c0] after the strategy has run. *)
Definition shrink (alpha_a neg_alpha_c : list Z)
    : M St (unit + list Z * list Z) :=
  let neg_alpha_c_minus_c0 := neg_alpha_c in
  let alpha_a_useful : list Z := [] in
  o ← read opts;
  if globalalphaagreedy o && negb (globalchessheur o) then
    r ← greedy_sort_alpha_a alpha_a neg_alpha_c; mret (inr r)
  else if globalalphaagreedy o then
    r ← greedy_sort_alpha_a_special alpha_a neg_alpha_c; mret (inr r)
  else if globalbcp o then
    bcp_shrink alpha_a alpha_a_useful neg_alpha_c_minus_c0;;
    mret (inr (alpha_a_useful, neg_alpha_c_minus_c0))
  else
    end_early ← propagate_shrink alpha_a alpha_a_useful
                  neg_alpha_c_minus_c0;
    if end_early : bool
    then mret (inr (alpha_a_useful, neg_alpha_c_minus_c0))
    else mret (inl tt).

(** Step 5: clause assembly. *)
Definition assemble (alpha_a alpha_a_useful neg_alpha_c_minus_c0 : list Z)
    (clauses_to_add : list (list Z)) (original_time : Z) : M St bool :=
  o ← read opts;
  if bool_decide (alpha_a_useful = []) || globalnoshrink o then
    fallback_loop
      (take (Z.to_nat (Z.min (globalmaxclause o)
                             (Z.of_nat (length clauses_to_add))))
            clauses_to_add)
      alpha_a original_time false
  else
    let new_clause := neg_alpha_c_minus_c0 ++ alpha_a_useful in
    skip ← filtered_out new_clause;
    (if skip : bool then mret tt
     else add_clause new_clause (List.last alpha_a_useful 0)
            new_clause alpha_a);;
    mret true.

(** [least_conditional_part]: the five steps; the two output streams are
    the members [outFile] and [outFile_pr] of [Internal]. *)
Definition least_conditional_part (original_time : Z) : M St bool :=
  '(neg_alpha_c, clauses_to_add, alpha_a) ← collect_conditional_part;
  alpha_a ← custom_sort_alpha_a alpha_a;
  r ← shrink alpha_a neg_alpha_c;
  match r with
  | inl _ => mret false
  | inr (alpha_a_useful, neg_alpha_c_minus_c0) =>
      assemble alpha_a alpha_a_useful neg_alpha_c_minus_c0
        clauses_to_add original_time
  end.

End LeastConditionalPart.

(** ** The chessboard schedule

    The table [asses] of [global_preprocess_chess], row by row: a batch of
    literals to assume and the literals handed on as [global_try]. *)
Definition asses : list (list Z * list Z) := [
  ([1; 10], [-92; -91]);
  ([2; 11], [-93; -92]);
  ([3; 12], [-94; -93]);
  ([4; 13], [-95; -94]);
  ([5; 14], [-96; -95]);
  ([6; 15], [-96; -97]);
  ([16; 7], [-98; -97]);
  ([8; 17], [-99; -98]);
  ([9; 18], [-100; -99]);
  ([10; 19], [-102; -101]);
  ([11; 20], [-103; -102]);
  ([12; 21], [-104; -103]);
  ([13; 22], [-104; -105]);
  ([14; 23], [-106; -105]);
  ([24; 15], [-107; -106]);
  ([16; 25], [-108; -107]);
  ([17; 26], [-109; -108]);
  ([18; 27], [-110; -109]);
  ([19; 28], [-112; -111]);
  ([20; 29], [-112; -113]);
  ([21; 30], [-114; -113]);
  ([22; 31], [-115; -114]);
  ([32; 23], [-116; -115]);
  ([24; 33], [-117; -116]);
  ([25; 34], [-118; -117]);
  ([26; 35], [-119; -118]);
  ([27; 36], [-120; -119]);
  ([28; 37], [-122; -121]);
  ([29; 38], [-123; -122]);
  ([30; 39], [-124; -123]);
  ([40; 31], [-125; -124]);
  ([32; 41], [-126; -125]);
  ([33; 42], [-127; -126]);
  ([34; 43], [-128; -127]);
  ([35; 44], [-128; -129]);
  ([36; 45], [-130; -129]);
  ([37; 46], [-132; -131]);
  ([38; 47], [-133; -132]);
  ([48; 39], [-134; -133]);
  ([40; 49], [-135; -134]);
  ([41; 50], [-136; -135]);
  ([42; 51], [-136; -137]);
  ([43; 52], [-138; -137]);
  ([44; 53], [-139; -138]);
  ([45; 54], [-140; -139]);
  ([46; 55], [-142; -141]);
  ([56; 47], [-143; -142]);
  ([48; 57], [-144; -143]);
  ([49; 58], [-144; -145]);
  ([50; 59], [-146; -145]);
  ([51; 60], [-147; -146]);
  ([52; 61], [-148; -147]);
  ([53; 62], [-149; -148]);
  ([54; 63], [-150; -149]);
  ([64; 55], [-152; -151]);
  ([56; 65], [-152; -153]);
  ([57; 66], [-154; -153]);
  ([58; 67], [-155; -154]);
  ([59; 68], [-156; -155]);
  ([60; 69], [-157; -156]);
  ([61; 70], [-158; -157]);
  ([62; 71], [-159; -158]);
  ([72; 63], [-160; -159]);
  ([64; 73], [-162; -161]);
  ([65; 74], [-163; -162]);
  ([66; 75], [-164; -163]);
  ([67; 76], [-165; -164]);
  ([68; 77], [-166; -165]);
  ([69; 78], [-167; -166]);
  ([70; 79], [-168; -167]);
  ([80; 71], [-168; -169]);
  ([72; 81], [-170; -169]);
  ([73; 82], [-172; -171]);
  ([74; 83], [-173; -172]);
  ([75; 84], [-174; -173]);
  ([76; 85], [-175; -174]);
  ([77; 86], [-176; -175]);
  ([78; 87], [-176; -177]);
  ([88; 79], [-178; -177]);
  ([80; 89], [-179; -178]);
  ([81; 90], [-180; -179]);
  ([8; 17; 100], [-18; -98; -9]);
  ([17; 26; 110], [-108; -27; -18]);
  ([120; 26; 35], [-118; -36; -27]);
  ([130; 35; 44], [-128; -45; -36]);
  ([140; 44; 53], [-54; -45; -138]);
  ([150; 53; 62], [-63; -54; -148]);
  ([160; 62; 71], [-72; -63; -158]);
  ([80; 170; 71], [-168; -72; -81]);
  ([80; 89; 180], [-90; -178; -81]);
  ([16; 9; 18; 7], [-8; -17; -100; -97]);
  ([16; 99; 7], [-8; -17; -97]);
  ([16; 25; 18; 27], [-110; -107; -26; -17]);
  ([16; 25; 109], [-107; -26; -17]);
  ([25; 34; 27; 36], [-120; -117; -35; -26]);
  ([25; 34; 119], [-117; -35; -26]);
  ([34; 43; 36; 45], [-127; -44; -35; -130]);
  ([129; 34; 43], [-127; -44; -35]);
  ([43; 52; 45; 54], [-140; -53; -44; -137]);
  ([43; 52; 139], [-53; -44; -137]);
  ([52; 61; 54; 63], [-62; -53; -147; -150]);
  ([52; 61; 149], [-62; -53; -147]);
  ([72; 61; 70; 63], [-160; -71; -62; -157]);
  ([61; 70; 159], [-71; -62; -157]);
  ([72; 81; 70; 79], [-80; -167; -71; -170]);
  ([169; 70; 79], [-80; -167; -71]);
  ([88; 81; 90; 79], [-80; -89; -180; -177]);
  ([88; 179; 79], [-80; -89; -177]);
  ([100; 6; 8; 15; 17], [-96; -18; -16; -9; -7]);
  ([8; 17; 6; 15], [-96; -7; -99; -16]);
  ([98; 6; 15], [-96; -7; -16]);
  ([110; 15; 17; 24; 26], [-27; -25; -18; -16; -106]);
  ([24; 17; 26; 15], [-16; -109; -106; -25]);
  ([24; 108; 15], [-16; -106; -25]);
  ([33; 35; 24; 26; 120], [-27; -25; -116; -36; -34]);
  ([24; 33; 26; 35], [-119; -116; -34; -25]);
  ([24; 33; 118], [-116; -34; -25]);
  ([33; 130; 35; 42; 44], [-126; -45; -43; -36; -34]);
  ([33; 42; 35; 44], [-126; -43; -34; -129]);
  ([128; 33; 42], [-126; -43; -34]);
  ([42; 140; 44; 51; 53], [-54; -52; -45; -43; -136]);
  ([42; 51; 44; 53], [-136; -139; -52; -43]);
  ([42; 51; 138], [-136; -52; -43]);
  ([51; 53; 150; 60; 62], [-63; -61; -54; -52; -146]);
  ([51; 60; 53; 62], [-61; -52; -146; -149]);
  ([148; 51; 60], [-61; -52; -146]);
  ([160; 69; 71; 60; 62], [-63; -61; -156; -72; -70]);
  ([60; 69; 62; 71], [-159; -70; -61; -156]);
  ([60; 69; 158], [-70; -61; -156]);
  ([69; 71; 170; 78; 80], [-81; -79; -72; -70; -166]);
  ([80; 69; 78; 71], [-70; -79; -166; -169]);
  ([168; 69; 78], [-70; -79; -166]);
  ([78; 80; 180; 87; 89], [-90; -88; -81; -176; -79]);
  ([80; 89; 78; 87], [-176; -79; -179; -88]);
  ([178; 78; 87], [-176; -79; -88]);
  ([5; 7; 9; 14; 16; 18], [-95; -17; -15; -8; -6; -100]);
  ([99; 5; 7; 14; 16], [-95; -17; -15; -8; -6]);
  ([16; 5; 14; 7], [-95; -6; -15; -98]);
  ([97; 5; 14], [-95; -6; -15]);
  ([14; 16; 18; 23; 25; 27], [-26; -24; -17; -15; -110; -105]);
  ([109; 14; 16; 23; 25], [-26; -24; -17; -15; -105]);
  ([16; 25; 14; 23], [-24; -15; -108; -105]);
  ([107; 14; 23], [-24; -15; -105]);
  ([32; 34; 36; 23; 25; 27], [-26; -24; -120; -115; -35; -33]);
  ([32; 34; 23; 119; 25], [-26; -24; -115; -35; -33]);
  ([32; 25; 34; 23], [-24; -118; -115; -33]);
  ([32; 117; 23], [-24; -115; -33]);
  ([32; 34; 36; 41; 43; 45], [-125; -44; -42; -35; -130; -33]);
  ([32; 129; 34; 41; 43], [-125; -44; -42; -35; -33]);
  ([32; 41; 34; 43], [-128; -125; -42; -33]);
  ([32; 41; 127], [-125; -42; -33]);
  ([41; 43; 45; 50; 52; 54], [-53; -51; -44; -140; -42; -135]);
  ([41; 43; 139; 50; 52], [-53; -51; -44; -42; -135]);
  ([41; 50; 43; 52], [-135; -138; -51; -42]);
  ([41; 50; 137], [-135; -51; -42]);
  ([50; 52; 54; 59; 61; 63], [-62; -60; -150; -53; -51; -145]);
  ([50; 52; 149; 59; 61], [-62; -60; -53; -51; -145]);
  ([50; 59; 52; 61], [-148; -60; -51; -145]);
  ([50; 59; 147], [-60; -51; -145]);
  ([68; 70; 72; 59; 61; 63], [-160; -62; -60; -155; -71; -69]);
  ([68; 70; 59; 61; 159], [-62; -60; -155; -71; -69]);
  ([59; 68; 61; 70], [-158; -69; -60; -155]);
  ([59; 68; 157], [-69; -60; -155]);
  ([68; 70; 72; 77; 79; 81], [-69; -80; -78; -170; -71; -165]);
  ([68; 70; 169; 77; 79], [-69; -80; -78; -71; -165]);
  ([68; 77; 70; 79], [-168; -78; -165; -69]);
  ([68; 77; 167], [-78; -165; -69]);
  ([77; 79; 81; 86; 88; 90], [-89; -87; -180; -80; -175; -78]);
  ([77; 79; 179; 86; 88], [-89; -87; -80; -175; -78]);
  ([88; 77; 86; 79], [-175; -78; -87; -178]);
  ([177; 77; 86], [-175; -78; -87]);
  ([4; 100; 6; 8; 13; 15; 17], [-94; -18; -16; -14; -9; -7; -5]);
  ([4; 6; 8; 13; 15; 17], [-94; -16; -14; -7; -5; -99]);
  ([98; 4; 6; 13; 15], [-94; -16; -14; -7; -5]);
  ([4; 13; 6; 15], [-14; -94; -5; -97]);
  ([96; 4; 13], [-14; -94; -5]);
  ([13; 110; 15; 17; 22; 24; 26], [-27; -25; -23; -18; -16; -14; -104]);
  ([13; 15; 17; 22; 24; 26], [-25; -23; -16; -14; -109; -104]);
  ([108; 13; 15; 22; 24], [-25; -23; -16; -14; -104]);
  ([24; 13; 22; 15], [-104; -23; -14; -107]);
  ([106; 13; 22], [-104; -23; -14]);
  ([33; 35; 22; 24; 26; 120; 31], [-32; -27; -25; -23; -114; -36; -34]);
  ([33; 35; 22; 24; 26; 31], [-32; -25; -23; -119; -114; -34]);
  ([33; 118; 22; 24; 31], [-32; -25; -23; -114; -34]);
  ([24; 33; 22; 31], [-32; -23; -117; -114]);
  ([116; 22; 31], [-32; -23; -114]);
  ([33; 130; 35; 40; 42; 44; 31], [-32; -124; -45; -43; -41; -36; -34]);
  ([33; 35; 40; 42; 44; 31], [-32; -124; -43; -41; -34; -129]);
  ([128; 33; 40; 42; 31], [-32; -124; -43; -41; -34]);
  ([40; 33; 42; 31], [-32; -127; -124; -41]);
  ([40; 126; 31], [-32; -124; -41]);
  ([40; 42; 44; 140; 49; 51; 53], [-54; -52; -50; -45; -43; -41; -134]);
  ([40; 42; 44; 49; 51; 53], [-52; -50; -43; -139; -41; -134]);
  ([40; 42; 138; 49; 51], [-52; -50; -43; -41; -134]);
  ([40; 49; 42; 51], [-134; -137; -50; -41]);
  ([40; 49; 136], [-134; -50; -41]);
  ([49; 51; 53; 150; 58; 60; 62], [-63; -61; -59; -54; -52; -50; -144]);
  ([49; 51; 53; 58; 60; 62], [-61; -59; -149; -52; -50; -144]);
  ([49; 51; 148; 58; 60], [-61; -59; -52; -50; -144]);
  ([49; 58; 51; 60], [-144; -147; -59; -50]);
  ([49; 58; 146], [-144; -59; -50]);
  ([160; 67; 69; 71; 58; 60; 62], [-63; -61; -59; -154; -72; -70; -68]);
  ([67; 69; 71; 58; 60; 62], [-159; -61; -59; -154; -70; -68]);
  ([67; 69; 58; 60; 158], [-61; -59; -154; -70; -68]);
  ([58; 67; 60; 69], [-157; -68; -59; -154]);
  ([58; 67; 156], [-68; -59; -154]);
  ([67; 69; 71; 170; 76; 78; 80], [-164; -81; -79; -77; -72; -70; -68]);
  ([67; 69; 71; 76; 78; 80], [-164; -79; -77; -169; -70; -68]);
  ([67; 69; 168; 76; 78], [-164; -79; -77; -70; -68]);
  ([67; 76; 69; 78], [-167; -68; -77; -164]);
  ([67; 76; 166], [-68; -77; -164]);
  ([76; 78; 80; 180; 85; 87; 89], [-90; -88; -86; -81; -79; -174; -77]);
  ([76; 78; 80; 85; 87; 89], [-88; -86; -179; -79; -174; -77]);
  ([76; 78; 178; 85; 87], [-88; -86; -79; -174; -77]);
  ([76; 85; 78; 87], [-86; -174; -77; -177]);
  ([176; 76; 85], [-86; -174; -77]);
  ([3; 5; 7; 9; 12; 14; 16; 18], [-93; -100; -17; -15; -13; -8; -6; -4]);
  ([3; 99; 5; 7; 12; 14; 16], [-93; -17; -15; -13; -8; -6; -4]);
  ([3; 5; 7; 12; 14; 16], [-93; -15; -13; -6; -4; -98]);
  ([97; 3; 5; 12; 14], [-93; -15; -13; -6; -4]);
  ([3; 12; 5; 14], [-96; -93; -4; -13]);
  ([3; 12; 95], [-93; -4; -13]);
  ([12; 14; 16; 18; 21; 23; 25; 27],
   [-26; -24; -22; -17; -15; -110; -13; -103]);
  ([12; 109; 14; 16; 21; 23; 25], [-26; -24; -22; -17; -15; -13; -103]);
  ([12; 14; 16; 21; 23; 25], [-24; -22; -15; -13; -108; -103]);
  ([107; 12; 14; 21; 23], [-24; -22; -15; -13; -103]);
  ([12; 21; 14; 23], [-103; -22; -13; -106]);
  ([105; 12; 21], [-103; -22; -13]);
  ([32; 34; 36; 21; 23; 25; 27; 30],
   [-31; -26; -24; -120; -22; -113; -35; -33]);
  ([32; 34; 119; 21; 23; 25; 30], [-31; -26; -24; -22; -113; -35; -33]);
  ([32; 34; 21; 23; 25; 30], [-31; -24; -22; -118; -113; -33]);
  ([32; 117; 21; 23; 30], [-31; -24; -22; -113; -33]);
  ([32; 21; 30; 23], [-31; -22; -116; -113]);
  ([115; 21; 30], [-31; -22; -113]);
  ([32; 34; 36; 39; 41; 43; 45; 30],
   [-31; -123; -44; -42; -40; -35; -130; -33]);
  ([32; 129; 34; 39; 41; 43; 30], [-31; -123; -44; -42; -40; -35; -33]);
  ([32; 34; 39; 41; 43; 30], [-128; -31; -123; -42; -40; -33]);
  ([32; 39; 41; 30; 127], [-31; -123; -42; -40; -33]);
  ([32; 41; 30; 39], [-40; -31; -126; -123]);
  ([125; 30; 39], [-40; -31; -123]);
  ([39; 41; 43; 45; 48; 50; 52; 54],
   [-53; -51; -49; -44; -140; -42; -40; -133]);
  ([39; 41; 43; 139; 48; 50; 52], [-53; -51; -49; -44; -42; -40; -133]);
  ([39; 41; 43; 48; 50; 52], [-51; -49; -42; -138; -40; -133]);
  ([39; 41; 137; 48; 50], [-51; -49; -42; -40; -133]);
  ([48; 41; 50; 39], [-40; -133; -136; -49]);
  ([48; 135; 39], [-40; -133; -49]);
  ([48; 50; 52; 54; 57; 59; 61; 63],
   [-62; -60; -58; -150; -53; -51; -49; -143]);
  ([48; 50; 52; 149; 57; 59; 61], [-62; -60; -58; -53; -51; -49; -143]);
  ([48; 50; 52; 57; 59; 61], [-60; -58; -148; -51; -49; -143]);
  ([48; 50; 147; 57; 59], [-60; -58; -51; -49; -143]);
  ([48; 57; 50; 59], [-143; -146; -58; -49]);
  ([48; 57; 145], [-143; -58; -49]);
  ([66; 68; 70; 72; 57; 59; 61; 63],
   [-160; -62; -60; -58; -153; -71; -69; -67]);
  ([66; 68; 70; 57; 59; 61; 159], [-62; -60; -58; -153; -71; -69; -67]);
  ([66; 68; 70; 57; 59; 61], [-158; -60; -58; -153; -69; -67]);
  ([66; 68; 57; 59; 157], [-60; -58; -153; -69; -67]);
  ([57; 66; 59; 68], [-156; -67; -58; -153]);
  ([57; 66; 155], [-67; -58; -153]);
  ([66; 68; 70; 72; 75; 77; 79; 81],
   [-67; -80; -78; -76; -170; -71; -69; -163]);
  ([66; 68; 70; 169; 75; 77; 79], [-67; -80; -78; -76; -71; -69; -163]);
  ([66; 68; 70; 75; 77; 79], [-67; -78; -76; -168; -69; -163]);
  ([66; 68; 167; 75; 77], [-67; -78; -76; -69; -163]);
  ([66; 75; 68; 77], [-166; -76; -163; -67]);
  ([66; 75; 165], [-76; -163; -67]);
  ([75; 77; 79; 81; 84; 86; 88; 90],
   [-89; -87; -85; -180; -80; -78; -173; -76]);
  ([75; 77; 79; 179; 84; 86; 88], [-89; -87; -85; -80; -78; -173; -76]);
  ([75; 77; 79; 84; 86; 88], [-87; -85; -178; -78; -173; -76]);
  ([75; 77; 177; 84; 86], [-87; -85; -78; -173; -76]);
  ([75; 84; 77; 86], [-176; -173; -76; -85]);
  ([75; 84; 175], [-173; -76; -85]);
  ([2; 4; 100; 6; 8; 11; 13; 15; 17],
   [-92; -18; -16; -14; -12; -9; -7; -5; -3]);
  ([2; 4; 6; 8; 11; 13; 15; 17], [-92; -99; -16; -14; -12; -7; -5; -3]);
  ([2; 98; 4; 6; 11; 13; 15], [-92; -16; -14; -12; -7; -5; -3]);
  ([2; 4; 6; 11; 13; 15], [-92; -14; -12; -5; -3; -97]);
  ([96; 2; 4; 11; 13], [-92; -14; -12; -5; -3]);
  ([2; 11; 4; 13], [-95; -12; -92; -3]);
  ([2; 11; 94], [-12; -92; -3]);
  ([11; 13; 110; 15; 17; 20; 22; 24; 26],
   [-27; -25; -23; -21; -18; -16; -14; -12; -102]);
  ([11; 13; 15; 17; 20; 22; 24; 26],
   [-25; -23; -21; -16; -14; -109; -12; -102]);
  ([11; 108; 13; 15; 20; 22; 24], [-25; -23; -21; -16; -14; -12; -102]);
  ([11; 13; 15; 20; 22; 24], [-23; -21; -14; -12; -107; -102]);
  ([106; 11; 13; 20; 22], [-23; -21; -14; -12; -102]);
  ([11; 20; 13; 22], [-102; -21; -12; -105]);
  ([104; 11; 20], [-102; -21; -12]);
  ([33; 35; 20; 22; 24; 26; 120; 29; 31],
   [-32; -30; -27; -25; -23; -21; -112; -36; -34]);
  ([33; 35; 20; 22; 24; 26; 29; 31],
   [-32; -30; -25; -23; -119; -21; -112; -34]);
  ([33; 20; 22; 118; 24; 29; 31], [-32; -30; -25; -23; -21; -112; -34]);
  ([33; 20; 22; 24; 29; 31], [-32; -30; -23; -21; -117; -112]);
  ([116; 20; 22; 29; 31], [-32; -30; -23; -21; -112]);
  ([20; 29; 22; 31], [-112; -30; -21; -115]);
  ([114; 20; 29], [-112; -30; -21]);
  ([33; 130; 35; 38; 40; 42; 44; 29; 31],
   [-32; -30; -122; -45; -43; -41; -39; -36; -34]);
  ([33; 35; 38; 40; 42; 44; 29; 31],
   [-32; -30; -122; -43; -41; -39; -34; -129]);
  ([128; 33; 38; 40; 42; 29; 31], [-32; -30; -122; -43; -41; -39; -34]);
  ([33; 38; 40; 42; 29; 31], [-32; -127; -30; -122; -41; -39]);
  ([38; 40; 29; 126; 31], [-32; -30; -122; -41; -39]);
  ([40; 29; 38; 31], [-39; -30; -125; -122]);
  ([124; 29; 38], [-39; -30; -122]);
  ([38; 40; 42; 44; 140; 47; 49; 51; 53],
   [-54; -52; -50; -48; -45; -43; -41; -39; -132]);
  ([38; 40; 42; 44; 47; 49; 51; 53],
   [-52; -50; -48; -43; -139; -41; -39; -132]);
  ([38; 40; 42; 138; 47; 49; 51], [-52; -50; -48; -43; -41; -39; -132]);
  ([38; 40; 42; 47; 49; 51], [-50; -137; -48; -41; -39; -132]);
  ([38; 40; 136; 47; 49], [-50; -48; -41; -39; -132]);
  ([40; 49; 38; 47], [-48; -39; -132; -135]);
  ([134; 38; 47], [-48; -39; -132]);
  ([47; 49; 51; 53; 150; 56; 58; 60; 62],
   [-63; -61; -59; -57; -54; -52; -50; -48; -142]);
  ([47; 49; 51; 53; 56; 58; 60; 62],
   [-61; -59; -57; -149; -52; -50; -48; -142]);
  ([47; 49; 51; 148; 56; 58; 60], [-61; -59; -57; -52; -50; -48; -142]);
  ([47; 49; 51; 56; 58; 60], [-59; -57; -147; -50; -48; -142]);
  ([47; 49; 146; 56; 58], [-59; -57; -50; -48; -142]);
  ([56; 49; 58; 47], [-48; -142; -145; -57]);
  ([56; 144; 47], [-48; -142; -57]);
  ([160; 65; 67; 69; 71; 56; 58; 60; 62],
   [-63; -61; -59; -57; -152; -72; -70; -68; -66]);
  ([65; 67; 69; 71; 56; 58; 60; 62],
   [-159; -61; -59; -57; -152; -70; -68; -66]);
  ([65; 67; 69; 56; 58; 60; 158], [-61; -59; -57; -152; -70; -68; -66]);
  ([65; 67; 69; 56; 58; 60], [-157; -59; -57; -152; -68; -66]);
  ([65; 67; 56; 58; 156], [-59; -57; -152; -68; -66]);
  ([56; 65; 58; 67], [-152; -155; -66; -57]);
  ([56; 65; 154], [-152; -66; -57]);
  ([65; 67; 69; 71; 74; 170; 76; 78; 80],
   [-81; -162; -79; -77; -75; -72; -70; -68; -66]);
  ([65; 67; 69; 71; 74; 76; 78; 80],
   [-162; -79; -77; -75; -169; -70; -68; -66]);
  ([65; 67; 69; 168; 74; 76; 78], [-162; -79; -77; -75; -70; -68; -66]);
  ([65; 67; 69; 74; 76; 78], [-162; -77; -75; -167; -68; -66]);
  ([65; 67; 166; 74; 76], [-162; -77; -75; -68; -66]);
  ([65; 74; 67; 76], [-165; -66; -75; -162]);
  ([65; 74; 164], [-66; -75; -162]);
  ([74; 76; 78; 80; 83; 180; 85; 87; 89],
   [-90; -88; -86; -84; -81; -79; -77; -172; -75]);
  ([74; 76; 78; 80; 83; 85; 87; 89],
   [-88; -86; -84; -179; -79; -77; -172; -75]);
  ([74; 76; 78; 178; 83; 85; 87], [-88; -86; -84; -79; -77; -172; -75]);
  ([74; 76; 78; 83; 85; 87], [-86; -84; -177; -77; -172; -75]);
  ([74; 76; 176; 83; 85], [-86; -84; -77; -172; -75]);
  ([74; 83; 76; 85], [-175; -84; -172; -75]);
  ([74; 83; 174], [-84; -172; -75]);
  ([1; 3; 5; 7; 9; 10; 12; 14; 16; 18],
   [-91; -100; -17; -15; -13; -11; -8; -6; -4; -2]);
  ([1; 3; 99; 5; 7; 10; 12; 14; 16],
   [-91; -17; -15; -13; -11; -8; -6; -4; -2]);
  ([1; 3; 5; 7; 10; 12; 14; 16], [-91; -15; -13; -98; -11; -6; -4; -2]);
  ([1; 97; 3; 5; 10; 12; 14], [-91; -15; -13; -11; -6; -4; -2]);
  ([1; 3; 5; 10; 12; 14], [-96; -91; -13; -11; -4; -2]);
  ([1; 3; 10; 12; 95], [-91; -13; -11; -4; -2]);
  ([1; 10; 3; 12], [-11; -94; -91; -2]);
  ([1; 10; 93], [-11; -91; -2]);
  ([10; 12; 14; 16; 18; 19; 21; 23; 25; 27],
   [-26; -24; -22; -20; -17; -15; -110; -13; -11; -101]);
  ([10; 12; 109; 14; 16; 19; 21; 23; 25],
   [-26; -24; -22; -20; -17; -15; -13; -11; -101]);
  ([10; 12; 14; 16; 19; 21; 23; 25],
   [-24; -22; -20; -15; -13; -108; -11; -101]);
  ([10; 107; 12; 14; 19; 21; 23], [-24; -22; -20; -15; -13; -11; -101]);
  ([10; 12; 14; 19; 21; 23], [-22; -20; -13; -11; -106; -101]);
  ([105; 10; 12; 19; 21], [-22; -20; -13; -11; -101]);
  ([10; 19; 12; 21], [-104; -101; -20; -11]);
  ([10; 19; 103], [-101; -20; -11]);
  ([32; 34; 36; 19; 21; 23; 25; 27; 28; 30],
   [-31; -29; -26; -24; -120; -22; -20; -111; -35; -33]);
  ([32; 34; 19; 119; 21; 23; 25; 28; 30],
   [-31; -29; -26; -24; -22; -20; -111; -35; -33]);
  ([32; 34; 19; 21; 23; 25; 28; 30],
   [-31; -29; -24; -22; -118; -20; -111; -33]);
  ([32; 19; 21; 117; 23; 28; 30], [-31; -29; -24; -22; -20; -111; -33]);
  ([32; 19; 21; 23; 28; 30], [-31; -29; -22; -20; -116; -111]);
  ([115; 19; 21; 28; 30], [-31; -29; -22; -20; -111]);
  ([19; 28; 21; 30], [-111; -29; -20; -114]);
  ([113; 19; 28], [-111; -29; -20]);
  ([32; 34; 36; 37; 39; 41; 43; 45; 28; 30],
   [-31; -29; -121; -44; -42; -40; -38; -35; -130; -33]);
  ([32; 129; 34; 37; 39; 41; 43; 28; 30],
   [-31; -29; -121; -44; -42; -40; -38; -35; -33]);
  ([32; 34; 37; 39; 41; 43; 28; 30],
   [-128; -31; -29; -121; -42; -40; -38; -33]);
  ([32; 37; 39; 41; 28; 30; 127], [-31; -29; -121; -42; -40; -38; -33]);
  ([32; 37; 39; 41; 28; 30], [-31; -126; -29; -121; -40; -38]);
  ([37; 39; 28; 125; 30], [-31; -29; -121; -40; -38]);
  ([28; 37; 30; 39], [-38; -29; -124; -121]);
  ([123; 28; 37], [-38; -29; -121]);
  ([37; 39; 41; 43; 45; 46; 48; 50; 52; 54],
   [-53; -51; -49; -47; -44; -140; -42; -40; -38; -131]);
  ([37; 39; 41; 43; 139; 46; 48; 50; 52],
   [-53; -51; -49; -47; -44; -42; -40; -38; -131]);
  ([37; 39; 41; 43; 46; 48; 50; 52],
   [-51; -49; -47; -42; -138; -40; -38; -131]);
  ([37; 39; 41; 137; 46; 48; 50], [-51; -49; -47; -42; -40; -38; -131]);
  ([37; 39; 41; 46; 48; 50], [-49; -47; -136; -40; -38; -131]);
  ([37; 135; 39; 46; 48], [-49; -47; -40; -38; -131]);
  ([48; 37; 46; 39], [-47; -38; -131; -134]);
  ([37; 46; 133], [-47; -38; -131]);
  ([46; 48; 50; 52; 54; 55; 57; 59; 61; 63],
   [-62; -60; -58; -56; -150; -53; -51; -49; -47; -141]);
  ([46; 48; 50; 52; 149; 55; 57; 59; 61],
   [-62; -60; -58; -56; -53; -51; -49; -47; -141]);
  ([46; 48; 50; 52; 55; 57; 59; 61],
   [-60; -58; -56; -148; -51; -49; -47; -141]);
  ([46; 48; 50; 147; 55; 57; 59], [-60; -58; -56; -51; -49; -47; -141]);
  ([46; 48; 50; 55; 57; 59], [-58; -56; -146; -49; -47; -141]);
  ([46; 48; 145; 55; 57], [-58; -56; -49; -47; -141]);
  ([48; 57; 46; 55], [-56; -47; -141; -144]);
  ([143; 46; 55], [-56; -47; -141]);
  ([64; 66; 68; 70; 72; 55; 57; 59; 61; 63],
   [-160; -62; -60; -58; -56; -151; -71; -69; -67; -65]);
  ([64; 66; 68; 70; 55; 57; 59; 61; 159],
   [-62; -60; -58; -56; -151; -71; -69; -67; -65]);
  ([64; 66; 68; 70; 55; 57; 59; 61],
   [-158; -60; -58; -56; -151; -69; -67; -65]);
  ([64; 66; 68; 55; 57; 59; 157], [-60; -58; -56; -151; -69; -67; -65]);
  ([64; 66; 68; 55; 57; 59], [-156; -58; -56; -151; -67; -65]);
  ([64; 66; 55; 57; 155], [-58; -56; -151; -67; -65]);
  ([64; 57; 66; 55], [-56; -151; -154; -65]);
  ([64; 153; 55], [-56; -151; -65]);
  ([64; 66; 68; 70; 72; 73; 75; 77; 79; 81],
   [-80; -78; -76; -74; -161; -170; -71; -69; -67; -65]);
  ([64; 66; 68; 70; 73; 169; 75; 77; 79],
   [-80; -78; -76; -74; -161; -71; -69; -67; -65]);
  ([64; 66; 68; 70; 73; 75; 77; 79],
   [-78; -76; -74; -161; -168; -69; -67; -65]);
  ([64; 66; 68; 167; 73; 75; 77], [-78; -76; -74; -161; -69; -67; -65]);
  ([64; 66; 68; 73; 75; 77], [-76; -74; -161; -166; -67; -65]);
  ([64; 66; 165; 73; 75], [-76; -74; -161; -67; -65]);
  ([64; 73; 66; 75], [-65; -164; -74; -161]);
  ([64; 73; 163], [-65; -74; -161]);
  ([73; 75; 77; 79; 81; 82; 84; 86; 88; 90],
   [-89; -87; -85; -180; -83; -80; -78; -76; -171; -74]);
  ([73; 75; 77; 79; 82; 179; 84; 86; 88],
   [-89; -87; -85; -83; -80; -78; -76; -171; -74]);
  ([73; 75; 77; 79; 82; 84; 86; 88],
   [-87; -85; -83; -178; -78; -76; -171; -74]);
  ([73; 75; 77; 177; 82; 84; 86], [-87; -85; -83; -78; -76; -171; -74]);
  ([73; 75; 77; 82; 84; 86], [-85; -83; -176; -76; -171; -74]);
  ([73; 75; 175; 82; 84], [-85; -83; -76; -171; -74]);
  ([73; 82; 75; 84], [-174; -171; -74; -83]);
  ([73; 82; 173], [-171; -74; -83])
].

(** ** The global preprocessor: [global_preprocess],
       [global_preprocess_chess] *)

(** How the body of a loop hands control back: fall through to the next
    round, [break], or [return res]. *)
Inductive Flow := Continue | Break | Return (res : Z).

Section GlobalPreprocess.
Context {St : Type} `{Collaborators St}.

(** [while (!propagate ()) analyze ();] of [global_preprocess], bounded
    like [analyze_loop]. *)
Fixpoint propagate_loop_fuel (fuel : nat) : M St unit :=
  match fuel with
  | O => fail
  | S fuel' =>
      ok ← propagate;
      if ok : bool then mret tt else analyze;; propagate_loop_fuel fuel'
  end.

(** The same loop started with the fuel of [analyze_loop]. *)
Definition propagate_loop : M St unit :=
  l ← level; propagate_loop_fuel (Z.to_nat l + 2).

(** [globalmarks.resize (2 * max_var + 1)] and the zeroing loop; opening
    the two output streams empties them. *)
Definition init_global : M St unit := λ i,
  Some (tt, {| solver := solver i; opts := opts i;
               globalmarks :=
                 replicate (Z.to_nat (2 * ext_max_var (solver i) + 1)) false;
               global_try := global_try i;
               outFile := []; outFile_pr := [];
               clock := clock i |}).

(** *** [get_touched_literals]

    [getbit (l, 1)], [setbit (l, 1)] and [unsetbit (l, 1)] are declared
    outside this file; bit 1 is taken to be a scratch bit of the literal
    that is clear on entry.  Every bit the function sets it unsets before
    it returns, so the set bits are the literals pushed so far. *)
Fixpoint touched_scan (s : St) (pushed : list Z) (lits : list Z)
    (clause_touched : bool) (variables_to_consider : list Z)
    : bool * bool * list Z :=
  match lits with
  | [] => (clause_touched, false, variables_to_consider)
  | l :: rest =>
      if 0 <? ext_val s l then (clause_touched, true, variables_to_consider)
      else if ext_val s l <? 0
      then touched_scan s pushed rest true variables_to_consider
      else if negb (bool_decide (l ∈ pushed)) &&
              negb (is_fixed (ext_flags s l))
      then touched_scan s pushed rest clause_touched
             (variables_to_consider ++ [l])
      else touched_scan s pushed rest clause_touched variables_to_consider
  end.

(** The loop over [clauses] of [get_touched_literals]. *)
Fixpoint touched_clauses (s : St) (cs : list Clause)
    (touched_literals : list Z) : list Z :=
  match cs with
  | [] => touched_literals
  | c :: rest =>
      let '(clause_touched, clause_satisfied, variables_to_consider) :=
        touched_scan s touched_literals (literals c) false [] in
      if clause_touched && negb clause_satisfied
      then touched_clauses s rest (touched_literals ++ variables_to_consider)
      else touched_clauses s rest touched_literals
  end.

(** [get_touched_literals]: every variable when the touch optimisation
    is off. *)
Definition get_touched_literals : M St (list Z) :=
  o ← read opts;
  s ← read solver;
  if negb (globaltouch o)
  then mret (map Z.of_nat (seq 1 (Z.to_nat (ext_max_var s))))
  else mret (touched_clauses s (ext_clauses s) []).

(** *** [get_sorted_literals] *)
Definition count_occurrences (s : St) (v : Z) : Z :=
  Z.of_nat (length (filter (λ lit, Z.abs lit = v)
    (concat (map literals (filter (λ c, garbage c = false)
                                  (ext_clauses s)))))).

(** [std::sort] by descending count; an insertion sort fixes the order
    among equal counts. *)
Fixpoint insert_by_count (p : Z * Z) (l : list (Z * Z)) : list (Z * Z) :=
  match l with
  | [] => [p]
  | q :: r => if q.2 <? p.2 then p :: l else q :: insert_by_count p r
  end.

(** [get_sorted_literals]: the active variables by descending number of
    occurrences in the clauses that are not garbage. *)
Definition get_sorted_literals : M St (list Z) :=
  s ← read solver;
  let vars := filter (λ v, ext_active s v = true)
                (map Z.of_nat (seq 1 (Z.to_nat (ext_max_var s)))) in
  let lit_counts := map (λ v, (v, count_occurrences s v)) vars in
  mret (map fst (foldr insert_by_count [] lit_counts)).

(** [if (unsat) { STOP; return 20; }]. *)
Definition return_if_unsat : M St Flow :=
  u ← unsat; mret (if u : bool then Return 20 else Continue).

(** [assert (!unsat)]. *)
Definition assert_not_unsat : M St unit :=
  u ← unsat; if u : bool then fail else mret tt.

(** One round of the loop over [polarities]. *)
Definition probe_pair (i j_polar original_time : Z) : M St Flow :=
  assert_not_unsat;;
  f ← flags i;
  if is_fixed f then mret Break
  else
    f2 ← flags j_polar;
    if is_fixed f2 then mret Continue
    else
      backtrack 0;;
      propagate_loop;;
      search_assume_decision i;;
      ok ← propagate;
      if ok : bool then
        v ← val j_polar;
        if negb (v =? 0) then mret Continue
        else
          search_assume_decision j_polar;;
          ok2 ← propagate;
          if ok2 : bool then
            _ ← least_conditional_part original_time;
            backtrack 0;;
            return_if_unsat
          else analyze;; analyze_loop;; return_if_unsat
      else analyze;; analyze_loop;; return_if_unsat.

(** The loop over [polarities]: a [break] of its body ends it. *)
Fixpoint polarity_loop (i j original_time : Z) (polarities : list Z)
    : M St Flow :=
  match polarities with
  | [] => mret Continue
  | polarity :: rest =>
      r ← probe_pair i (polarity * j) original_time;
      match r with
      | Continue => polarity_loop i j original_time rest
      | Break => mret Continue
      | Return res => mret (Return res)
      end
  end.

(** The loop over [touched_literals], with the time check at its top. *)
Fixpoint touched_loop (i original_time : Z) (touched_literals : list Z)
    : M St Flow :=
  match touched_literals with
  | [] => mret Continue
  | j :: rest =>
      t ← time;
      o ← read opts;
      if globaltimelim o <? t - original_time then mret Continue
      else
        assert_not_unsat;;
        r ← polarity_loop i j original_time
              (if globalbothpol o then [-1; 1] else [1]);
        match r with
        | Return res => mret (Return res)
        | _ =>
            r2 ← return_if_unsat;
            match r2 with
            | Return res => mret (Return res)
            | _ => touched_loop i original_time rest
            end
        end
  end.

(** The two single-literal probes that close a round of the outer
    loop. *)
Definition probe_single (i : Z) : M St Flow :=
  backtrack 0;;
  f ← flags i;
  if is_fixed f then mret Continue
  else
    search_assume_decision i;;
    ok ← propagate;
    if ok : bool then
      backtrack 0;;
      f' ← flags i;
      if is_fixed f' then fail
      else
        search_assume_decision (- i);;
        ok2 ← propagate;
        if ok2 : bool then return_if_unsat
        else analyze;; analyze_loop;; backtrack 0;; mret Continue
    else analyze;; analyze_loop;; backtrack 0;; mret Continue.

(** The choice of the candidate literal [i]; [None] is the [break] of
    the sorted policy. *)
Definition pick_candidate (count : Z) (sorted_literals : list Z)
    : M St (option Z) :=
  o ← read opts;
  if globalisort o then
    mret (sorted_literals !! Z.to_nat count)
  else if globalorderi o then mret (Some count)
  else
    mv ← max_var;
    r1 ← (λ i, let '(r, s) := ext_rand (solver i) in
               Some (r, {| solver := s; opts := opts i;
                           globalmarks := globalmarks i;
                           global_try := global_try i;
                           outFile := outFile i;
                           outFile_pr := outFile_pr i;
                           clock := clock i |}));
    r2 ← (λ i, let '(r, s) := ext_rand (solver i) in
               Some (r, {| solver := s; opts := opts i;
                           globalmarks := globalmarks i;
                           global_try := global_try i;
                           outFile := outFile i;
                           outFile_pr := outFile_pr i;
                           clock := clock i |}));
    if mv =? 0 then fail
    else
      let i_no_polarity := Z.rem r1 mv + 1 in
      let i_polarity := Z.rem r2 2 in
      mret (Some ((if negb (i_polarity =? 0) then -1 else 1)
                  * i_no_polarity)).

(** One round of the outer loop, after the time check. *)
Definition candidate_round (count original_time : Z)
    (sorted_literals : list Z) : M St Flow :=
  c ← pick_candidate count sorted_literals;
  match c with
  | None => mret Break
  | Some i =>
      backtrack 0;;
      f ← flags i;
      if is_fixed f then mret Continue
      else
        search_assume_decision i;;
        ok ← propagate;
        if ok : bool then
          touched_literals ← get_touched_literals;
          r ← touched_loop i original_time touched_literals;
          match r with
          | Return res => mret (Return res)
          | _ =>
              r2 ← return_if_unsat;
              match r2 with
              | Return res => mret (Return res)
              | _ => probe_single i
              end
          end
        else
          analyze;;
          ok2 ← propagate;
          if ok2 : bool then mret Continue
          else analyze;; mret Break
  end.

(** The outer loop over [count], with the time check at its top; the
    result is the function's return value. *)
Fixpoint candidate_loop (counts : list Z) (original_time : Z)
    (sorted_literals : list Z) : M St Z :=
  match counts with
  | [] => u ← unsat; mret (if u : bool then 20 else 0)
  | count :: rest =>
      t ← time;
      o ← read opts;
      if globaltimelim o <? t - original_time
      then u ← unsat; mret (if u : bool then 20 else 0)
      else
        r ← candidate_round count original_time sorted_literals;
        match r with
        | Continue => candidate_loop rest original_time sorted_literals
        | Break => u ← unsat; mret (if u : bool then 20 else 0)
        | Return res => mret res
        end
  end.

(** [global_preprocess]: [original_time] is read once, before the
    loop. *)
Definition global_preprocess : M St Z :=
  init_global;;
  original_time ← time;
  o ← read opts;
  sorted_literals ← (if globalisort o then get_sorted_literals
                     else mret []);
  mv ← max_var;
  candidate_loop (map Z.of_nat (seq 1 (Z.to_nat mv)))
    original_time sorted_literals.

(** *** [global_preprocess_chess]

    The loop over the literals of one batch; the result is
    [try_learn]. *)
Fixpoint assume_batch (ass_round_asses : list Z) : M St bool :=
  match ass_round_asses with
  | [] => mret true
  | ass :: rest =>
      check_range ass;;
      f ← flags ass;
      if is_fixed f then assume_batch rest
      else
        v ← val ass;
        if negb (v =? 0) then assume_batch rest
        else
          search_assume_decision ass;;
          ok ← propagate;
          if ok : bool then assume_batch rest
          else analyze;; analyze_loop;; mret false
  end.

(** The loop over the schedule; the result is the function's return
    value. *)
Fixpoint chess_loop (schedule : list (list Z * list Z))
    (original_time : Z) : M St Z :=
  match schedule with
  | [] => mret 0
  | (ass_round_asses, tries) :: rest =>
      set_global_try tries;;
      backtrack 0;;
      try_learn ← assume_batch ass_round_asses;
      (if try_learn : bool
       then _ ← least_conditional_part original_time; mret tt
       else mret tt);;
      backtrack 0;;
      ok ← propagate;
      (if ok : bool then mret tt else analyze;; analyze_loop);;
      u ← unsat;
      if u : bool then mret 20
      else chess_loop rest original_time
  end.

(** [global_preprocess_chess] over a given schedule. *)
Definition global_preprocess_chess_on (schedule : list (list Z * list Z))
    : M St Z :=
  init_global;;
  original_time ← time;
  chess_loop schedule original_time.

(** [global_preprocess_chess] over its hard-coded schedule [asses]. *)
Definition global_preprocess_chess : M St Z :=
  global_preprocess_chess_on asses.

End GlobalPreprocess.

(** ** Growing the variable tables: [enlarge_vals], [enlarge_init],
       [enlarge_only], [enlarge_zero], [enlarge], [init_vars] *)

(** The conversions to [size_t] (64 bits) and to [unsigned] (32 bits). *)
Definition to_size_t (z : Z) : Z := z `mod` 2 ^ 64.
Definition to_unsigned (z : Z) : Z := z `mod` 2 ^ 32.

(** [enlarge_init]: [v.resize (N, i)] when [v] has fewer than [N]
    elements. *)
Definition enlarge_init {T} (v : list T) (N : Z) (i : T) : list T :=
  if Z.of_nat (length v) <? N
  then v ++ replicate (Z.to_nat N - length v) i
  else v.

(** [enlarge_only]: the new elements are [T ()], here [dflt]. *)
Definition enlarge_only {T} (dflt : T) (v : list T) (N : Z) : list T :=
  if Z.of_nat (length v) <? N
  then v ++ replicate (Z.to_nat N - length v) dflt
  else v.

(** [enlarge_zero]: [enlarge_init] with the value 0. *)
Definition enlarge_zero (v : list Z) (N : Z) : list Z := enlarge_init v N 0.

(** [memcpy (dst + d, src + s, n)] on two blocks: defined when both
    ranges lie within their block. *)
Definition memcpy (dst : list Z) (d : Z) (src : list Z) (s n : Z)
    : option (list Z) :=
  if (0 <=? d) && (d + n <=? Z.of_nat (length dst)) &&
     (0 <=? s) && (s + n <=? Z.of_nat (length src))
  then Some (take (Z.to_nat d) dst ++
             take (Z.to_nat n) (drop (Z.to_nat s) src) ++
             drop (Z.to_nat (d + n)) dst)
  else None.

(** The loop [while (new_vsize <= (size_t) new_max_var) new_vsize *= 2]
    in [size_t] arithmetic: once 64 doublings have not ended it the value
    is 0 and stays 0, so 65 rounds decide whether it ends. *)
Fixpoint grow_vsize (fuel : nat) (new_vsize new_max_var : Z) : option Z :=
  match fuel with
  | O => None
  | S fuel' =>
      if new_vsize <=? new_max_var
      then grow_vsize fuel' (to_size_t (new_vsize * 2)) new_max_var
      else Some new_vsize
  end.

(** The start value and the loop of [enlarge]. *)
Definition new_vsize_of (vsize new_max_var : Z) : option Z :=
  grow_vsize 65
    (if vsize =? 0 then to_size_t (1 + to_size_t new_max_var)
     else to_size_t (2 * vsize))
    (to_size_t new_max_var).

Module Tables.
Section TableModel.

(** The element types of [wtab], [vtab], [links] and [ftab] with their
    default-constructed values. *)
Context {Watches Var Link Flags : Type}.
Variable no_watches : Watches.
Variable no_var : Var.
Variable no_link : Link.
Variable no_flags : Flags.

(** [phases]. *)
Record Phases := {
  saved : list Z;
  forced : list Z;
  target : list Z;
  best : list Z;
  prev : list Z;
  min : list Z
}.

(** The members of [Internal] that [enlarge] and [init_vars] read and
    write.  [vals] is the block of [2 * vsize] bytes, [None] for the null
    pointer; the pointer the source keeps points at its middle, so
    [vals[k]] is the byte at offset [vsize + k].  [stab] holds doubles,
    of which only the zero written by [enlarge_zero] matters here. *)
Record t := {
  vsize : Z;
  max_var : Z;
  vals : option (list Z);
  lrat : bool;
  frat : bool;
  external : bool;
  phase : bool;
  unit_clauses_idx : list Z;
  wtab : list Watches;
  vtab : list Var;
  parents : list Z;
  links : list Link;
  btab : list Z;
  gtab : list Z;
  stab : list Z;
  ptab : list Z;
  ftab : list Flags;
  relevanttab : list Z;
  phases : Phases;
  marks : list Z;
  stats_vars : Z;
  stats_unused : Z;
  stats_inactive : Z
}.

(** [vals[k]]: defined within the block. *)
Definition val_at (s : t) (k : Z) : option Z :=
  match vals s with
  | Some block =>
      if 0 <=? vsize s + k then block !! Z.to_nat (vsize s + k) else None
  | None => None
  end.

(** The new value of [vals] in [enlarge_vals]: the zeroed block with the
    values of the literals of [-max_var .. max_var] copied over; without
    an old block [vsize] has to be 0. *)
Definition enlarge_vals_block (new_vsize : Z) (s : t) : option (list Z) :=
  let bytes := to_size_t (2 * new_vsize) in
  let new_vals := replicate (Z.to_nat bytes) 0 in
  match vals s with
  | Some block =>
      memcpy new_vals (new_vsize - max_var s) block (vsize s - max_var s)
        (to_size_t (to_unsigned (to_unsigned (2 * to_unsigned (max_var s)) + 1)))
  | None => if vsize s =? 0 then Some new_vals else None
  end.

(** [enlarge]: the tables in the order of the source; [vsize] is
    assigned right after [enlarge_vals]. *)
Definition enlarge (new_max_var : Z) (s : t) : option t :=
  match new_vsize_of (vsize s) new_max_var with
  | None => None
  | Some new_vsize =>
      match enlarge_vals_block new_vsize s with
      | None => None
      | Some block =>
          Some {|
            vsize := new_vsize;
            max_var := max_var s;
            vals := Some block;
            lrat := lrat s; frat := frat s; external := external s;
            phase := phase s;
            unit_clauses_idx :=
              if lrat s || frat s
              then enlarge_zero (unit_clauses_idx s)
                     (to_size_t (2 * new_vsize))
              else unit_clauses_idx s;
            wtab := enlarge_only no_watches (wtab s)
                      (to_size_t (2 * new_vsize));
            vtab := enlarge_only no_var (vtab s) new_vsize;
            parents := enlarge_zero (parents s) new_vsize;
            links := enlarge_only no_link (links s) new_vsize;
            btab := enlarge_zero (btab s) new_vsize;
            gtab := enlarge_zero (gtab s) new_vsize;
            stab := enlarge_zero (stab s) new_vsize;
            ptab := enlarge_init (ptab s) (to_size_t (2 * new_vsize)) (-1);
            ftab := enlarge_only no_flags (ftab s) new_vsize;
            relevanttab :=
              if external s then enlarge_zero (relevanttab s) new_vsize
              else relevanttab s;
            phases := {|
              saved := enlarge_init (saved (phases s)) new_vsize
                         (if phase s then 1 else -1);
              forced := enlarge_zero (forced (phases s)) new_vsize;
              target := enlarge_zero (target (phases s)) new_vsize;
              best := enlarge_zero (best (phases s)) new_vsize;
              prev := enlarge_zero (prev (phases s)) new_vsize;
              min := enlarge_zero (min (phases s)) new_vsize |};
            marks := enlarge_zero (marks s) new_vsize;
            stats_vars := stats_vars s;
            stats_unused := stats_unused s;
            stats_inactive := stats_inactive s |}
      end
  end.

(** [assert (!table[k])] for every [k] of a range: the entry has to
    exist and to be 0. *)
Definition all_zero (read : Z → option Z) (ks : list Z) : bool :=
  forallb (λ k, bool_decide (read k = Some 0)) ks.

(** The integers of [lo .. hi], both ends included. *)
Definition range (lo hi : Z) : list Z :=
  map (λ k, lo + Z.of_nat k) (seq 0 (Z.to_nat (hi + 1 - lo))).

(** The assertions of [init_vars] between [enlarge] and the assignment
    of [max_var].  The loops run over [int64_t], [unsigned] and [uint64_t]
    counters; for [0 <= max_var < new_max_var], the only case in which
    they are reached with a valid [max_var], the conversions change no
    value and the ranges are the ones below. *)
Definition fresh_entries_clear (new_max_var : Z) (s : t) : bool :=
  all_zero (val_at s) (range (- new_max_var) (- max_var s - 1)) &&
  all_zero (val_at s) (range (max_var s + 1) new_max_var) &&
  all_zero (λ k, btab s !! Z.to_nat k) (range (max_var s + 1) new_max_var) &&
  all_zero (λ k, gtab s !! Z.to_nat k) (range (max_var s + 1) new_max_var) &&
  forallb (λ k, bool_decide (ptab s !! Z.to_nat k = Some (-1)))
          (range (2 * (max_var s + 1)) (2 * new_max_var + 1)) &&
  bool_decide (btab s !! 0%nat = Some 0).

(** [init_queue] and [init_scores] are declared outside this file; they
    may change any member. *)
Variable init_queue : Z → Z → t → t.
Variable init_scores : Z → Z → t → t.

(** The assignment of [max_var]. *)
Definition set_max_var (new_max_var : Z) (s : t) : t :=
  {| vsize := vsize s; max_var := new_max_var; vals := vals s;
     lrat := lrat s; frat := frat s; external := external s;
     phase := phase s; unit_clauses_idx := unit_clauses_idx s;
     wtab := wtab s; vtab := vtab s; parents := parents s;
     links := links s; btab := btab s; gtab := gtab s; stab := stab s;
     ptab := ptab s; ftab := ftab s; relevanttab := relevanttab s;
     phases := phases s; marks := marks s;
     stats_vars := stats_vars s; stats_unused := stats_unused s;
     stats_inactive := stats_inactive s |}.

(** The three counters of [stats] raised by [initialized]. *)
Definition count_initialized (initialized : Z) (s : t) : t :=
  {| vsize := vsize s; max_var := max_var s; vals := vals s;
     lrat := lrat s; frat := frat s; external := external s;
     phase := phase s; unit_clauses_idx := unit_clauses_idx s;
     wtab := wtab s; vtab := vtab s; parents := parents s;
     links := links s; btab := btab s; gtab := gtab s; stab := stab s;
     ptab := ptab s; ftab := ftab s; relevanttab := relevanttab s;
     phases := phases s; marks := marks s;
     stats_vars := stats_vars s + initialized;
     stats_unused := stats_unused s + initialized;
     stats_inactive := stats_inactive s + initialized |}.

(** [init_vars] up to the assignment of [max_var]: the early return is
    [inl], the state handed on to [init_queue] is [inr]. *)
Definition init_vars_tables (new_max_var : Z) (s : t) : option (t + t) :=
  if new_max_var <=? max_var s then Some (inl s)
  else
    match (if vsize s <=? to_size_t new_max_var
           then enlarge new_max_var s else Some s) with
    | None => None
    | Some s1 =>
        if fresh_entries_clear new_max_var s1
        then Some (inr (set_max_var new_max_var s1))
        else None
    end.

(** [init_vars]: [initialized] is added to the counters as the two
    collaborators left them. *)
Definition init_vars (new_max_var : Z) (s : t) : option t :=
  match init_vars_tables new_max_var s with
  | None => None
  | Some (inl s') => Some s'
  | Some (inr s1) =>
      let old_max_var := max_var s in
      let s2 := init_scores old_max_var new_max_var
                  (init_queue old_max_var new_max_var s1) in
      Some (count_initialized (new_max_var - old_max_var) s2)
  end.

End TableModel.
Arguments t : clear implicits.
End Tables.

(** ** Local search: [local_search_round] *)

(** The members that [local_search_round] reads and writes, next to the
    rest of the solver that [walk_round] works on. *)
Record Walker (R : Type) := {
  walker_unsat : bool;
  walker_max_var : Z;
  localsearching : bool;
  walkmineff : Z;
  walker_rest : R
}.
Arguments walker_unsat {R} _.
Arguments walker_max_var {R} _.
Arguments localsearching {R} _.
Arguments walkmineff {R} _.
Arguments walker_rest {R} _.

(** The assignment to [localsearching]. *)
Definition set_localsearching {R} (b : bool) (s : Walker R) : Walker R :=
  {| walker_unsat := walker_unsat s; walker_max_var := walker_max_var s;
     localsearching := b; walkmineff := walkmineff s;
     walker_rest := walker_rest s |}.

(** The propagation limit of a round: [opts.walkmineff] scaled by the
    square of the round, capped at [LONG_MAX].  The quotient is the
    truncating division of the source. *)
Definition walk_limit (LONG_MAX mineff round : Z) : Z :=
  let limit := mineff in
  let limit := limit * round in
  if limit <? LONG_MAX ÷ round then limit * round else LONG_MAX.

Section LocalSearchModel.
Context {R : Type}.

(** [walk_round] is declared outside this file; [LONG_MAX] is the
    platform's. *)
Variable walk_round : Z → bool → Walker R → Z * Walker R.
Variable LONG_MAX : Z.

(** [local_search_round]: [None] is a failed [assert]. *)
Definition local_search_round (round : Z) (s : Walker R)
    : option (Z * Walker R) :=
  if negb (0 <? round) then None
  else if walker_unsat s then Some (0, s)
  else if walker_max_var s =? 0 then Some (0, s)
  else if localsearching s then None
  else
    let s := set_localsearching true s in
    let limit := walk_limit LONG_MAX (walkmineff s) round in
    let '(res, s) := walk_round limit true s in
    if localsearching s then Some (res, set_localsearching false s)
    else None.

End LocalSearchModel.

(** ** A reference implementation of the collaborators

    The assignment and trail, [propagate], [analyze], [backtrack] and
    [search_assume_decision] are outside this file.  [Toy] implements
    their contracts of section 6 of the specification in the simplest way:
    unit propagation to fixpoint over the clause list, and a conflict
    analysis that learns the negation of the current decisions and
    backtracks one level (the root level sets [unsat]).  It is the instance
    on which the embedding is run. *)

(** Modelled from the spec: an entry of the trail, the assigned literal
    with its decision level and whether it is a decision. *)
Record TrailEntry := {
  te_lit : Z;
  te_level : nat;
  te_decision : bool
}.

(** Modelled from the spec: the solver state, with the trail newest
    first and the decision counter. *)
Record Toy := {
  toy_max_var : Z;
  toy_clauses : list Clause;
  toy_proof : bool;
  toy_unsat : bool;
  toy_level : nat;
  toy_trail : list TrailEntry;
  toy_decisions : Z
}.

(** Modelled from the spec: the trail entry of the variable of [lit]. *)
Definition toy_entry (s : Toy) (lit : Z) : option TrailEntry :=
  List.find (λ e, Z.abs (te_lit e) =? Z.abs lit) (toy_trail s).

(** Modelled from the spec: [val], 1, -1 or 0 with
    [val (lit) = - val (- lit)]. *)
Definition toy_val (s : Toy) (lit : Z) : Z :=
  match toy_entry s lit with
  | Some e => if te_lit e =? lit then 1 else -1
  | None => 0
  end.

(** Modelled from the spec: [flags]; a variable is FIXED once it is
    assigned at the root level. *)
Definition toy_flags (s : Toy) (lit : Z) : Status :=
  match toy_entry s lit with
  | Some e => if (te_level e =? 0)%nat then FIXED else ACTIVE
  | None => ACTIVE
  end.

(** Modelled from the spec: [active], a variable that is not fixed. *)
Definition toy_active (s : Toy) (lit : Z) : bool :=
  negb (is_fixed (toy_flags s lit)).

(** Modelled from the spec: [is_decision]. *)
Definition toy_is_decision (s : Toy) (lit : Z) : bool :=
  match toy_entry s lit with
  | Some e => te_decision e
  | None => false
  end.

(** Modelled from the spec: [var (lit).level]. *)
Definition toy_var_level (s : Toy) (lit : Z) : Z :=
  match toy_entry s lit with
  | Some e => Z.of_nat (te_level e)
  | None => 0
  end.

(** Modelled from the spec: [watches], the clauses of two or more
    literals that have [lit] among their first two. *)
Definition toy_watches (s : Toy) (lit : Z) : list Clause :=
  filter (λ c, garbage c = false ∧ (2 ≤ length (literals c))%nat ∧
               lit ∈ take 2 (literals c))
         (toy_clauses s).

(** Modelled from the spec: the state with another level and trail. *)
Definition toy_with_trail (s : Toy) (lv : nat) (tr : list TrailEntry)
    : Toy :=
  {| toy_max_var := toy_max_var s; toy_clauses := toy_clauses s;
     toy_proof := toy_proof s; toy_unsat := toy_unsat s;
     toy_level := lv; toy_trail := tr;
     toy_decisions := toy_decisions s |}.

(** Modelled from the spec: a literal pushed on the trail at the current
    level. *)
Definition toy_assign (lit : Z) (decision : bool) (s : Toy) : Toy :=
  toy_with_trail s (toy_level s)
    ({| te_lit := lit; te_level := toy_level s; te_decision := decision |}
       :: toy_trail s).

(** Modelled from the spec: what one clause tells the propagator. *)
Inductive ClauseState := Satisfied | Conflicting | Unit (lit : Z) | Open.

(** Modelled from the spec: a clause is satisfied, falsified, unit or
    neither under the current assignment. *)
Definition clause_state (s : Toy) (c : Clause) : ClauseState :=
  if existsb (λ l, 0 <? toy_val s l) (literals c) then Satisfied
  else match filter (λ l, toy_val s l = 0) (literals c) with
       | [] => Conflicting
       | [l] => Unit l
       | _ => Open
       end.

(** Modelled from the spec: the first falsified or unit clause, in
    clause order, garbage clauses skipped. *)
Fixpoint toy_scan (s : Toy) (cs : list Clause) : ClauseState :=
  match cs with
  | [] => Open
  | c :: rest =>
      if garbage c then toy_scan s rest
      else match clause_state s c with
           | Conflicting => Conflicting
           | Unit l => Unit l
           | _ => toy_scan s rest
           end
  end.

(** Modelled from the spec: unit propagation; every round assigns a new
    variable, so the number of literal occurrences bounds the rounds. *)
Fixpoint toy_propagate_fuel (fuel : nat) (s : Toy) : bool * Toy :=
  match fuel with
  | O => (true, s)
  | S fuel' =>
      match toy_scan s (toy_clauses s) with
      | Conflicting => (false, s)
      | Unit l => toy_propagate_fuel fuel' (toy_assign l false s)
      | _ => (true, s)
      end
  end.

(** Modelled from the spec: [propagate], to fixpoint, false iff a clause
    is falsified. *)
Definition toy_propagate (s : Toy) : bool * Toy :=
  toy_propagate_fuel (length (concat (map literals (toy_clauses s))) + 1) s.

(** Modelled from the spec: [backtrack], the trail cut back to the given
    level. *)
Definition toy_backtrack (new_level : Z) (s : Toy) : Toy :=
  let l := Nat.min (Z.to_nat new_level) (toy_level s) in
  toy_with_trail s l
    (filter (λ e, (te_level e ≤ l)%nat) (toy_trail s)).

(** Modelled from the spec: [search_assume_decision], a new decision
    level with [lit] assigned as its decision. *)
Definition toy_search_assume_decision (lit : Z) (s : Toy) : Toy :=
  let s' :=
    {| toy_max_var := toy_max_var s; toy_clauses := toy_clauses s;
       toy_proof := toy_proof s; toy_unsat := toy_unsat s;
       toy_level := S (toy_level s); toy_trail := toy_trail s;
       toy_decisions := toy_decisions s + 1 |} in
  toy_assign lit true s'.

(** Modelled from the spec: a clause appended to the database. *)
Definition toy_add_clause (c : Clause) (s : Toy) : Toy :=
  {| toy_max_var := toy_max_var s; toy_clauses := toy_clauses s ++ [c];
     toy_proof := toy_proof s; toy_unsat := toy_unsat s;
     toy_level := toy_level s; toy_trail := toy_trail s;
     toy_decisions := toy_decisions s |}.

(** Modelled from the spec: the persistent [unsat] flag set. *)
Definition toy_set_unsat (s : Toy) : Toy :=
  {| toy_max_var := toy_max_var s; toy_clauses := toy_clauses s;
     toy_proof := toy_proof s; toy_unsat := true;
     toy_level := toy_level s; toy_trail := toy_trail s;
     toy_decisions := toy_decisions s |}.

(** Modelled from the spec: [analyze]; at the root level the formula is
    unsatisfiable, above it the negation of the decisions is learned and
    the solver backtracks one level. *)
Definition toy_analyze (s : Toy) : Toy :=
  match toy_level s with
  | O => toy_set_unsat s
  | S l =>
      let learned :=
        map (λ e, - te_lit e) (filter (λ e, te_decision e = true)
                                      (toy_trail s)) in
      toy_backtrack (Z.of_nat l)
        (toy_add_clause {| literals := learned; redundant := true;
                           garbage := false |} s)
  end.

(** Modelled from the spec: [new_learned_weak_irredundant_global_clause],
    the clause inserted as a redundant one. *)
Definition toy_new_learned (clause : list Z) (lit : Z)
    (negated_conditional autarky : list Z) (s : Toy) : Toy :=
  toy_add_clause {| literals := clause; redundant := true;
                    garbage := false |} s.

(** Modelled from the spec: [assign_original_unit_gbc], the literal
    assigned as a root-level fact. *)
Definition toy_assign_unit (lit : Z) (autarky : list Z) (s : Toy) : Toy :=
  toy_with_trail s (toy_level s)
    (filter (λ e, Z.abs (te_lit e) ≠ Z.abs lit) (toy_trail s)
       ++ [{| te_lit := lit; te_level := 0; te_decision := false |}]).

(** Modelled from the spec: the collaborators of the reference solver;
    the shuffle keeps the order and [rand] hands out the decision
    counter. *)
#[global] Instance toy_collaborators : Collaborators Toy := {|
  ext_max_var := toy_max_var;
  ext_clauses := toy_clauses;
  ext_proof := toy_proof;
  ext_unsat := toy_unsat;
  ext_level := λ s, Z.of_nat (toy_level s);
  ext_val := toy_val;
  ext_flags := toy_flags;
  ext_active := toy_active;
  ext_is_decision := toy_is_decision;
  ext_var_level := toy_var_level;
  ext_watches := toy_watches;
  ext_propagate := toy_propagate;
  ext_analyze := toy_analyze;
  ext_backtrack := toy_backtrack;
  ext_search_assume_decision := toy_search_assume_decision;
  ext_new_learned_weak_irredundant_global_clause := toy_new_learned;
  ext_assign_original_unit_gbc := toy_assign_unit;
  ext_shuffle := λ l s, (l, s);
  ext_rand := λ s, (toy_decisions s, s)
|}.

(** A formula as the solver holds it before the first call: nothing
    assigned, nothing learned. *)
Definition toy_init (mv : Z) (cs : list (list Z)) : Toy :=
  {| toy_max_var := mv;
     toy_clauses := map (λ l, {| literals := l; redundant := false;
                                 garbage := false |}) cs;
     toy_proof := false; toy_unsat := false; toy_level := 0;
     toy_trail := []; toy_decisions := 0 |}.

(** A configuration: ascending candidate order, the binary-clause shrink
    strategy, learning and recording on, no triviality filter. *)
Definition default_options : Options :=
  {| subsumeint := 10000; elimint := 2000; elimboundmin := 0;
     compactint := 2000; probeint := 5000; conditionint := 10000;
     reduceint := 300; flushint := 100000; rephaseint := 1000;
     restartint := 2; opt_stabilize := true; stabilizeonly := false;
     stabilizeint := 1000; reluctant := 1024; reluctantmax := 1048576;
     globalpreprocess := true; globalchessheur := false;
     globaltouch := true; globalisort := false; globalorderi := true;
     globalbothpol := false; globaltimelim := 1000000;
     globalalphaasort := false; globalalphaarandom := false;
     globalalphaagreedy := false; globalbcp := true;
     globalnoshrink := false; globalmaxclause := 10;
     globalfiltertriv := false; globallearn := true;
     globalrecord := true; globalmaxlen := 100 |}.

(** [Internal] around a solver state, with the mark bitset sized and
    cleared and nothing written to the streams; the clock reads 0 first
    and is one tick further at every reading after that. *)
Definition internal_init (o : Options) (s : Toy) : Internal Toy :=
  {| solver := s; opts := o;
     globalmarks := replicate (Z.to_nat (2 * toy_max_var s + 1)) false;
     global_try := []; outFile := []; outFile_pr := [];
     clock := Z.of_nat |}.

(** ** Inputs used by the examples *)

(** An incremental call: the limits were initialised by an earlier call,
    seven conflicts have been seen since. *)
Definition incremental_state : LimitState :=
  {| lim := {| initialized := true; subsume := 100; elim := 100;
               elimbound := 0; compact := 100; probe := 100;
               condition := 100; lim_preprocessing := 0; reduce := 100;
               flush := 100; rephase := 100; rephased := (0, 0);
               restart := 2; stabilize := 100; lim_conflicts := -1;
               lim_decisions := -1; lim_localsearch := 0 |};
     inc := {| inc_flush := 100; inc_stabilize := 1000; inc_conflicts := -1;
               inc_decisions := -1; inc_preprocessing := 0;
               inc_localsearch := 0 |};
     last := {| last_elim_marked := 0; last_ternary_marked := 0;
                last_reduce_conflicts := 0 |};
     stats_conflicts := 7; stats_decisions := 9; stable := false;
     averages := {| averages_initialized := true; averages_swaps := 0 |};
     reluctant_state := ReluctantDisabled |}.

(** Split an equation between tuples into its components. *)
Ltac split_pairs H :=
  repeat match type of H with
         | (_, _) = (_, _) =>
             let H' := fresh H in
             apply pair_equal_spec in H as [H H']
         end.

(** The seven limits of the claim, the initialisation flag and the
    conflict count. *)
Definition limits_view (s : LimitState) : Z * Z * Z * Z * Z * Z * Z * bool * Z :=
  (subsume (lim s), elim (lim s), probe (lim s), condition (lim s),
   reduce (lim s), restart (lim s), stabilize (lim s),
   initialized (lim s), stats_conflicts s).

(** What the set-cover selections promise for a result
    [(chosen, residual)]: the residual lies within the negated conditional
    part, and the chosen coverage sets add up to the rest of it. *)
Definition cover_complete (subsets : list (gset Z)) (neg_alpha_c : list Z)
    (chosen : list nat) (residual : list Z) : Prop :=
  list_to_set residual ⊆@{gset Z} list_to_set neg_alpha_c ∧
  chosen_union subsets chosen =
    list_to_set neg_alpha_c ∖ list_to_set residual.

(** An assignment that makes exactly the literals of [ls] false. *)
Definition falsifies (ls : list Z) (l : Z) : Z :=
  if bool_decide (l ∈ ls) then -1 else 0.

(** ** The triviality check, in the words of the specification

    [conflict_by_assumptions] follows the claim as stated: the negation of
    each literal is assumed in turn, literals already assigned (true or
    false) are skipped, and the answer is whether a propagation conflict is
    met. *)
Fixpoint conflict_by_assumptions {St} `{Collaborators St} (s : St)
    (c : list Z) : bool :=
  match c with
  | [] => false
  | lit :: rest =>
      if negb (ext_val s lit =? 0) then conflict_by_assumptions s rest
      else
        let '(ok, s') :=
          ext_propagate (ext_search_assume_decision (- lit) s) in
        if ok : bool then conflict_by_assumptions s' rest else true
  end.

(** [trivial_by_assumptions] is the amended reading: a literal found true
    ends the check with a positive answer, a literal found false is
    skipped. *)
Fixpoint trivial_by_assumptions {St} `{Collaborators St} (s : St)
    (c : list Z) : bool :=
  match c with
  | [] => false
  | lit :: rest =>
      if 0 <? ext_val s lit then true
      else if ext_val s lit <? 0 then trivial_by_assumptions s rest
      else
        let '(ok, s') :=
          ext_propagate (ext_search_assume_decision (- lit) s) in
        if ok : bool then trivial_by_assumptions s' rest else true
  end.

(** A computation that leaves the mark bitset, the options and the
    schedule batch as it found them. *)
Definition Frame {St A} (m : M St A) : Prop :=
  ∀ i a i', m i = Some (a, i') →
    globalmarks i' = globalmarks i ∧ opts i' = opts i ∧
    global_try i' = global_try i ∧ outFile i `prefix_of` outFile i'.


(** Every bit of the mark bitset is unset. *)
Definition all_clear (marks : list bool) : Prop :=
  Forall (λ b, b = false) marks.

(** The options of the global preprocessor set one by one, the others as
    in [default_options]. *)
Definition global_options (chessheur alphaagreedy bcp filtertriv learn
    record : bool) (maxclause maxlen timelim : Z) : Options :=
  {| subsumeint := 10000; elimint := 2000; elimboundmin := 0;
     compactint := 2000; probeint := 5000; conditionint := 10000;
     reduceint := 300; flushint := 100000; rephaseint := 1000;
     restartint := 2; opt_stabilize := true; stabilizeonly := false;
     stabilizeint := 1000; reluctant := 1024; reluctantmax := 1048576;
     globalpreprocess := true; globalchessheur := chessheur;
     globaltouch := true; globalisort := false; globalorderi := true;
     globalbothpol := false; globaltimelim := timelim;
     globalalphaasort := false; globalalphaarandom := false;
     globalalphaagreedy := alphaagreedy; globalbcp := bcp;
     globalnoshrink := false; globalmaxclause := maxclause;
     globalfiltertriv := filtertriv; globallearn := learn;
     globalrecord := record; globalmaxlen := maxlen |}.

(** The state a computation ends in ([i] itself when it has no result). *)
Definition state_after {St A} (m : M St A) (i : Internal St) : Internal St :=
  match m i with Some (_, i') => i' | None => i end.

(** The probe of a single literal: assume it at the root and propagate. *)
Definition probe_literal (lit : Z) : M Toy unit :=
  backtrack 0;; search_assume_decision lit;; _ ← propagate; mret tt.

(** Five variables; assuming [1] makes [2] true and [3] false, which
    leaves the last clause unsatisfied with [3] false in it. *)
Definition linked_formula : Toy :=
  toy_init 5 [[-1; 2]; [-1; -3]; [2; -3]; [3; 4; 5]].

(** The state after the probe of [1] on [linked_formula]. *)
Definition linked_probe (o : Options) : Internal Toy :=
  state_after (probe_literal 1) (internal_init o linked_formula).




(** The scenario of the specification with two variables that forces
    [2]. *)
Definition two_variable_formula : Toy :=
  toy_init 2 [[1; 2]; [-1; 2]; [1; -2]].

(** A formula over the 180 variables of the chessboard schedule. *)
Definition board_formula : Toy :=
  toy_init 180 [[1; 2]; [-1; 3]].

(** Two variables and the single clause [1 ∨ 2]. *)
Definition disjunction_state : Internal Toy :=
  internal_init default_options (toy_init 2 [[1; 2]]).

(** ** Notions used by the further properties *)

(** The budgets and round limits with the increments and counters they
    are computed from. *)
Definition budget_view (s : LimitState)
    : Z * Z * Z * Z * (Z * Z * Z * Z) * (Z * Z) :=
  (lim_conflicts (lim s), lim_decisions (lim s), lim_localsearch (lim s),
   lim_preprocessing (lim s),
   (inc_conflicts (inc s), inc_decisions (inc s), inc_localsearch (inc s),
    inc_preprocessing (inc s)),
   (stats_conflicts s, stats_decisions s)).

(** A literal whose bit lies within the bitset. *)
Definition bit_in_range (mv : Z) (marks : list bool) (lit : Z) : Prop :=
  0 ≤ lit + mv < Z.of_nat (length marks).

(** A computation that keeps a property of the state. *)
Definition Keeps {St A} (P : Internal St → Prop) (m : M St A) : Prop :=
  ∀ i a i', m i = Some (a, i') → P i → P i'.

(** A property of the state that looks neither at the solver nor at the
    clock. *)
Definition solver_blind {St} (P : Internal St → Prop) : Prop :=
  ∀ i s c, P i →
    P {| solver := s; opts := opts i; globalmarks := globalmarks i;
         global_try := global_try i; outFile := outFile i;
         outFile_pr := outFile_pr i; clock := c |}.

(** What a loop body hands back with [return]: status 20, and only with
    the unsat flag set. *)
Definition status_ok {St} `{Collaborators St} (r : Flow) (i : Internal St)
    : Prop :=
  ∀ res, r = Return res → res = 20 ∧ ext_unsat (solver i) = true.

(** The invariant of the tables that [init_vars] asserts and keeps: the
    sizes fit, and the entries of the variables beyond [max_var] are
    still in their initial state. *)
Definition tables_ok {W V L F} (s : Tables.t W V L F) : Prop :=
  0 ≤ Tables.max_var s < 2 ^ 31 ∧
  0 ≤ Tables.vsize s ≤ 2 * Tables.max_var s + 1 ∧
  match Tables.vals s with
  | Some block => Z.of_nat (length block) = 2 * Tables.vsize s ∧
                  Tables.max_var s < Tables.vsize s
  | None => Tables.vsize s = 0
  end ∧
  Tables.vsize s ≤ Z.of_nat (length (Tables.btab s)) ∧
  Tables.vsize s ≤ Z.of_nat (length (Tables.gtab s)) ∧
  2 * Tables.vsize s ≤ Z.of_nat (length (Tables.ptab s)) ∧
  (∀ k, Tables.max_var s < Z.abs k →
        - Tables.vsize s ≤ k < Tables.vsize s →
        Tables.val_at s k = Some 0) ∧
  (∀ k : nat, Tables.max_var s < Z.of_nat k →
        (k < length (Tables.btab s))%nat → Tables.btab s !! k = Some 0) ∧
  (∀ k : nat, Tables.max_var s < Z.of_nat k →
        (k < length (Tables.gtab s))%nat → Tables.gtab s !! k = Some 0) ∧
  (∀ k : nat, 2 * Tables.max_var s + 1 < Z.of_nat k →
        (k < length (Tables.ptab s))%nat →
        Tables.ptab s !! k = Some (-1)) ∧
  (Tables.btab s !! 0%nat = Some 0 ∨ Tables.btab s = []).

(** Every table of [s] is the beginning of its counterpart in [s']. *)
Definition tables_extend {W V L F} (s s' : Tables.t W V L F) : Prop :=
  Tables.unit_clauses_idx s `prefix_of` Tables.unit_clauses_idx s' ∧
  Tables.wtab s `prefix_of` Tables.wtab s' ∧
  Tables.vtab s `prefix_of` Tables.vtab s' ∧
  Tables.parents s `prefix_of` Tables.parents s' ∧
  Tables.links s `prefix_of` Tables.links s' ∧
  Tables.btab s `prefix_of` Tables.btab s' ∧
  Tables.gtab s `prefix_of` Tables.gtab s' ∧
  Tables.stab s `prefix_of` Tables.stab s' ∧
  Tables.ptab s `prefix_of` Tables.ptab s' ∧
  Tables.ftab s `prefix_of` Tables.ftab s' ∧
  Tables.relevanttab s `prefix_of` Tables.relevanttab s' ∧
  Tables.saved (Tables.phases s) `prefix_of` Tables.saved (Tables.phases s') ∧
  Tables.forced (Tables.phases s)
    `prefix_of` Tables.forced (Tables.phases s') ∧
  Tables.target (Tables.phases s)
    `prefix_of` Tables.target (Tables.phases s') ∧
  Tables.best (Tables.phases s) `prefix_of` Tables.best (Tables.phases s') ∧
  Tables.prev (Tables.phases s) `prefix_of` Tables.prev (Tables.phases s') ∧
  Tables.min (Tables.phases s) `prefix_of` Tables.min (Tables.phases s') ∧
  Tables.marks s `prefix_of` Tables.marks s'.

(** Every table that is indexed by a variable has [vsize] entries, every
    table that is indexed by a literal twice as many. *)
Definition tables_sized {W V L F} (s : Tables.t W V L F) : Prop :=
  let n := Tables.vsize s in
  (Tables.lrat s || Tables.frat s = true →
   2 * n ≤ Z.of_nat (length (Tables.unit_clauses_idx s))) ∧
  2 * n ≤ Z.of_nat (length (Tables.wtab s)) ∧
  n ≤ Z.of_nat (length (Tables.vtab s)) ∧
  n ≤ Z.of_nat (length (Tables.parents s)) ∧
  n ≤ Z.of_nat (length (Tables.links s)) ∧
  n ≤ Z.of_nat (length (Tables.btab s)) ∧
  n ≤ Z.of_nat (length (Tables.gtab s)) ∧
  n ≤ Z.of_nat (length (Tables.stab s)) ∧
  2 * n ≤ Z.of_nat (length (Tables.ptab s)) ∧
  n ≤ Z.of_nat (length (Tables.ftab s)) ∧
  (Tables.external s = true →
   n ≤ Z.of_nat (length (Tables.relevanttab s))) ∧
  n ≤ Z.of_nat (length (Tables.saved (Tables.phases s))) ∧
  n ≤ Z.of_nat (length (Tables.forced (Tables.phases s))) ∧
  n ≤ Z.of_nat (length (Tables.target (Tables.phases s))) ∧
  n ≤ Z.of_nat (length (Tables.best (Tables.phases s))) ∧
  n ≤ Z.of_nat (length (Tables.prev (Tables.phases s))) ∧
  n ≤ Z.of_nat (length (Tables.min (Tables.phases s))) ∧
  n ≤ Z.of_nat (length (Tables.marks s)) ∧
  match Tables.vals s with
  | Some block => Z.of_nat (length block) = 2 * n
  | None => False
  end.

(** ** Further inputs used by the examples *)

(** The options of [default_options] with the implication sort of the
    antecedents switched on. *)
Definition sorting_options : Options :=
  {| subsumeint := 10000; elimint := 2000; elimboundmin := 0;
     compactint := 2000; probeint := 5000; conditionint := 10000;
     reduceint := 300; flushint := 100000; rephaseint := 1000;
     restartint := 2; opt_stabilize := true; stabilizeonly := false;
     stabilizeint := 1000; reluctant := 1024; reluctantmax := 1048576;
     globalpreprocess := true; globalchessheur := false;
     globaltouch := true; globalisort := false; globalorderi := true;
     globalbothpol := false; globaltimelim := 1000000;
     globalalphaasort := true; globalalphaarandom := false;
     globalalphaagreedy := false; globalbcp := true;
     globalnoshrink := false; globalmaxclause := 10;
     globalfiltertriv := false; globallearn := true;
     globalrecord := true; globalmaxlen := 100 |}.

(** A literal decided at the root without propagation. *)
Definition decide_literal (lit : Z) : M Toy unit :=
  backtrack 0;; search_assume_decision lit.

(** Two variables and the four clauses over them: every assignment
    falsifies one. *)
Definition core_formula : Toy :=
  toy_init 2 [[1; 2]; [1; -2]; [-1; 2]; [-1; -2]].

(** The state after [1] is decided on [core_formula], before
    propagation. *)
Definition core_decided (o : Options) : Internal Toy :=
  state_after (decide_literal 1) (internal_init o core_formula).

(** The schedule batch [2] handed on after the probe of [1] on
    [linked_formula]. *)
Definition linked_scheduled (o : Options) : Internal Toy :=
  state_after (set_global_try [2]) (linked_probe o).

(** The tables of a solver with two variables in four slots: [1] is
    false, [2] is true, both have been bumped. *)
Definition two_var_tables : Tables.t unit unit unit unit :=
  {| Tables.vsize := 4; Tables.max_var := 2;
     Tables.vals := Some [0; 0; -1; 1; 0; -1; 1; 0];
     Tables.lrat := false; Tables.frat := false; Tables.external := false;
     Tables.phase := true;
     Tables.unit_clauses_idx := [];
     Tables.wtab := replicate 8 tt;
     Tables.vtab := replicate 4 tt;
     Tables.parents := [0; 0; 0; 0];
     Tables.links := replicate 4 tt;
     Tables.btab := [0; 5; 7; 0];
     Tables.gtab := [0; 0; 0; 0];
     Tables.stab := [0; 0; 0; 0];
     Tables.ptab := [-1; -1; 3; -1; 4; -1; -1; -1];
     Tables.ftab := replicate 4 tt;
     Tables.relevanttab := [];
     Tables.phases := {| Tables.saved := [1; 1; 1; 1];
                         Tables.forced := [0; 0; 0; 0];
                         Tables.target := [0; 0; 0; 0];
                         Tables.best := [0; 0; 0; 0];
                         Tables.prev := [0; 0; 0; 0];
                         Tables.min := [0; 0; 0; 0] |};
     Tables.marks := [0; 0; 0; 0];
     Tables.stats_vars := 2; Tables.stats_unused := 0;
     Tables.stats_inactive := 0 |}.

(** A solver with three variables that is not searching locally. *)
Definition idle_walker : Walker unit :=
  {| walker_unsat := false; walker_max_var := 3; localsearching := false;
     walkmineff := 20; walker_rest := tt |}.

(** A [walk_round] that gives up at once. *)
Definition idle_walk_round (limit : Z) (prop : bool) (s : Walker unit)
    : Z * Walker unit :=
  (0, s).

(* ===================================================================== *)
(** * Part II: the properties                                             *)
(* ===================================================================== *)

#[local] Set Warnings "-clear-no-such-hyp".

(** ** The limit manager *)

(** C4, as stated, fails: on an incremental call (limits already
    initialised) [init_search_limits] does not keep the restart and the
    stabilize limit; it sets them again from the current conflict count. *)
Lemma incremental_call_resets_restart_and_stabilize :
  initialized (lim incremental_state) = true ∧
  ∃ s', init_limits (λ v, v) default_options incremental_state = Some s' ∧
        restart (lim s') ≠ restart (lim incremental_state) ∧
        stabilize (lim s') ≠ stabilize (lim incremental_state).
Proof.
  split; [reflexivity|].
  eexists; split; [vm_compute; reflexivity|].
  split; vm_compute; congruence.
Qed.

(** What each stage of the two functions does to the limits of the
    claim. *)
Lemma preprocessing_limits_view (scale : Z → Z) (o : Options) (s : LimitState) :
  limits_view (init_preprocessing_limits scale o s) =
  if initialized (lim s) then limits_view s
  else (stats_conflicts s + scale (subsumeint o),
        stats_conflicts s + scale (elimint o),
        stats_conflicts s + probeint o,
        stats_conflicts s + conditionint o,
        reduce (lim s), restart (lim s), stabilize (lim s),
        false, stats_conflicts s).
Proof.
  destruct s as [l i la c d st av r];
    destruct l as [ini ? ? ? ? ? ? ? ? ? ? ? ? ? ? ? ?].
  destruct ini; lazy -[Z.add]; reflexivity.
Qed.

Lemma before_mode_view (o : Options) (s : LimitState) :
  limits_view (search_limits_before_mode o s) =
  (subsume (lim s), elim (lim s), probe (lim s), condition (lim s),
   (if initialized (lim s) then reduce (lim s)
    else stats_conflicts s + reduceint o),
   stats_conflicts s + restartint o, stabilize (lim s),
   initialized (lim s), stats_conflicts s).
Proof.
  destruct s as [l i la c d st av r];
    destruct l as [ini ? ? ? ? ? ? ? ? ? ? ? ? ? ? ? ?].
  destruct ini; lazy -[Z.add]; reflexivity.
Qed.

Lemma after_mode_view (o : Options) (s : LimitState) :
  limits_view (search_limits_after_mode o s) =
  (subsume (lim s), elim (lim s), probe (lim s), condition (lim s),
   reduce (lim s), restart (lim s), stats_conflicts s + stabilizeint o,
   true, stats_conflicts s).
Proof.
  destruct s as [l i la c d st av r];
    destruct l as [ini ? ? ? ? ? ? ? ? ? ? ? ? ? ? ? ?].
  lazy -[Z.add]; reflexivity.
Qed.

(** The mode block touches neither the limits nor the counters. *)
Lemma init_stable_view (o : Options) (b : bool) (s s1 : LimitState) :
  init_stable o b s = Some s1 → limits_view s1 = limits_view s.
Proof.
  unfold init_stable.
  destruct (negb b); [intros [= <-]; done|].
  destruct (opt_stabilize o && stabilizeonly o), (stable s);
    intros [= <-]; done.
Qed.

(** On a first call the mode block always succeeds. *)
Lemma init_stable_first (o : Options) (s : LimitState) :
  ∃ s1, init_stable o false s = Some s1.
Proof. unfold init_stable; simpl; eauto. Qed.

(** C4, amended: subsume, elim, probe, condition and reduce are set to the
    current conflict count plus their interval (the subsume and elim
    intervals scaled by [scale]) on the first call only and are kept on
    every incremental call; restart and stabilize are set to the current
    conflict count plus their interval on every call, first or
    incremental. *)
Theorem limits_first_call_and_incremental
    (scale : Z → Z) (o : Options) (s : LimitState) :
  (initialized (lim s) = false →
   ∃ s', init_limits scale o s = Some s') ∧
  ∀ s', init_limits scale o s = Some s' →
    (if initialized (lim s) then
       subsume (lim s') = subsume (lim s) ∧
       elim (lim s') = elim (lim s) ∧
       probe (lim s') = probe (lim s) ∧
       condition (lim s') = condition (lim s) ∧
       reduce (lim s') = reduce (lim s)
     else
       subsume (lim s') = stats_conflicts s + scale (subsumeint o) ∧
       elim (lim s') = stats_conflicts s + scale (elimint o) ∧
       probe (lim s') = stats_conflicts s + probeint o ∧
       condition (lim s') = stats_conflicts s + conditionint o ∧
       reduce (lim s') = stats_conflicts s + reduceint o) ∧
    restart (lim s') = stats_conflicts s + restartint o ∧
    stabilize (lim s') = stats_conflicts s + stabilizeint o ∧
    initialized (lim s') = true.
Proof.
  unfold init_limits, init_search_limits.
  pose proof (preprocessing_limits_view scale o s) as Hp.
  set (p := init_preprocessing_limits scale o s) in *.
  pose proof (before_mode_view o p) as Hb.
  set (q := search_limits_before_mode o p) in *.
  clearbody q p.
  assert (Hini : initialized (lim p) = initialized (lim s)).
  { unfold limits_view in Hp.
    destruct (initialized (lim s)); split_pairs Hp; congruence. }
  rewrite Hini. split.
  - intros ->. destruct (init_stable_first o q) as [s1 ->]. eauto.
  - intros s'.
    destruct (init_stable o (initialized (lim s)) q) as [s1|] eqn:Hst;
      [|discriminate].
    intros [= <-]. apply init_stable_view in Hst.
    pose proof (after_mode_view o s1) as Ha.
    rewrite Hini in Hb.
    unfold limits_view in *.
    destruct (initialized (lim s));
      split_pairs Hp; split_pairs Hb; split_pairs Ha; split_pairs Hst;
      repeat split; congruence.
Qed.

(** The amended C4 on the incremental call of [incremental_state]: the
    subsume limit is kept and the restart limit is set anew. *)
Lemma limits_first_call_and_incremental_witness :
  ∃ s', init_limits (λ v, v) default_options incremental_state = Some s' ∧
        subsume (lim s') = subsume (lim incremental_state) ∧
        restart (lim s') = 7 + 2.
Proof.
  destruct (limits_first_call_and_incremental (λ v, v) default_options
              incremental_state) as [_ H].
  eexists. split; [vm_compute; reflexivity|].
  specialize (H _ ltac:(vm_compute; reflexivity)).
  simpl in H. destruct H as ((Hs & _) & Hr & _).
  split; [exact Hs|exact Hr].
Defined.


(** ** Greedy set cover *)

(** The greedy selection takes the larger coverage set first and stops
    when everything is covered. *)
Example greedySetCover_two_sets :
  greedySetCover [{[5]}; {[3; 4]}] [3; 4; 5] = Some ([1%nat; 0%nat], []).
Proof. vm_compute. reflexivity. Qed.

(** What no set covers stays in the residual. *)
Example greedySetCover_residual :
  greedySetCover [{[3]}] [3; 4] = Some ([0%nat], [4]).
Proof. vm_compute. reflexivity. Qed.

(** The best subset is the first one that adds most new elements. *)

Lemma find_best_spec subsets covered :
  ∀ i best mx k,
    find_best i subsets covered best mx = Some k →
    best = Some k ∨
    ∃ s, subsets !! (k - i)%nat = Some s ∧ (i ≤ k)%nat ∧
         (mx < new_elements covered s)%nat.
Proof.
  induction subsets as [|s rest IH]; intros i best mx k Hf; simpl in Hf.
  - by left.
  - destruct (Nat.ltb_spec mx (new_elements covered s)) as [Hlt|Hge].
    + apply IH in Hf as [Hb | (s' & Hs' & Hik & Hn)].
      * right. exists s. inversion Hb; subst.
        rewrite Nat.sub_diag. simpl. repeat split; [lia | done].
      * right. exists s'. replace (k - i)%nat with (S (k - S i)) by lia.
        simpl. repeat split; [done | lia | lia].
    + apply IH in Hf as [Hb | (s' & Hs' & Hik & Hn)].
      * by left.
      * right. exists s'. replace (k - i)%nat with (S (k - S i)) by lia.
        simpl. repeat split; [done | lia | lia].
Qed.

Lemma find_best_new subsets covered k :
  find_best 0 subsets covered None 0 = Some k →
  ∃ s, subsets !! k = Some s ∧ (0 < new_elements covered s)%nat.
Proof.
  intros Hf. apply find_best_spec in Hf as [Hb | (s & Hs & _ & Hn)].
  - discriminate.
  - exists s. by rewrite Nat.sub_0_r in Hs.
Qed.

Lemma chosen_union_snoc subsets chosen i :
  chosen_union subsets (chosen ++ [i]) =
  chosen_union subsets chosen ∪ default ∅ (subsets !! i).
Proof.
  unfold chosen_union. rewrite map_app, union_list_app_L. simpl.
  set_solver.
Qed.

Lemma lookup_subseteq_union_list (subsets : list (gset Z)) i s :
  subsets !! i = Some s → s ⊆ ⋃ subsets.
Proof.
  intros Hs x Hx. apply elem_of_union_list. exists s. split; [|done].
  by eapply list_elem_of_lookup_2.
Qed.

Lemma chosen_union_subseteq (subsets : list (gset Z)) (T : gset Z) chosen :
  Forall (λ s, s ⊆ T) subsets → chosen_union subsets chosen ⊆ T.
Proof.
  intros Hall x Hx. unfold chosen_union in Hx.
  apply elem_of_union_list in Hx as (X & HX & Hx).
  apply list_elem_of_fmap in HX as (i & -> & _).
  destruct (subsets !! i) as [s|] eqn:Hs; simpl in Hx; [|set_solver].
  rewrite Forall_forall in Hall. eapply Hall; [|done].
  by eapply list_elem_of_lookup_2.
Qed.

(** The loop invariant of both selections: what is left uncovered is the
    total minus the union of the chosen sets. *)
Lemma greedy_loop_inv fuel subsets n :
  ∀ covered uncovered chosen T chosen' uncovered',
    covered = chosen_union subsets chosen →
    uncovered = T ∖ covered →
    greedy_loop fuel subsets n covered uncovered chosen
      = Some (chosen', uncovered') →
    uncovered' = T ∖ chosen_union subsets chosen'.
Proof.
  induction fuel as [|fuel IH]; intros covered uncovered chosen T c' u' Hc Hu;
    simpl; destruct (size covered <? n)%nat.
  - destruct (find_best 0 subsets covered None 0); [discriminate|].
    intros [= <- <-]. by subst.
  - intros [= <- <-]. by subst.
  - destruct (find_best 0 subsets covered None 0) as [k|].
    + apply IH with (T := T).
      * rewrite chosen_union_snoc. by subst.
      * subst. set_solver.
    + intros [= <- <-]. by subst.
  - intros [= <- <-]. by subst.
Qed.

(** The loop ends within the fuel [greedySetCover] gives it. *)
Lemma greedy_loop_total subsets n :
  ∀ fuel covered uncovered chosen,
    (size (⋃ subsets ∖ covered) ≤ fuel)%nat →
    is_Some (greedy_loop fuel subsets n covered uncovered chosen).
Proof.
  induction fuel as [|fuel IH]; intros covered uncovered chosen Hm;
    simpl; destruct (size covered <? n)%nat; try done.
  - destruct (find_best 0 subsets covered None 0) as [k|] eqn:Hf; [|done].
    apply find_best_new in Hf as (s & Hs & Hn).
    unfold new_elements in Hn.
    pose proof (lookup_subseteq_union_list _ _ _ Hs) as Hsub.
    assert (s ∖ covered ⊆ ⋃ subsets ∖ covered) as Hle by set_solver.
    apply subseteq_size in Hle. lia.
  - destruct (find_best 0 subsets covered None 0) as [k|] eqn:Hf; [|done].
    apply find_best_new in Hf as (s & Hs & Hn).
    apply IH. rewrite Hs. simpl.
    unfold new_elements in Hn.
    pose proof (lookup_subseteq_union_list _ _ _ Hs) as Hsub.
    apply size_pos_elem_of in Hn as (x & Hx).
    assert (⋃ subsets ∖ (covered ∪ s) ⊂ ⋃ subsets ∖ covered) as Hlt.
    { split; [set_solver|]. intros Hc.
      assert (x ∈ ⋃ subsets ∖ covered) as Hin by set_solver.
      apply Hc in Hin. set_solver. }
    apply subset_size in Hlt. lia.
Qed.

Lemma special_loop_inv subsets alpha_a T :
  ∀ tries uncovered chosen chosen' uncovered',
    uncovered = T ∖ chosen_union subsets chosen →
    special_loop tries alpha_a subsets uncovered chosen
      = Some (chosen', uncovered') →
    uncovered' = T ∖ chosen_union subsets chosen'.
Proof.
  induction tries as [|learn rest IH]; intros u c c' u' Hu; simpl.
  - intros [= <- <-]. done.
  - destruct (subsets !! index_of learn alpha_a) as [s|] eqn:Hs; [|done].
    destruct (length alpha_a =? length subsets)%nat; [|done].
    apply IH. rewrite chosen_union_snoc, Hs. simpl. subst. set_solver.
Qed.

Lemma cover_complete_of_difference subsets neg_alpha_c chosen (u : gset Z) :
  Forall (λ s, s ⊆ list_to_set neg_alpha_c) subsets →
  u = list_to_set neg_alpha_c ∖ chosen_union subsets chosen →
  cover_complete subsets neg_alpha_c chosen (elements u).
Proof.
  intros Hall ->. unfold cover_complete.
  pose proof (chosen_union_subseteq subsets _ chosen Hall) as Hsub.
  rewrite list_to_set_elements_L. split; [set_solver|].
  apply set_eq. intros x. split; [|set_solver].
  intros Hx. apply elem_of_difference. split; [by apply Hsub|]. set_solver.
Qed.

Lemma coverage_subseteq (v : Z → Z) neg_alpha_c :
  coverage v neg_alpha_c ⊆ list_to_set neg_alpha_c.
Proof.
  unfold coverage. intros x. rewrite !elem_of_list_to_set.
  rewrite list_elem_of_filter. tauto.
Qed.

(** C3: for every family of coverage sets (the literals of the negated
    conditional part falsified under each antecedent's assignment) and every
    negated conditional part, the greedy selection returns a result, and so
    does the schedule-directed selection whenever its assertions hold; the
    residual returned is a subset of the negated conditional part and the
    union of the chosen coverage sets equals the negated conditional part
    minus the residual. *)
Theorem greedy_cover_complete (vs : list (Z → Z)) (neg_alpha_c : list Z) :
  let subsets := map (λ v, coverage v neg_alpha_c) vs in
  (∃ chosen residual,
     greedySetCover subsets neg_alpha_c = Some (chosen, residual) ∧
     cover_complete subsets neg_alpha_c chosen residual) ∧
  (∀ tries alpha_a chosen residual,
     greedySetCoverSpecial tries alpha_a subsets neg_alpha_c
       = Some (chosen, residual) →
     cover_complete subsets neg_alpha_c chosen residual).
Proof.
  intros subsets.
  assert (Forall (λ s, s ⊆ list_to_set neg_alpha_c) subsets) as Hall.
  { apply Forall_forall. intros s Hs. unfold subsets in Hs.
    apply list_elem_of_fmap in Hs as (v & -> & _). apply coverage_subseteq. }
  split.
  - unfold greedySetCover.
    destruct (greedy_loop_total subsets (length neg_alpha_c)
                (size (⋃ subsets)) ∅ (list_to_set neg_alpha_c) [])
      as [[chosen u] Hloop].
    { apply subseteq_size. set_solver. }
    rewrite Hloop. exists chosen, (elements u). split; [done|].
    apply cover_complete_of_difference; [done|].
    apply (greedy_loop_inv (size (⋃ subsets)) subsets (length neg_alpha_c)
             ∅ (list_to_set neg_alpha_c) [] (list_to_set neg_alpha_c)
             chosen u); [done|set_solver|exact Hloop].
  - intros tries alpha_a chosen residual. unfold greedySetCoverSpecial.
    destruct (special_loop _ _ _ _ _) as [[c u]|] eqn:Hloop; [|done].
    intros [= <- <-].
    apply cover_complete_of_difference; [done|].
    apply (special_loop_inv subsets alpha_a (list_to_set neg_alpha_c)
             tries (list_to_set neg_alpha_c) [] c u); [|exact Hloop].
    unfold chosen_union. simpl. set_solver.
Qed.

(** C3 on two coverage sets over the negated conditional part [3; 4; 5],
    with the schedule asking for the second antecedent. *)
Lemma greedy_cover_complete_witness :
  let subsets := map (λ v, coverage v [3; 4; 5])
                     [falsifies [3; 4]; falsifies [5]] in
  ∃ chosen residual,
    greedySetCoverSpecial [11] [10; 11] subsets [3; 4; 5]
      = Some (chosen, residual) ∧
    cover_complete subsets [3; 4; 5] chosen residual.
Proof.
  intros subsets. eexists _, _. split; [vm_compute; reflexivity|].
  apply (proj2 (greedy_cover_complete [falsifies [3; 4]; falsifies [5]]
                  [3; 4; 5]) [11] [10; 11]).
  vm_compute. reflexivity.
Defined.

(** ** The state monad and the frame of a computation *)

Create HintDb frame.

Section Monad.
Context {St : Type} `{Collaborators St}.

Lemma bind_Some {A B} (m : M St A) (f : A → M St B) i b i' :
  (m ≫= f) i = Some (b, i') ↔
  ∃ a i1, m i = Some (a, i1) ∧ f a i1 = Some (b, i').
Proof.
  unfold mbind, M_bind. destruct (m i) as [[a i1]|]; split.
  - intros Hf. by exists a, i1.
  - by intros (? & ? & [= <- <-] & ?).
  - done.
  - by intros (? & ? & ? & ?).
Qed.

Lemma bind_eq {A B} (m : M St A) (f : A → M St B) i a i1 :
  m i = Some (a, i1) → (m ≫= f) i = f a i1.
Proof. unfold mbind, M_bind. by intros ->. Qed.

Lemma frame_ret {A} (a : A) : Frame (mret a : M St A).
Proof. intros i b i' [= <- <-]. done. Qed.

Lemma frame_fail {A} : Frame (fail : M St A).
Proof. intros i b i' [=]. Qed.

Lemma frame_bind {A B} (m : M St A) (f : A → M St B) :
  Frame m → (∀ a, Frame (f a)) → Frame (m ≫= f).
Proof.
  intros Hm Hf i b i' Hb. apply bind_Some in Hb as (a & i1 & H1 & H2).
  apply Hm in H1 as (? & ? & ? & ?). apply Hf in H2 as (? & ? & ? & ?).
  repeat split; [congruence..|]. by etrans.
Qed.

Lemma frame_read {A} (f : Internal St → A) : Frame (read f).
Proof. intros i b i' [= <- <-]. done. Qed.

Lemma frame_with_solver (f : St → St) : Frame (with_solver f).
Proof. intros i b i' [= <- <-]. done. Qed.

Lemma frame_propagate : Frame propagate.
Proof.
  intros i b i'. unfold propagate.
  destruct (ext_propagate (solver i)). intros [= <- <-]. done.
Qed.

Lemma frame_write_lines l l' : Frame (write_lines l l' : M St unit).
Proof.
  intros i b i' [= <- <-]. simpl. repeat split. by apply prefix_app_r.
Qed.

Lemma frame_random_sort l : Frame (random_sort_alpha_a l).
Proof.
  intros i b i'. unfold random_sort_alpha_a.
  destruct (ext_shuffle l (solver i)). intros [= <- <-]. done.
Qed.
End Monad.

#[export] Hint Resolve frame_ret frame_fail frame_read frame_with_solver
  frame_propagate frame_write_lines frame_random_sort : frame.

(** Decompose a goal [Frame m] along the structure of [m]. *)
Ltac frame_step :=
  match goal with
  | |- Frame (_ ≫= _) => apply frame_bind; [|intros ?]
  | |- Frame (mbind _ _) => apply frame_bind; [|intros ?]
  | |- Frame (if ?b then _ else _) => destruct b
  | |- Frame (match ?x with _ => _ end) => destruct x
  | |- Frame (let '(_, _) := ?x in _) => destruct x
  | |- Frame _ => solve [eauto with frame]
  end.

Ltac frame := repeat frame_step.

Section Frames.
Context {St : Type} `{Collaborators St}.

Lemma frame_val lit : Frame (val lit).
Proof. apply frame_read. Qed.
Lemma frame_flags lit : Frame (flags lit).
Proof. apply frame_read. Qed.
Lemma frame_unsat : Frame (unsat (St := St)).
Proof. apply frame_read. Qed.
Lemma frame_level : Frame (level (St := St)).
Proof. apply frame_read. Qed.
Lemma frame_max_var : Frame (max_var (St := St)).
Proof. apply frame_read. Qed.
Lemma frame_time : Frame (time (St := St)).
Proof. intros i a i' [= <- <-]. done. Qed.
Lemma frame_is_decision lit : Frame (is_decision lit).
Proof. apply frame_read. Qed.
Lemma frame_watches lit : Frame (watches lit).
Proof. apply frame_read. Qed.
Lemma frame_falsified l : Frame (falsified l).
Proof. apply frame_read. Qed.
Lemma frame_backtrack l : Frame (backtrack l).
Proof. apply frame_with_solver. Qed.
Lemma frame_search_assume_decision l : Frame (search_assume_decision l).
Proof. apply frame_with_solver. Qed.
Lemma frame_analyze : Frame (analyze (St := St)).
Proof. apply frame_with_solver. Qed.
#[local] Hint Resolve frame_val frame_flags frame_unsat frame_level frame_max_var
  frame_time frame_is_decision frame_watches frame_falsified
  frame_backtrack frame_search_assume_decision frame_analyze : frame.

Lemma frame_analyze_loop_fuel n : Frame (analyze_loop_fuel n).
Proof. induction n; simpl; frame. Qed.
#[local] Hint Resolve frame_analyze_loop_fuel : frame.

Lemma frame_analyze_loop : Frame (analyze_loop (St := St)).
Proof. unfold analyze_loop. frame. Qed.
#[local] Hint Resolve frame_analyze_loop : frame.

Lemma frame_check_range l : Frame (check_range l).
Proof. unfold check_range. frame. Qed.
#[local] Hint Resolve frame_check_range : frame.

Lemma frame_compare_alpha_a a b : Frame (compare_alpha_a a b).
Proof. unfold compare_alpha_a. frame. Qed.
#[local] Hint Resolve frame_compare_alpha_a : frame.

Lemma frame_imp_sort_inner i js : ∀ l, Frame (imp_sort_inner i js l).
Proof. induction js; intros l; simpl; frame. Qed.
#[local] Hint Resolve frame_imp_sort_inner : frame.

Lemma frame_imp_sort_outer idxs : ∀ l, Frame (imp_sort_outer idxs l).
Proof. induction idxs; intros l; simpl; frame. Qed.
#[local] Hint Resolve frame_imp_sort_outer : frame.

Lemma frame_custom_sort l : Frame (custom_sort_alpha_a l).
Proof. unfold custom_sort_alpha_a, imp_sort_alpha_a. frame. Qed.
#[local] Hint Resolve frame_custom_sort : frame.

Lemma frame_special_sort_loop tries a n :
  ∀ g p, Frame (special_sort_loop tries a n g p).
Proof. induction tries; intros g p; simpl; frame. Qed.
#[local] Hint Resolve frame_special_sort_loop : frame.

Lemma frame_greedy_special a n : Frame (greedy_sort_alpha_a_special a n).
Proof. unfold greedy_sort_alpha_a_special. frame. Qed.
#[local] Hint Resolve frame_greedy_special : frame.

Lemma frame_coverage_loop a n : ∀ u p, Frame (coverage_loop a n u p).
Proof. induction a; intros u p; simpl; frame. Qed.
#[local] Hint Resolve frame_coverage_loop : frame.

Lemma frame_greedy a n : Frame (greedy_sort_alpha_a a n).
Proof. unfold greedy_sort_alpha_a. frame. Qed.
#[local] Hint Resolve frame_greedy : frame.

Lemma frame_bcp_body a : ∀ u n, Frame (bcp_shrink_body a u n).
Proof. induction a; intros u n; simpl; frame. Qed.
#[local] Hint Resolve frame_bcp_body : frame.

Lemma frame_bcp a u n : Frame (bcp_shrink a u n).
Proof. unfold bcp_shrink. frame. Qed.
#[local] Hint Resolve frame_bcp : frame.

Lemma frame_propagate_shrink_body a :
  ∀ u n, Frame (propagate_shrink_body a u n).
Proof. induction a; intros u n; simpl; frame. Qed.
#[local] Hint Resolve frame_propagate_shrink_body : frame.

Lemma frame_propagate_shrink a u n : Frame (propagate_shrink a u n).
Proof. unfold propagate_shrink. frame. Qed.
#[local] Hint Resolve frame_propagate_shrink : frame.

Lemma frame_shrink a n : Frame (shrink a n).
Proof. unfold shrink. frame. Qed.

Lemma frame_add_clause c l n a : Frame (add_clause c l n a).
Proof. unfold add_clause, record_clause. frame. Qed.
#[local] Hint Resolve frame_add_clause : frame.

Lemma frame_trivial_loop c : Frame (trivial_loop c).
Proof. induction c; simpl; frame. Qed.
#[local] Hint Resolve frame_trivial_loop : frame.

Lemma frame_check_if_clause_trivial c : Frame (check_if_clause_trivial c).
Proof. unfold check_if_clause_trivial. frame. Qed.
#[local] Hint Resolve frame_check_if_clause_trivial : frame.

Lemma frame_filtered_out c : Frame (filtered_out c).
Proof. unfold filtered_out. frame. Qed.
#[local] Hint Resolve frame_filtered_out : frame.

Lemma frame_fallback_loop cands a t : ∀ b, Frame (fallback_loop cands a t b).
Proof. induction cands; intros b; simpl; frame. Qed.
#[local] Hint Resolve frame_fallback_loop : frame.

Lemma frame_assemble a u n c t : Frame (assemble a u n c t).
Proof. unfold assemble. frame. Qed.
End Frames.


Section Marks.
Context {St : Type} `{Collaborators St}.

Lemma set_marks_true mv lits : ∀ marks k,
  set_marks mv lits marks !! k = Some true →
  marks !! k = Some true ∨ k ∈ map (mark_index mv) lits.
Proof.
  unfold set_marks.
  induction lits as [|l lits IH]; intros marks k Hk; simpl in *.
  - by left.
  - apply IH in Hk as [Hk|Hk].
    + unfold setbit_in in Hk.
      apply list_lookup_insert_Some in Hk as [(-> & _ & _)|(_ & Hk)].
      * right. left.
      * by left.
    + right. by right.
Qed.

Lemma unset_marks_true mv lits : ∀ marks k,
  unset_marks mv lits marks !! k = Some true →
  marks !! k = Some true ∧ k ∉ map (mark_index mv) lits.
Proof.
  unfold unset_marks.
  induction lits as [|l lits IH]; intros marks k Hk; simpl in *.
  - split; [done|]. apply not_elem_of_nil.
  - apply IH in Hk as [Hk Hn].
    unfold unsetbit_in in Hk.
    apply list_lookup_insert_Some in Hk as [(_ & [=] & _)|(Hne & Hk)].
    split; [done|]. intros [->|Hin]%elem_of_cons; done.
Qed.

Lemma set_marks_app mv l1 l2 marks :
  set_marks mv (l1 ++ l2) marks = set_marks mv l2 (set_marks mv l1 marks).
Proof. unfold set_marks. apply foldl_app. Qed.

Lemma unset_set_clear mv lits marks :
  all_clear marks → all_clear (unset_marks mv lits (set_marks mv lits marks)).
Proof.
  intros Hc. apply Forall_lookup. intros k [] Hk; [|done].
  apply unset_marks_true in Hk as [Hk Hn].
  apply set_marks_true in Hk as [Hk|Hk]; [|done].
  eapply Forall_lookup in Hc; [|exact Hk]. done.
Qed.

(** The scan marks exactly the literals it appends to [neg_alpha_c]. *)
Lemma scan_clauses_marks (s : St) cs : ∀ marks neg tt marks' neg' tt',
  scan_clauses s cs marks neg tt = (marks', neg', tt') →
  ∃ added, neg' = neg ++ added ∧
           marks' = set_marks (ext_max_var s) added marks.
Proof.
  induction cs as [|c cs IH]; intros marks neg tt marks' neg' tt' Hs;
    simpl in Hs.
  - injection Hs as <- <- <-. exists []. by rewrite app_nil_r.
  - destruct (redundant c && negb (ext_proof s)); [by apply IH in Hs|].
    destruct (garbage c); [by apply IH in Hs|].
    destruct (skip_clause s c); [by apply IH in Hs|].
    destruct (scan_literals s marks (literals c) false tt [])
      as [[sat tt1] touches].
    destruct sat; [by apply IH in Hs|].
    apply IH in Hs as (added & -> & ->).
    exists (touches ++ added). split; [by rewrite app_assoc|].
    by rewrite set_marks_app.
Qed.

Lemma for_each_unsetbit lits : ∀ (i : Internal St),
  for_each global_unsetbit lits i =
  Some (tt, {| solver := solver i; opts := opts i;
               globalmarks := unset_marks (ext_max_var (solver i)) lits
                                (globalmarks i);
               global_try := global_try i; outFile := outFile i;
               outFile_pr := outFile_pr i;
               clock := clock i |}).
Proof.
  induction lits as [|l lits IH]; intros i; simpl.
  - by destruct i.
  - unfold mbind, M_bind. simpl. rewrite IH. simpl. done.
Qed.

Lemma collect_conditional_part_clears i r i' :
  all_clear (globalmarks i) →
  collect_conditional_part i = Some (r, i') →
  all_clear (globalmarks i').
Proof.
  intros Hc. unfold collect_conditional_part.
  unfold mbind, M_bind. simpl.
  destruct (scan_clauses (solver i) (ext_clauses (solver i))
              (globalmarks i) [] []) as [[marks' neg] tt] eqn:Hs.
  simpl.
  destruct (collect_keys (solver i) marks' tt neg [] []) as [cta aa].
  rewrite for_each_unsetbit. simpl. intros [= <- <-]. simpl.
  apply scan_clauses_marks in Hs as (added & Hn & ->).
  simpl in Hn. subst added. by apply unset_set_clear.
Qed.

(** C9: if every bit of [globalmarks] is unset when
    [least_conditional_part] is called, every bit is unset again on every
    return path of the call: the scan sets the bit of exactly the
    literals it appends to [neg_alpha_c], the loop after it unsets the
    bit of every literal of [neg_alpha_c], and nothing that runs
    afterwards writes the bitset. *)
Theorem least_conditional_part_clears_marks
    (original_time : Z) (i i' : Internal St) (b : bool) :
  all_clear (globalmarks i) →
  least_conditional_part original_time i = Some (b, i') →
  all_clear (globalmarks i').
Proof.
  intros Hc. unfold least_conditional_part. intros Hl.
  apply bind_Some in Hl as ([[neg cta] aa] & i1 & H1 & Hl).
  apply collect_conditional_part_clears in H1; [|done].
  apply bind_Some in Hl as (aa' & i2 & H2 & Hl).
  apply frame_custom_sort in H2 as (Hm2 & _).
  apply bind_Some in Hl as (r & i3 & H3 & Hl).
  apply frame_shrink in H3 as (Hm3 & _).
  destruct r as [[]|[u n]].
  - injection Hl as <- <-. congruence.
  - apply frame_assemble in Hl as (Hm4 & _). congruence.
Qed.
End Marks.

(** ** The contract of the collaborators *)

Section Laws.
Context {St : Type} `{CollaboratorLaws St}.

Lemma analyze_loop_fuel_total fuel : ∀ (i : Internal St),
  (ext_unsat (solver i) = true ∧ (1 ≤ fuel)%nat) ∨
  (Z.to_nat (ext_level (solver i)) + 2 ≤ fuel)%nat →
  ∃ i', analyze_loop_fuel fuel i = Some (tt, i').
Proof.
  induction fuel as [|fuel IH]; intros i Hf; [lia|].
  simpl. unfold mbind, M_bind, unsat, read. simpl.
  destruct (ext_unsat (solver i)) eqn:Hu; [by eexists|].
  destruct Hf as [[? ?]|Hf]; [done|].
  unfold propagate.
  destruct (ext_propagate (solver i)) as [ok s'] eqn:Hp.
  destruct ok; [by eexists|].
  simpl. apply IH. simpl.
  pose proof (propagate_level (solver i)) as Hl. rewrite Hp in Hl.
  simpl in Hl.
  destruct (analyze_level _ _ Hp) as [Hun|Hlt].
  - left. split; [done|lia].
  - right. pose proof (level_nonneg (ext_analyze s')).
    pose proof (level_nonneg s'). lia.
Qed.

Lemma analyze_loop_total (i : Internal St) :
  ∃ i', analyze_loop i = Some (tt, i').
Proof.
  unfold analyze_loop, mbind, M_bind, level, read. simpl.
  apply analyze_loop_fuel_total. right. lia.
Qed.

(** The loop of the triviality check always ends, and its answer is the
    amended reading of the claim. *)
Lemma trivial_loop_spec c : ∀ (i : Internal St),
  ∃ i', trivial_loop c i
        = Some (trivial_by_assumptions (solver i) c, i').
Proof.
  induction c as [|lit rest IH]; intros i; simpl.
  - by eexists.
  - unfold mbind, M_bind, val, read. simpl.
    destruct (0 <? ext_val (solver i) lit); [by eexists|].
    destruct (ext_val (solver i) lit <? 0); [apply IH|].
    unfold propagate. simpl.
    replace (-1 * lit) with (- lit) by lia.
    destruct (ext_propagate
                (ext_search_assume_decision (- lit) (solver i)))
      as [ok s'] eqn:Hp.
    destruct ok.
    + destruct (IH {| solver := s'; opts := opts i;
                      globalmarks := globalmarks i;
                      global_try := global_try i; outFile := outFile i;
                      outFile_pr := outFile_pr i;
                      clock := clock i |}) as [i' Hi'].
      simpl in Hi'. rewrite Hi'. by eexists.
    + simpl.
      destruct (analyze_loop
                  {| solver := ext_analyze s'; opts := opts i;
                     globalmarks := globalmarks i;
                     global_try := global_try i; outFile := outFile i;
                     outFile_pr := outFile_pr i;
                     clock := clock i |}) as [[[] i']|] eqn:Ha.
      * by eexists.
      * destruct (analyze_loop_total
                  {| solver := ext_analyze s'; opts := opts i;
                     globalmarks := globalmarks i;
                     global_try := global_try i; outFile := outFile i;
                     outFile_pr := outFile_pr i;
                     clock := clock i |}) as [i' Hi'].
        congruence.
Qed.

(** C5, amended: [check_if_clause_trivial] returns, and it returns true
    if and only if the clause's literal count exceeds the configured
    maximum, or, assuming the negation of each literal in sequence and
    skipping the literals already assigned false, it finds a literal that
    is already true or reaches a propagation conflict before the
    literals are exhausted. *)
Theorem check_if_clause_trivial_iff (c : list Z) (i : Internal St) :
  ∃ i', check_if_clause_trivial c i =
        Some (exceeds_maxlen (opts i) c ||
              trivial_by_assumptions (ext_backtrack 0 (solver i)) c, i').
Proof.
  unfold check_if_clause_trivial, mbind, M_bind, read. simpl.
  destruct (exceeds_maxlen (opts i) c); [by eexists|]. simpl.
  destruct (trivial_loop_spec c
              {| solver := ext_backtrack 0 (solver i); opts := opts i;
                 globalmarks := globalmarks i;
                 global_try := global_try i; outFile := outFile i;
                 outFile_pr := outFile_pr i;
                 clock := clock i |}) as [i' Hi'].
  simpl in Hi'. rewrite Hi'. by eexists.
Qed.

(** C6, amended: for every input clause whose literal count does not
    exceed the configured maximum (the empty clause and single-literal
    clauses included) and from any entry decision level,
    [check_if_clause_trivial] returns with the solver at decision level
    0, whether it answers true or false; for a clause over the maximum it
    returns true at once and leaves the solver, and so the decision
    level, as it found it. *)
Theorem check_if_clause_trivial_level (c : list Z) (i : Internal St) :
  if exceeds_maxlen (opts i) c
  then check_if_clause_trivial c i = Some (true, i)
  else ∃ b i', check_if_clause_trivial c i = Some (b, i') ∧
               ext_level (solver i') = 0.
Proof.
  unfold check_if_clause_trivial, mbind, M_bind, read. simpl.
  destruct (exceeds_maxlen (opts i) c); [done|]. simpl.
  destruct (trivial_loop_spec c
              {| solver := ext_backtrack 0 (solver i); opts := opts i;
                 globalmarks := globalmarks i;
                 global_try := global_try i; outFile := outFile i;
                 outFile_pr := outFile_pr i;
                 clock := clock i |}) as [i' Hi'].
  simpl in Hi'. rewrite Hi'. eexists _, _. split; [done|]. simpl.
  apply backtrack_level.
Qed.
End Laws.

(** The reference implementation meets the contract. *)
Lemma toy_propagate_fuel_level fuel : ∀ s,
  toy_level (toy_propagate_fuel fuel s).2 = toy_level s.
Proof.
  induction fuel as [|fuel IH]; intros s; simpl; [done|].
  destruct (toy_scan s (toy_clauses s)); try done.
  rewrite IH. done.
Qed.

#[global] Instance toy_laws : CollaboratorLaws Toy.
Proof.
  split.
  - intros s. simpl. lia.
  - intros s. simpl. lia.
  - intros s. simpl. unfold toy_propagate.
    by rewrite toy_propagate_fuel_level.
  - intros s s' Hp. simpl. unfold toy_analyze.
    destruct (toy_level s') as [|l] eqn:Hl.
    + by left.
    + right. simpl. rewrite Hl. lia.
Qed.

(** ** What a call of [least_conditional_part] leaves behind *)

Section Result.
Context {St : Type} `{Collaborators St}.
















End Result.

(** ** The emitted clause and the shrink strategies *)

(** Steps 1 to 3 after the probe of [1] on [linked_formula]: the negated
    conditional part is [3], the antecedents are [-3] and [2], each with
    its raw candidate clause. *)
Example collect_after_probe :
  ∃ i', collect_conditional_part (linked_probe default_options)
        = Some (([3], [[3; -3]; [3; 2]], [-3; 2]), i').
Proof. eexists. vm_compute. reflexivity. Qed.

(** C1: the code at a failing input.  After the probe of [1] on
    [linked_formula] the residual literal [3] is linked to the antecedent
    [2] by the binary clause [2 ∨ -3].  The body of [bcp_shrink] removes
    [3] from its residual copy and retains [2] in its useful copy, but the
    call hands neither copy back: step 4 returns the empty useful set and
    the untouched residual, and step 5 falls back to the raw candidate
    clauses, which still contain [3]. *)
Theorem bcp_shrink_removals_lost :
  let st := linked_probe default_options in
  bcp_shrink_body [-3; 2] [] [3] st = Some (([2], []), st) ∧
  shrink [-3; 2] [3] st = Some (inr ([], [3]), st) ∧
  ∃ i', least_conditional_part 0 st = Some (true, i') ∧
        outFile i' = [[-3; 3]; [2; 3]].
Proof.
  intros st. split; [vm_compute; reflexivity|].
  split; [vm_compute; reflexivity|].
  eexists. split; vm_compute; reflexivity.
Qed.

(** ** The result of [least_conditional_part] *)



(** ** The triviality check on the reference solver *)

(** C5, as stated, fails: on the formula [1 ∨ 2] the check of the clause
    [1; 2] answers true, although the clause is within the length limit
    and assuming the negations in sequence, skipping the literals already
    assigned, meets no propagation conflict: after [-1] is assumed the
    literal [2] is true, and the code answers true on a true literal
    instead of skipping it. *)
Lemma trivial_without_conflict :
  (∃ i', check_if_clause_trivial [1; 2] disjunction_state = Some (true, i')) ∧
  exceeds_maxlen (opts disjunction_state) [1; 2] = false ∧
  conflict_by_assumptions (ext_backtrack 0 (solver disjunction_state)) [1; 2]
    = false.
Proof.
  split; [eexists; vm_compute; reflexivity|].
  split; vm_compute; reflexivity.
Qed.

(** The amended C5 on the same input: the answer is true because the
    second literal is found true. *)
Lemma check_if_clause_trivial_iff_witness :
  ∃ i', check_if_clause_trivial [1; 2] disjunction_state = Some (true, i').
Proof.
  destruct (check_if_clause_trivial_iff (H0 := toy_laws) [1; 2]
              disjunction_state) as [i' Hi'].
  exists i'. exact Hi'.
Defined.

(** C6, as stated, fails: called at decision level 1 with a clause longer
    than the configured maximum, the check returns true through its first
    [return], before any [backtrack], and the solver is still at level
    1. *)
Lemma oversize_clause_keeps_level :
  let st := linked_probe
              (global_options false false true true true true 10 1 1000000) in
  ext_level (solver st) = 1 ∧
  ∃ i', check_if_clause_trivial [3; 2] st = Some (true, i') ∧
        ext_level (solver i') = 1.
Proof.
  intros st. split; [vm_compute; reflexivity|].
  eexists. split; vm_compute; reflexivity.
Qed.

(** The amended C6 on a clause within the length limit, checked from
    decision level 1. *)
Lemma check_if_clause_trivial_level_witness :
  let st := linked_probe default_options in
  ∃ b i', check_if_clause_trivial [3; 2] st = Some (b, i') ∧
          ext_level (solver i') = 0.
Proof.
  intros st.
  exact (check_if_clause_trivial_level (H0 := toy_laws) [3; 2] st).
Defined.

(** ** The return value of [propagate_shrink] *)

(** C7: the code at the failing paths.  Whenever the loop of
    [propagate_shrink] runs to its end (no double conflict), whether or not
    [keep_i] was ever set, the function reaches its closing brace without a
    [return]: the call has no defined boolean value. *)
Theorem propagate_shrink_ends_without_return {St} `{Collaborators St}
    (alpha_a alpha_a_useful neg : list Z) (i i1 : Internal St)
    (r : list Z * list Z) :
  propagate_shrink_body alpha_a alpha_a_useful neg i = Some (inr r, i1) →
  propagate_shrink alpha_a alpha_a_useful neg i = None.
Proof.
  intros Hb. unfold propagate_shrink.
  rewrite (bind_eq _ _ _ _ _ Hb). reflexivity.
Qed.

(** C7 on a run in which [keep_i] is never set: assuming [-2] falsifies
    no residual literal, the loop ends, and no value is returned. *)
Lemma propagate_shrink_ends_without_return_witness :
  let st := linked_probe
              (global_options false false false false true true 10 100 1000000) in
  propagate_shrink [2] [] [4] st = None.
Proof.
  intros st.
  eapply (propagate_shrink_ends_without_return [2] [] [4] st).
  vm_compute. reflexivity.
Defined.


(** ** The mark bitset on the reference solver *)

(** C9 on the probe of [1] on [linked_formula]. *)
Lemma least_conditional_part_clears_marks_witness :
  let st := linked_probe default_options in
  ∃ b i', least_conditional_part 0 st = Some (b, i') ∧
          all_clear (globalmarks i').
Proof.
  intros st. eexists _, _. split; [vm_compute; reflexivity|].
  eapply (least_conditional_part_clears_marks 0 st).
  - vm_compute. repeat constructor.
  - vm_compute. reflexivity.
Defined.

(** ** The chessboard schedule and the variable range *)

(** C10: the code at a failing input.  On the two-variable formula of the
    specification the first batch of the schedule is [1; 10]; after [1] is
    assumed without conflict the literal [10] is passed to [flags] although
    [max_var] is 2: the access is out of range and the run has no defined
    result. *)
Theorem chess_schedule_out_of_range :
  let st := internal_init
              (global_options true false true false true true 10 100 1000000)
              two_variable_formula in
  (∃ i1, (init_global;; backtrack 0;; assume_batch [1]) st = Some (true, i1) ∧
         in_range (ext_max_var (solver i1)) 10 = false ∧
         check_range 10 i1 = None) ∧
  global_preprocess_chess st = None.
Proof.
  intros st. split.
  - eexists. split; [vm_compute; reflexivity|].
    split; vm_compute; reflexivity.
  - vm_compute. reflexivity.
Qed.

(** Every literal of the schedule is in range exactly when the formula has
    at least 180 variables. *)
Lemma schedule_needs_180_variables (mv : Z) :
  forallb (λ r, forallb (in_range mv) (r.1 ++ r.2)) asses = true ↔ 180 ≤ mv.
Proof.
  split.
  - intros Hall. rewrite forallb_forall in Hall.
    assert (([73; 75; 77; 79; 81; 82; 84; 86; 88; 90],
             [-89; -87; -85; -180; -83; -80; -78; -76; -171; -74])
              ∈ asses) as Hin.
    { apply (list_elem_of_lookup_2 _ 397). vm_compute. reflexivity. }
    apply list_elem_of_In, Hall in Hin.
    rewrite forallb_forall in Hin.
    specialize (Hin (-180)). unfold in_range in Hin.
    assert (In (-180) ([73; 75; 77; 79; 81; 82; 84; 86; 88; 90] ++
             [-89; -87; -85; -180; -83; -80; -78; -76; -171; -74]))
      as Hi by (simpl; tauto).
    apply Hin in Hi. apply andb_true_iff in Hi as [_ Hi]. simpl in Hi. lia.
  - intros Hmv. apply forallb_forall. intros r Hr.
    apply forallb_forall. intros l Hl.
    assert (forallb (λ r, forallb (in_range 180) (r.1 ++ r.2)) asses = true)
      as H180 by (vm_compute; reflexivity).
    rewrite forallb_forall in H180. specialize (H180 r Hr).
    rewrite forallb_forall in H180. specialize (H180 l Hl).
    unfold in_range in *. apply andb_true_iff in H180 as [H1 H2].
    apply andb_true_iff. split; [done|]. lia.
Qed.

(** ** The time budget *)




(* ===================================================================== *)
(** * Part III: further properties of the code                            *)
(* ===================================================================== *)

(** ** The set-cover selections *)

Lemma find_best_none subsets covered :
  ∀ i best mx,
    find_best i subsets covered best mx = None →
    best = None ∧ Forall (λ s, (new_elements covered s ≤ mx)%nat) subsets.
Proof.
  induction subsets as [|s rest IH]; intros i best mx Hf; simpl in Hf.
  - by split.
  - destruct (Nat.ltb_spec mx (new_elements covered s)) as [Hlt|Hge].
    + apply IH in Hf as [[=] _].
    + apply IH in Hf as [-> Hall]. split; [done|]. by constructor.
Qed.

Lemma size_list_to_set_le (l : list Z) :
  (size (list_to_set l : gset Z) ≤ length l)%nat.
Proof.
  induction l as [|x l IH].
  - rewrite list_to_set_nil, size_empty. done.
  - rewrite list_to_set_cons. simpl length.
    pose proof (size_union_alt ({[x]} : gset Z) (list_to_set l)) as Hu.
    assert (size (list_to_set l ∖ {[x]} : gset Z) ≤ size (list_to_set l : gset Z))%nat.
    { apply subseteq_size. set_solver. }
    rewrite size_singleton in Hu. lia.
Qed.

(** The state of the greedy loop: the indices chosen so far are in range
    and distinct, and what is covered is the union of their sets. *)
Lemma greedy_loop_chosen fuel subsets n :
  ∀ covered uncovered chosen chosen' uncovered',
    covered = chosen_union subsets chosen →
    NoDup chosen → Forall (λ k, (k < length subsets)%nat) chosen →
    greedy_loop fuel subsets n covered uncovered chosen
      = Some (chosen', uncovered') →
    NoDup chosen' ∧ Forall (λ k, (k < length subsets)%nat) chosen' ∧
    ((size (chosen_union subsets chosen') < n)%nat →
     Forall (λ s, s ⊆ chosen_union subsets chosen') subsets).
Proof.
  induction fuel as [|fuel IH];
    intros covered uncovered chosen c' u' Hc Hnd Hr; simpl;
    destruct (Nat.ltb_spec (size covered) n) as [Hlt|Hge].
  - destruct (find_best 0 subsets covered None 0) eqn:Hf; [discriminate|].
    intros [= <- <-]. repeat split; [done..|]. intros _.
    apply find_best_none in Hf as [_ Hall].
    eapply Forall_impl; [exact Hall|]. intros s Hs. simpl in Hs.
    unfold new_elements in Hs. assert (size (s ∖ covered) = 0%nat) as H0 by lia.
    apply size_empty_inv in H0. subst. set_solver.
  - intros [= <- <-]. repeat split; [done..|]. subst. lia.
  - destruct (find_best 0 subsets covered None 0) as [k|] eqn:Hf.
    + apply find_best_new in Hf as (s & Hs & Hn).
      apply IH.
      * rewrite chosen_union_snoc. by subst.
      * apply NoDup_app. split; [done|]. split; [|apply NoDup_singleton].
        intros x Hx ->%list_elem_of_singleton.
        unfold new_elements in Hn.
        assert (s ⊆ covered) as Hsub.
        { subst covered. unfold chosen_union. intros y Hy.
          apply elem_of_union_list. exists s. split; [|done].
          apply list_elem_of_fmap. exists k. by rewrite Hs. }
        assert (s ∖ covered = ∅) as He by set_solver.
        rewrite He, size_empty in Hn. lia.
      * apply Forall_app. split; [done|]. apply Forall_singleton.
        by eapply lookup_lt_Some.
    + intros [= <- <-]. repeat split; [done..|]. intros _.
      apply find_best_none in Hf as [_ Hall].
      eapply Forall_impl; [exact Hall|]. intros s Hs. simpl in Hs.
      unfold new_elements in Hs.
      assert (size (s ∖ covered) = 0%nat) as H0 by lia.
      apply size_empty_inv in H0. subst. set_solver.
  - intros [= <- <-]. repeat split; [done..|]. subst. lia.
Qed.

(** X16: whenever [greedySetCover] returns, the indices it chose are
    pairwise distinct and each of them is an index of [subsets]; so it
    never picks a subset twice and picks at most as many as there are. *)
Theorem greedySetCover_chosen_distinct (subsets : list (gset Z))
    (total_elements : list Z) (chosen : list nat) (residual : list Z) :
  greedySetCover subsets total_elements = Some (chosen, residual) →
  NoDup chosen ∧ Forall (λ k, (k < length subsets)%nat) chosen ∧
  (length chosen ≤ length subsets)%nat.
Proof.
  unfold greedySetCover.
  destruct (greedy_loop _ _ _ _ _ _) as [[c u]|] eqn:Hl; [|done].
  intros [= <- <-].
  apply greedy_loop_chosen in Hl as (Hnd & Hr & _);
    [|done|constructor|constructor].
  repeat split; [done..|].
  assert (c ⊆+ seq 0 (length subsets)) as Hsub.
  { apply NoDup_submseteq; [done|]. intros k Hk.
    rewrite Forall_forall in Hr. apply Hr in Hk.
    apply list_elem_of_In, in_seq. lia. }
  apply submseteq_length in Hsub. by rewrite length_seq in Hsub.
Qed.

(** X17: when every subset lies within [total_elements], the subsets
    [greedySetCover] chose cover everything that the whole family covers,
    and the residual it returns is exactly what no subset covers. *)
Theorem greedySetCover_covers_all (subsets : list (gset Z))
    (total_elements : list Z) (chosen : list nat) (residual : list Z) :
  Forall (λ s, s ⊆ list_to_set total_elements) subsets →
  greedySetCover subsets total_elements = Some (chosen, residual) →
  chosen_union subsets chosen = ⋃ subsets ∧
  list_to_set residual =@{gset Z} list_to_set total_elements ∖ ⋃ subsets.
Proof.
  intros Hall. unfold greedySetCover.
  destruct (greedy_loop _ _ _ _ _ _) as [[c u]|] eqn:Hl; [|done].
  intros [= <- <-].
  pose proof Hl as Hinv.
  apply (greedy_loop_inv _ _ _ ∅ (list_to_set total_elements) []
           (list_to_set total_elements) c u) in Hinv; [|done|set_solver].
  apply greedy_loop_chosen in Hl as (_ & _ & Hmax);
    [|done|constructor|constructor].
  pose proof (chosen_union_subseteq subsets _ c Hall) as Hsub.
  assert (chosen_union subsets c = ⋃ subsets) as Heq.
  { apply set_eq. intros x. split.
    - unfold chosen_union. intros (X & HX & Hx)%elem_of_union_list.
      apply list_elem_of_fmap in HX as (k & -> & _).
      destruct (subsets !! k) as [s|] eqn:Hs; simpl in Hx; [|set_solver].
      apply elem_of_union_list. exists s. split; [|done].
      by eapply list_elem_of_lookup_2.
    - intros (X & HX & Hx)%elem_of_union_list.
      destruct (Nat.lt_ge_cases (size (chosen_union subsets c))
                  (length total_elements)) as [Hlt|Hge].
      + apply Hmax in Hlt. rewrite Forall_forall in Hlt.
        by apply (Hlt X HX).
      + assert (chosen_union subsets c = list_to_set total_elements) as ->.
        { apply set_subseteq_size_eq; [done|].
          pose proof (size_list_to_set_le total_elements). lia. }
        rewrite Forall_forall in Hall. by apply (Hall X HX). }
  split; [done|]. rewrite list_to_set_elements_L, Hinv, Heq. done.
Qed.

Lemma index_of_lt (x : Z) (l : list Z) :
  (index_of x l < length l)%nat ↔ x ∈ l.
Proof.
  induction l as [|y l IH]; simpl.
  - split; [lia|]. by intros ?%elem_of_nil.
  - destruct (Z.eqb_spec x y) as [->|Hne].
    + split; [intros _; left|lia].
    + rewrite elem_of_cons, <- IH. split; [intros; right; lia|].
      intros [?|?]; [done|lia].
Qed.

Lemma index_of_le (x : Z) (l : list Z) : (index_of x l ≤ length l)%nat.
Proof.
  induction l as [|y l IH]; simpl; [lia|].
  destruct (x =? y); lia.
Qed.

Lemma special_loop_chosen subsets alpha_a :
  ∀ tries uncovered chosen chosen' uncovered',
    special_loop tries alpha_a subsets uncovered chosen
      = Some (chosen', uncovered') →
    chosen' = chosen ++ map (λ learn, index_of learn alpha_a) tries ∧
    (tries ≠ [] → length alpha_a = length subsets) ∧
    Forall (λ learn, learn ∈ alpha_a) tries.
Proof.
  induction tries as [|learn rest IH]; intros u c c' u'; simpl.
  - intros [= <- <-]. by rewrite app_nil_r.
  - destruct (subsets !! index_of learn alpha_a) as [s|] eqn:Hs; [|done].
    destruct (Nat.eqb_spec (length alpha_a) (length subsets)) as [He|];
      [|done].
    intros (-> & _ & Hall)%IH. split; [by rewrite <- app_assoc|].
    split; [done|]. constructor; [|done].
    apply index_of_lt. apply lookup_lt_Some in Hs. lia.
Qed.

Lemma special_loop_total subsets alpha_a :
  length alpha_a = length subsets →
  ∀ tries uncovered chosen,
    Forall (λ learn, learn ∈ alpha_a) tries →
    is_Some (special_loop tries alpha_a subsets uncovered chosen).
Proof.
  intros Hlen. induction tries as [|learn rest IH]; intros u c Hall; simpl.
  - done.
  - apply Forall_cons in Hall as [Hin Hall].
    apply index_of_lt in Hin. rewrite Hlen in Hin.
    destruct (lookup_lt_is_Some_2 _ _ Hin) as [s ->].
    rewrite Hlen, Nat.eqb_refl. by apply IH.
Qed.

(** X15: [greedySetCoverSpecial] passes its assertions exactly when the
    schedule batch is empty, or there are as many coverage sets as
    antecedents and every scheduled literal is an antecedent; the indices
    it returns are then the positions of the scheduled literals in
    [alpha_a], in schedule order. *)
Theorem greedySetCoverSpecial_defined (curr_global_try alpha_a : list Z)
    (subsets : list (gset Z)) (total_elements : list Z) :
  (is_Some (greedySetCoverSpecial curr_global_try alpha_a subsets
              total_elements) ↔
   curr_global_try = [] ∨
   (length alpha_a = length subsets ∧
    Forall (λ learn, learn ∈ alpha_a) curr_global_try)) ∧
  ∀ chosen residual,
    greedySetCoverSpecial curr_global_try alpha_a subsets total_elements
      = Some (chosen, residual) →
    chosen = map (λ learn, index_of learn alpha_a) curr_global_try.
Proof.
  unfold greedySetCoverSpecial. split.
  - split.
    + destruct (special_loop _ _ _ _ _) as [[c u]|] eqn:Hl;
        [|by intros [? [=]]].
      intros _. apply special_loop_chosen in Hl as (_ & Hlen & Hall).
      destruct curr_global_try; [by left|right]. split; [by apply Hlen|done].
    + intros [->|[Hlen Hall]]; [done|].
      destruct (special_loop_total subsets alpha_a Hlen curr_global_try
                  (list_to_set total_elements) [] Hall) as [[c u] ->].
      done.
  - intros chosen residual.
    destruct (special_loop _ _ _ _ _) as [[c u]|] eqn:Hl; [|done].
    intros [= <- <-]. by apply special_loop_chosen in Hl as (-> & _).
Qed.

(** ** The sorts *)

(** Insertion by a key, descending: used for both sorts. *)
Lemma insert_by_level_perm (lv : Z → Z) x l :
  insert_by_level lv x l ≡ₚ x :: l.
Proof.
  induction l as [|y l IH]; simpl; [done|].
  destruct (lv y <? lv x); [done|]. rewrite IH. apply Permutation_swap.
Qed.

Lemma insert_by_level_sorted (lv : Z → Z) x l :
  StronglySorted (λ a b, lv b ≤ lv a) l →
  StronglySorted (λ a b, lv b ≤ lv a) (insert_by_level lv x l).
Proof.
  induction 1 as [|y l Hs IH Hall]; simpl.
  - repeat constructor.
  - destruct (Z.ltb_spec (lv y) (lv x)) as [Hlt|Hge].
    + constructor; [by constructor|]. constructor; [lia|].
      eapply Forall_impl; [exact Hall|]. simpl. intros; lia.
    + constructor; [done|].
      rewrite insert_by_level_perm. by constructor.
Qed.

(** X22: [sort_vec_by_decision_level] permutes the clause and leaves
    it ordered by descending decision level: no literal stands before one
    of a higher level, so the first literal has the highest. *)
Theorem sort_vec_by_decision_level_sorted (lv : Z → Z) (v : list Z) :
  sort_vec_by_decision_level lv v ≡ₚ v ∧
  StronglySorted (λ a b, lv b ≤ lv a) (sort_vec_by_decision_level lv v).
Proof.
  unfold sort_vec_by_decision_level. induction v as [|x v [IHp IHs]]; simpl.
  - split; [done|constructor].
  - split.
    + by rewrite insert_by_level_perm, IHp.
    + by apply insert_by_level_sorted.
Qed.

Lemma insert_by_count_perm p l : insert_by_count p l ≡ₚ p :: l.
Proof.
  induction l as [|q l IH]; simpl; [done|].
  destruct (q.2 <? p.2); [done|]. rewrite IH. apply Permutation_swap.
Qed.

Lemma insert_by_count_sorted p l :
  StronglySorted (λ a b : Z * Z, b.2 ≤ a.2) l →
  StronglySorted (λ a b : Z * Z, b.2 ≤ a.2) (insert_by_count p l).
Proof.
  induction 1 as [|q l Hs IH Hall]; simpl.
  - repeat constructor.
  - destruct (Z.ltb_spec (q.2) (p.2)) as [Hlt|Hge].
    + constructor; [by constructor|]. constructor; [lia|].
      eapply Forall_impl; [exact Hall|]. simpl. intros; lia.
    + constructor; [done|].
      rewrite insert_by_count_perm. by constructor.
Qed.

Section Sorted.
Context {St : Type} `{Collaborators St}.

(** X8: [get_sorted_literals] always returns, leaves the state as it
    is, and its result is a permutation of the active variables of
    [1 .. max_var] in which the number of occurrences in the clauses that
    are not garbage never increases from one variable to the next. *)
Theorem get_sorted_literals_spec (i : Internal St) :
  ∃ sorted_literals,
    get_sorted_literals i = Some (sorted_literals, i) ∧
    sorted_literals ≡ₚ
      filter (λ v, ext_active (solver i) v = true)
             (map Z.of_nat (seq 1 (Z.to_nat (ext_max_var (solver i))))) ∧
    StronglySorted
      (λ a b, count_occurrences (solver i) b ≤ count_occurrences (solver i) a)
      sorted_literals.
Proof.
  unfold get_sorted_literals, mbind, M_bind, read. simpl.
  set (vars := filter _ _).
  set (cnt := count_occurrences (solver i)).
  eexists. split; [reflexivity|].
  assert (∀ l : list (Z * Z),
            foldr insert_by_count [] l ≡ₚ l ∧
            StronglySorted (λ a b : Z * Z, b.2 ≤ a.2)
              (foldr insert_by_count [] l)) as Hsort.
  { induction l as [|p l [IHp IHs]]; simpl.
    - split; [done|constructor].
    - split; [by rewrite insert_by_count_perm, IHp|].
      by apply insert_by_count_sorted. }
  destruct (Hsort (map (λ v, (v, cnt v)) vars)) as [Hp Hs].
  split.
  - rewrite Hp, map_map. simpl. by rewrite map_id.
  - assert (Forall (λ p : Z * Z, p.2 = cnt p.1)
              (foldr insert_by_count [] (map (λ v, (v, cnt v)) vars)))
      as Hcnt.
    { rewrite Hp. apply Forall_forall. intros p Hin.
      apply list_elem_of_fmap in Hin as (v & -> & _). done. }
    revert Hs Hcnt.
    generalize (foldr insert_by_count [] (map (λ v, (v, cnt v)) vars)).
    induction 1 as [|p l Hs IH Hall]; intros Hcnt; simpl; [constructor|].
    apply Forall_cons in Hcnt as [Hp1 Hcnt].
    constructor; [by apply IH|].
    rewrite Forall_fmap. rewrite Forall_forall in Hall, Hcnt.
    apply Forall_forall. intros q Hq. simpl.
    rewrite <- Hp1, <- (Hcnt q Hq). by apply Hall.
Qed.
End Sorted.

Lemma insert_at_perm (l : list Z) : ∀ j x y,
  l !! j = Some y → y :: <[j := x]> l ≡ₚ x :: l.
Proof.
  induction l as [|a l IH]; intros [|j] x y Hj; simpl in *; try done.
  - injection Hj as ->. apply Permutation_swap.
  - rewrite (Permutation_swap a y), (IH _ _ _ Hj). apply Permutation_swap.
Qed.

Lemma swap_perm (l : list Z) : ∀ i j x y,
  l !! i = Some x → l !! j = Some y → i ≠ j →
  <[i := y]> (<[j := x]> l) ≡ₚ l.
Proof.
  induction l as [|a l IH]; intros [|i] [|j] x y Hi Hj Hne;
    simpl in *; try done.
  - injection Hi as ->. by apply insert_at_perm.
  - injection Hj as ->. symmetry. rewrite <- (insert_at_perm l i y x Hi).
    done.
  - f_equiv. eapply IH; eauto.
Qed.

Section Sort.
Context {St : Type} `{Collaborators St}.

Lemma imp_sort_inner_perm i js : ∀ l (st st' : Internal St) l',
  (i < length l)%nat →
  Forall (λ j, (i < j < length l)%nat) js →
  imp_sort_inner i js l st = Some (l', st') → l' ≡ₚ l.
Proof.
  induction js as [|j js IH]; intros l st st' l' Hi Hjs Hr; simpl in Hr.
  - by injection Hr as <- <-.
  - apply Forall_cons in Hjs as [Hj Hjs].
    apply bind_Some in Hr as (b & st1 & _ & Hr).
    destruct (lookup_lt_is_Some_2 l i Hi) as [x Hx].
    destruct (lookup_lt_is_Some_2 l j ltac:(lia)) as [y Hy].
    rewrite (nth_lookup_Some _ _ _ _ Hx), (nth_lookup_Some _ _ _ _ Hy) in Hr.
    destruct b.
    + apply IH in Hr.
      * rewrite Hr. eapply swap_perm; eauto. lia.
      * by rewrite !length_insert.
      * by rewrite !length_insert.
    + by apply IH in Hr.
Qed.

Lemma imp_sort_outer_perm idxs : ∀ l (st st' : Internal St) l',
  imp_sort_outer idxs l st = Some (l', st') → l' ≡ₚ l.
Proof.
  induction idxs as [|i idxs IH]; intros l st st' l' Hr; simpl in Hr.
  - by injection Hr as <- <-.
  - apply bind_Some in Hr as (l1 & st1 & H1 & Hr).
    apply IH in Hr. rewrite Hr.
    destruct (decide (i < length l)%nat) as [Hi|Hi].
    + eapply imp_sort_inner_perm; [exact Hi| |exact H1].
      apply Forall_forall. intros j Hj. apply elem_of_seq in Hj. lia.
    + replace (length l - S i)%nat with 0%nat in H1 by lia.
      simpl in H1. by injection H1 as <- <-.
Qed.

(** X14: with the random order off, whenever [custom_sort_alpha_a]
    returns (no comparison of [compare_alpha_a] met a conflict) the vector
    it hands back is a permutation of the one it was given; with the
    implication sort off as well it is the same vector and the solver is
    untouched. *)
Theorem custom_sort_alpha_a_permutes (alpha_a sorted : list Z)
    (i i' : Internal St) :
  globalalphaarandom (opts i) = false →
  custom_sort_alpha_a alpha_a i = Some (sorted, i') →
  sorted ≡ₚ alpha_a ∧
  (globalalphaasort (opts i) = false → sorted = alpha_a ∧ i' = i).
Proof.
  intros Hrand. unfold custom_sort_alpha_a, mbind, M_bind, read. simpl.
  destruct (globalalphaasort (opts i)).
  - intros Hr. split; [|done]. by apply imp_sort_outer_perm in Hr.
  - rewrite Hrand. intros [= <- <-]. done.
Qed.
End Sort.

(** ** The scan of [least_conditional_part] *)

(** ** The scan of [least_conditional_part] *)

Lemma touch_keys lit m k :
  k ∈ (touch lit m).*1 ↔ k = lit ∨ k ∈ m.*1.
Proof.
  induction m as [|[k0 n] m IH]; simpl.
  - rewrite list_elem_of_singleton. set_solver.
  - destruct (Z.ltb_spec lit k0); [simpl; set_solver|].
    destruct (Z.eqb_spec lit k0) as [->|Hne]; simpl; [set_solver|].
    rewrite !elem_of_cons, IH. tauto.
Qed.

Lemma touch_sorted lit m :
  StronglySorted Z.lt m.*1 → StronglySorted Z.lt (touch lit m).*1.
Proof.
  induction m as [|[k0 n] m IH]; simpl; intros Hs.
  - repeat constructor.
  - apply StronglySorted_inv in Hs as [Hs Hall].
    destruct (Z.ltb_spec lit k0) as [Hlt|Hge]; simpl.
    + constructor; [by constructor|]. constructor; [done|].
      eapply Forall_impl; [exact Hall|]. simpl. intros; lia.
    + destruct (Z.eqb_spec lit k0) as [->|Hne]; simpl.
      * by constructor.
      * constructor; [by apply IH|].
        apply Forall_forall. intros k Hk. apply touch_keys in Hk as [->|Hk].
        -- lia.
        -- rewrite Forall_forall in Hall. by apply Hall.
Qed.

Section Scan.
Context {St : Type} `{Collaborators St}.

(** What the second loop over a clause appends to [alpha_touches] and
    which keys it adds to [times_touched]. *)
Lemma scan_literals_spec (s : St) marks lits :
  ∀ sat tt touches sat' tt' touches',
    scan_literals s marks lits sat tt touches = (sat', tt', touches') →
    touches' = touches ++
      filter (λ l, ext_val s l < 0 ∧ is_fixed (ext_flags s l) = false ∧
                   getbit_in (ext_max_var s) marks l = false) lits ∧
    (∀ k, k ∈ tt'.*1 ↔ k ∈ tt.*1 ∨ (k ∈ lits ∧ 0 < ext_val s k)) ∧
    (StronglySorted Z.lt tt.*1 → StronglySorted Z.lt tt'.*1).
Proof.
  induction lits as [|l lits IH]; intros sat tt touches sat' tt' touches' Hs;
    simpl in Hs.
  - injection Hs as <- <- <-. rewrite app_nil_r. split; [done|].
    split; [set_solver|done].
  - rewrite filter_cons.
    destruct (Z.ltb_spec 0 (ext_val s l)) as [Hpos|Hnpos].
    { apply IH in Hs as (-> & Hk & Hsort).
      rewrite decide_False by lia. split; [done|]. split.
      - intros k. rewrite Hk, touch_keys, elem_of_cons.
        split; [intros [[->|?]|[? ?]]|intros [?|[[->|?] ?]]]; eauto.
      - intros Hs. by apply Hsort, touch_sorted. }
    assert (∀ k, (k ∈ tt.*1 ∨ k ∈ lits ∧ 0 < ext_val s k) ↔
                 (k ∈ tt.*1 ∨ k ∈ l :: lits ∧ 0 < ext_val s k)) as Hkeys.
    { intros k. rewrite elem_of_cons.
      split; [intros [?|[? ?]]|intros [?|[[->|?] ?]]]; eauto. lia. }
    destruct (Z.ltb_spec (ext_val s l) 0) as [Hneg|Hnneg].
    + destruct (is_fixed (ext_flags s l)) eqn:Hfix.
      { apply IH in Hs as (-> & Hk & Hsort).
        rewrite decide_False by (intros (? & ? & ?); done).
        split; [done|]. split; [|done]. intros k. by rewrite Hk. }
      destruct (getbit_in (ext_max_var s) marks l) eqn:Hbit; simpl in Hs.
      * apply IH in Hs as (-> & Hk & Hsort).
        rewrite decide_False by (intros (? & ? & ?); done).
        split; [done|]. split; [|done]. intros k. by rewrite Hk.
      * apply IH in Hs as (-> & Hk & Hsort).
        rewrite decide_True by done.
        split; [by rewrite <- app_assoc|]. split; [|done].
        intros k. by rewrite Hk.
    + apply IH in Hs as (-> & Hk & Hsort).
      rewrite decide_False by lia.
      split; [done|]. split; [|done]. intros k. by rewrite Hk.
Qed.

(** The loop over the clauses: the literals appended to [neg_alpha_c] are
    false and not fixed; the keys of [times_touched] are true and in
    ascending order. *)
Lemma scan_clauses_spec (s : St) cs :
  ∀ marks neg tt marks' neg' tt',
    scan_clauses s cs marks neg tt = (marks', neg', tt') →
    (∃ added, neg' = neg ++ added ∧
       Forall (λ l, ext_val s l < 0 ∧ is_fixed (ext_flags s l) = false)
              added) ∧
    (Forall (λ k, 0 < ext_val s k) tt.*1 →
     Forall (λ k, 0 < ext_val s k) tt'.*1) ∧
    (StronglySorted Z.lt tt.*1 → StronglySorted Z.lt tt'.*1).
Proof.
  induction cs as [|c cs IH]; intros marks neg tt marks' neg' tt' Hs;
    simpl in Hs.
  - injection Hs as <- <- <-. split; [|done].
    exists []. by rewrite app_nil_r.
  - destruct (redundant c && negb (ext_proof s)); [by apply IH in Hs|].
    destruct (garbage c); [by apply IH in Hs|].
    destruct (skip_clause s c); [by apply IH in Hs|].
    destruct (scan_literals s marks (literals c) false tt [])
      as [[sat tt1] touches] eqn:Hl.
    apply scan_literals_spec in Hl as (Ht & Hk & Hsort). simpl in Ht.
    assert (Forall (λ k, 0 < ext_val s k) tt.*1 →
            Forall (λ k, 0 < ext_val s k) tt1.*1) as Hpos.
    { rewrite !Forall_forall. intros Hall k Hin.
      apply Hk in Hin as [Hin|[_ ?]]; [by apply Hall|done]. }
    destruct sat.
    + apply IH in Hs as (Hadd & Hp & Hso). split; [done|]. split; eauto.
    + apply IH in Hs as ((added & -> & Hadd) & Hp & Hso).
      split; [|split; eauto].
      exists (touches ++ added). split; [by rewrite app_assoc|].
      apply Forall_app. split; [|done]. subst touches.
      apply Forall_forall. intros l Hin.
      apply list_elem_of_filter in Hin as [(? & ? & ?) _]. done.
Qed.

(** The loop over [times_touched]: the unmarked keys in order, and one
    candidate clause per key that is not a decision. *)
Lemma collect_keys_spec (s : St) marks neg tt :
  ∀ cta aa cta' aa',
    collect_keys s marks tt neg cta aa = (cta', aa') →
    ∃ keys, keys `sublist_of` tt.*1 ∧ aa' = aa ++ keys ∧
      cta' = cta ++ map (λ k, neg ++ [k])
                     (filter (λ k, ext_is_decision s k = false) keys).
Proof.
  induction tt as [|[key n] tt IH]; intros cta aa cta' aa' Hc; simpl in Hc.
  - injection Hc as <- <-. exists []. by rewrite !app_nil_r.
  - destruct (getbit_in (ext_max_var s) marks key); simpl in Hc.
    + apply IH in Hc as (keys & Hsub & -> & ->).
      exists keys. split; [|done]. by apply sublist_cons.
    + apply IH in Hc as (keys & Hsub & -> & ->).
      exists (key :: keys). split; [by apply sublist_skip|].
      split; [by rewrite <- app_assoc|].
      destruct (ext_is_decision s key) eqn:Hd; simpl.
      * rewrite filter_cons_False by (by rewrite Hd). done.
      * rewrite filter_cons_True by done. simpl. by rewrite <- app_assoc.
Qed.

Lemma collect_conditional_part_run (i : Internal St) :
  ∃ marks' neg tt cta aa,
    scan_clauses (solver i) (ext_clauses (solver i)) (globalmarks i) [] []
      = (marks', neg, tt) ∧
    collect_keys (solver i) marks' tt neg [] [] = (cta, aa) ∧
    collect_conditional_part i =
      Some ((neg, cta, aa),
            {| solver := solver i; opts := opts i;
               globalmarks := unset_marks (ext_max_var (solver i)) neg marks';
               global_try := global_try i; outFile := outFile i;
               outFile_pr := outFile_pr i;
               clock := clock i |}).
Proof.
  unfold collect_conditional_part, mbind, M_bind. simpl.
  destruct (scan_clauses (solver i) (ext_clauses (solver i))
              (globalmarks i) [] []) as [[marks' neg] tt] eqn:Hs.
  simpl.
  destruct (collect_keys (solver i) marks' tt neg [] []) as [cta aa] eqn:Hk.
  rewrite for_each_unsetbit. simpl.
  by exists marks', neg, tt, cta, aa.
Qed.

Lemma Forall_sublist {A} (P : A → Prop) (l k : list A) :
  k `sublist_of` l → Forall P l → Forall P k.
Proof.
  rewrite !Forall_forall. intros Hsub Hall x Hx.
  eapply Hall, elem_of_sublist; eauto.
Qed.

Lemma StronglySorted_sublist (l k : list Z) :
  k `sublist_of` l → StronglySorted Z.lt l → StronglySorted Z.lt k.
Proof.
  induction 1 as [|x k l Hsub IH|x k l Hsub IH]; intros Hs.
  - constructor.
  - apply StronglySorted_inv in Hs as [Hs Hall].
    constructor; [by apply IH|]. by eapply Forall_sublist.
  - apply StronglySorted_inv in Hs as [Hs Hall]. by apply IH.
Qed.

(** X25: steps 1 to 3 of [least_conditional_part] always return and
    leave the solver as it is; every literal of [neg_alpha_c] is false and
    not fixed, every literal of [alpha_a] is true, [alpha_a] is in
    strictly ascending order, and the candidate clauses are
    [neg_alpha_c] followed by [key], one for every [key] of [alpha_a]
    that is not a decision, in the order of [alpha_a]. *)
Theorem collect_conditional_part_spec (i : Internal St) :
  ∃ neg_alpha_c clauses_to_add alpha_a i',
    collect_conditional_part i
      = Some ((neg_alpha_c, clauses_to_add, alpha_a), i') ∧
    solver i' = solver i ∧
    Forall (λ l, ext_val (solver i) l < 0 ∧
                 ext_flags (solver i) l ≠ FIXED) neg_alpha_c ∧
    Forall (λ k, 0 < ext_val (solver i) k) alpha_a ∧
    StronglySorted Z.lt alpha_a ∧
    clauses_to_add =
      map (λ k, neg_alpha_c ++ [k])
          (filter (λ k, ext_is_decision (solver i) k = false) alpha_a).
Proof.
  destruct (collect_conditional_part_run i)
    as (marks' & neg & tt & cta & aa & Hs & Hk & Hrun).
  exists neg, cta, aa. eexists. split; [exact Hrun|]. simpl.
  split; [done|].
  apply scan_clauses_spec in Hs as ((added & Hn & Hadd) & Hpos & Hsort).
  simpl in Hn. subst added.
  apply collect_keys_spec in Hk as (keys & Hsub & Ha & Hc).
  simpl in Ha, Hc. subst aa cta.
  split.
  { eapply Forall_impl; [exact Hadd|]. simpl. intros l [? Hf].
    split; [done|]. intros Hfix. by rewrite Hfix in Hf. }
  split.
  { eapply Forall_sublist; [exact Hsub|]. apply Hpos. constructor. }
  split; [|done].
  eapply StronglySorted_sublist; [exact Hsub|]. apply Hsort. constructor.
Qed.
End Scan.

Lemma length_set_marks mv lits : ∀ marks,
  length (set_marks mv lits marks) = length marks.
Proof.
  unfold set_marks. induction lits as [|l lits IH]; intros marks; simpl.
  - done.
  - rewrite IH. unfold setbit_in. by rewrite length_insert.
Qed.

Lemma length_unset_marks mv lits : ∀ marks,
  length (unset_marks mv lits marks) = length marks.
Proof.
  unfold unset_marks. induction lits as [|l lits IH]; intros marks; simpl.
  - done.
  - rewrite IH. unfold unsetbit_in. by rewrite length_insert.
Qed.

Lemma getbit_setbit mv marks a l :
  bit_in_range mv marks a → bit_in_range mv marks l →
  getbit_in mv (setbit_in mv marks a) l = true ↔
  getbit_in mv marks l = true ∨ l = a.
Proof.
  unfold bit_in_range, getbit_in, setbit_in, mark_index. intros Ha Hl.
  destruct (decide (l = a)) as [->|Hne].
  - rewrite list_lookup_insert_eq by lia. simpl. tauto.
  - rewrite list_lookup_insert_ne by lia. tauto.
Qed.

Lemma getbit_set_marks mv added : ∀ marks l,
  Forall (bit_in_range mv marks) added → bit_in_range mv marks l →
  getbit_in mv (set_marks mv added marks) l = true ↔
  getbit_in mv marks l = true ∨ l ∈ added.
Proof.
  induction added as [|a added IH]; intros marks l Hall Hl.
  - simpl. set_solver.
  - apply Forall_cons in Hall as [Ha Hall].
    change (set_marks mv (a :: added) marks)
      with (set_marks mv added (setbit_in mv marks a)).
    assert (∀ x, bit_in_range mv marks x →
                 bit_in_range mv (setbit_in mv marks a) x) as Hr.
    { unfold bit_in_range, setbit_in. intros x. by rewrite length_insert. }
    rewrite IH; [|eapply Forall_impl; eauto|by apply Hr].
    rewrite getbit_setbit by done. rewrite elem_of_cons. tauto.
Qed.

Section NoDup.
Context {St : Type} `{Collaborators St}.

Lemma scan_clauses_nodup (s : St) (n : nat) cs :
  Forall (λ c, NoDup (literals c) ∧
               Forall (λ l, 0 ≤ l + ext_max_var s < Z.of_nat n)
                      (literals c)) cs →
  ∀ marks neg tt marks' neg' tt',
    length marks = n →
    NoDup neg →
    Forall (λ l, 0 ≤ l + ext_max_var s < Z.of_nat n) neg →
    (∀ l, 0 ≤ l + ext_max_var s < Z.of_nat n →
          getbit_in (ext_max_var s) marks l = true ↔ l ∈ neg) →
    scan_clauses s cs marks neg tt = (marks', neg', tt') →
    NoDup neg'.
Proof.
  induction 1 as [|c cs [Hnd Hrange] Hcs IH];
    intros marks neg tt marks' neg' tt' Hlen Hneg Hnr Hbits Hs;
    simpl in Hs.
  - by injection Hs as <- <- <-.
  - destruct (redundant c && negb (ext_proof s)); [by eapply IH|].
    destruct (garbage c); [by eapply IH|].
    destruct (skip_clause s c); [by eapply IH|].
    destruct (scan_literals s marks (literals c) false tt [])
      as [[sat tt1] touches] eqn:Hl.
    apply scan_literals_spec in Hl as (Ht & _ & _). simpl in Ht.
    destruct sat; [by eapply IH|].
    assert (Forall (λ l, 0 ≤ l + ext_max_var s < Z.of_nat n) touches)
      as Htr.
    { subst touches. apply Forall_forall. intros l Hin.
      apply list_elem_of_filter in Hin as [_ Hin].
      rewrite Forall_forall in Hrange. by apply Hrange. }
    eapply IH; [| | | |exact Hs].
    + by rewrite length_set_marks.
    + apply NoDup_app. split; [done|]. split.
      * intros l Hin Hin'. subst touches.
        apply list_elem_of_filter in Hin' as [(_ & _ & Hbit) Hlit].
        rewrite Forall_forall in Hnr.
        apply Hbits in Hin; [|by apply Hnr]. congruence.
      * subst touches. by apply NoDup_filter.
    + by apply Forall_app.
    + intros l Hl. rewrite getbit_set_marks.
      * rewrite Hbits by done. by rewrite elem_of_app.
      * unfold bit_in_range. by rewrite Hlen.
      * unfold bit_in_range. by rewrite Hlen.
Qed.

(** X26: when every bit of [globalmarks] is unset on entry, no clause
    repeats a literal and every literal of a clause has its bit within
    the bitset, no literal occurs twice in [neg_alpha_c], and no candidate
    clause repeats a literal. *)
Theorem neg_alpha_c_no_duplicates (i i' : Internal St)
    (neg_alpha_c : list Z) (clauses_to_add : list (list Z))
    (alpha_a : list Z) :
  all_clear (globalmarks i) →
  Forall (λ c, NoDup (literals c) ∧
               Forall (λ l, 0 ≤ l + ext_max_var (solver i)
                            < Z.of_nat (length (globalmarks i)))
                      (literals c)) (ext_clauses (solver i)) →
  collect_conditional_part i
    = Some ((neg_alpha_c, clauses_to_add, alpha_a), i') →
  NoDup neg_alpha_c ∧ Forall (λ c, NoDup c) clauses_to_add.
Proof.
  intros Hclear Hcs Hrun.
  destruct (collect_conditional_part_run i)
    as (marks' & neg & tt & cta & aa & Hs & Hk & Hrun').
  rewrite Hrun' in Hrun. injection Hrun as <- <- <- _.
  assert (NoDup neg) as Hnd.
  { eapply scan_clauses_nodup; [exact Hcs|reflexivity| | | |exact Hs].
    - constructor.
    - constructor.
    - intros l Hl. unfold getbit_in.
      destruct (globalmarks i !! mark_index (ext_max_var (solver i)) l)
        as [b|] eqn:Hb; simpl.
      + eapply Forall_lookup in Hclear; [|exact Hb]. subst b.
        split; [done|]. by intros ?%elem_of_nil.
      + split; [done|]. by intros ?%elem_of_nil. }
  split; [done|].
  apply scan_clauses_spec in Hs as ((added & Hn & Hadd) & Hpos & Hsort).
  simpl in Hn. subst added.
  apply collect_keys_spec in Hk as (keys & Hsub & Ha & ->). simpl.
  apply Forall_forall. intros c Hc.
  apply list_elem_of_fmap in Hc as (k & -> & Hk).
  apply list_elem_of_filter in Hk as [_ Hk].
  apply NoDup_app. split; [done|]. split; [|apply NoDup_singleton].
  intros l Hl ->%list_elem_of_singleton.
  rewrite Forall_forall in Hadd. destruct (Hadd _ Hl) as [Hneg _].
  assert (0 < ext_val (solver i) k); [|lia].
  assert (Forall (λ k, 0 < ext_val (solver i) k) tt.*1) as Hp
    by (apply Hpos; constructor).
  rewrite Forall_forall in Hp. apply Hp.
  eapply elem_of_sublist; [exact Hk|exact Hsub].
Qed.
End NoDup.

(** ** The shrink loops and the schedule-directed selection *)

(** ** The shrink loops *)

Lemma erase_linked_spec c a neg neg' :
  erase_linked c a neg = Some neg' →
  neg' `sublist_of` neg ∧ length neg = S (length neg').
Proof.
  revert neg'. induction neg as [|r neg IH]; intros neg' He; simpl in He.
  - done.
  - destruct (links c a r).
    + injection He as <-. split; [by apply sublist_cons|done].
    + destruct (erase_linked c a neg) as [rest|]; [|done].
      injection He as <-. destruct (IH rest eq_refl) as [Hs Hl].
      split; [by apply sublist_skip|]. simpl. by rewrite Hl.
Qed.

Lemma scan_watches_spec ws a : ∀ neg keep neg' keep',
  scan_watches ws a neg keep = (neg', keep') →
  neg' `sublist_of` neg ∧
  (if keep' then keep = true ∨ (length neg' < length neg)%nat
   else keep = false ∧ neg' = neg).
Proof.
  induction ws as [|c ws IH]; intros neg keep neg' keep' Hs; simpl in Hs.
  - injection Hs as <- <-. split; [done|]. destruct keep; auto.
  - destruct (erase_linked c a neg) as [neg1|] eqn:He.
    + apply erase_linked_spec in He as [Hsub Hlen].
      apply IH in Hs as [Hsub' Hk]. split; [by etrans|].
      destruct keep'.
      * right. apply sublist_length in Hsub'. lia.
      * by destruct Hk.
    + by apply IH in Hs.
Qed.

Lemma erase_falsified_spec v neg : ∀ keep neg' keep',
  erase_falsified v neg keep = (neg', keep') →
  neg' = filter (λ r, ¬ v r < 0) neg ∧
  (if keep' then keep = true ∨ (length neg' < length neg)%nat
   else keep = false ∧ neg' = neg).
Proof.
  induction neg as [|r neg IH]; intros keep neg' keep' He; simpl in He.
  - injection He as <- <-. split; [done|]. destruct keep; auto.
  - destruct (Z.ltb_spec (v r) 0) as [Hlt|Hge].
    + apply IH in He as [-> Hk].
      rewrite filter_cons_False by lia. split; [done|].
      pose proof (length_filter (λ r, ¬ v r < 0) neg).
      destruct keep'.
      * right. simpl. lia.
      * by destruct Hk.
    + destruct (erase_falsified v neg keep) as [rest k] eqn:Hr.
      injection He as <- <-.
      destruct (IH _ _ _ Hr) as [-> Hk].
      rewrite filter_cons_True by lia. split; [done|].
      destruct k.
      * destruct Hk as [?|?]; [by left|right; simpl; lia].
      * destruct Hk as [-> Hk]. split; [done|]. by rewrite Hk at 1.
Qed.

Section Shrink.
Context {St : Type} `{Collaborators St}.

(** X20: the loop of [bcp_shrink] only reads the solver; on the
    function's copies it only deletes from the residual and only appends
    antecedents, in order and none of them fixed; every antecedent it
    keeps has deleted a residual literal, so it keeps none exactly when
    the residual is untouched. *)
Theorem bcp_shrink_body_shrinks (alpha_a : list Z) :
  ∀ (alpha_a_useful neg_alpha_c_minus_c0 useful' residual' : list Z)
    (i i' : Internal St),
    bcp_shrink_body alpha_a alpha_a_useful neg_alpha_c_minus_c0 i
      = Some ((useful', residual'), i') →
    i' = i ∧ residual' `sublist_of` neg_alpha_c_minus_c0 ∧
    ∃ kept, useful' = alpha_a_useful ++ kept ∧ kept `sublist_of` alpha_a ∧
            Forall (λ a, ext_flags (solver i) a ≠ FIXED) kept ∧
            (length kept + length residual'
               ≤ length neg_alpha_c_minus_c0)%nat ∧
            (kept = [] → residual' = neg_alpha_c_minus_c0).
Proof.
  induction alpha_a as [|a rest IH]; intros u n u' n' i i' Hb; simpl in Hb.
  - injection Hb as <- <- <-. split; [done|]. split; [done|].
    exists []. rewrite app_nil_r. repeat split; auto; simpl; lia.
  - unfold mbind at 1, M_bind, flags, read in Hb. simpl in Hb.
    destruct (is_fixed (ext_flags (solver i) a)) eqn:Hfix.
    { apply IH in Hb as (-> & Hsub & kept & -> & Hk & Hnf & Hlen & He).
      split; [done|]. split; [done|].
      exists kept. repeat split; auto. by apply sublist_cons. }
    unfold mbind at 1, M_bind, watches, read in Hb. simpl in Hb.
    destruct (scan_watches (ext_watches (solver i) a) a n false)
      as [n1 keep] eqn:Hs.
    apply scan_watches_spec in Hs as [Hsub1 Hkeep].
    apply IH in Hb as (-> & Hsub & kept & -> & Hk & Hnf & Hlen & He).
    split; [done|]. split; [by etrans|].
    destruct keep.
    + exists (a :: kept). rewrite <- app_assoc. split; [done|].
      split; [by apply sublist_skip|]. split.
      { constructor; [|done]. intros Hf. by rewrite Hf in Hfix. }
      split; [|done]. destruct Hkeep as [?|?]; [done|]. simpl. lia.
    + destruct Hkeep as [_ ->]. exists kept.
      repeat split; auto. by apply sublist_cons.
Qed.

(** X21: when the loop of [propagate_shrink] runs to its end, its copy
    of the residual is a sublist of what it started from and its copy of
    the useful antecedents has grown by a sublist of [alpha_a]; every
    antecedent it keeps has deleted a residual literal. *)
Theorem propagate_shrink_body_shrinks (alpha_a : list Z) :
  ∀ (alpha_a_useful neg_alpha_c_minus_c0 useful' residual' : list Z)
    (i i' : Internal St),
    propagate_shrink_body alpha_a alpha_a_useful neg_alpha_c_minus_c0 i
      = Some (inr (useful', residual'), i') →
    residual' `sublist_of` neg_alpha_c_minus_c0 ∧
    ∃ kept, useful' = alpha_a_useful ++ kept ∧ kept `sublist_of` alpha_a ∧
            (length kept + length residual'
               ≤ length neg_alpha_c_minus_c0)%nat ∧
            (kept = [] → residual' = neg_alpha_c_minus_c0).
Proof.
  induction alpha_a as [|a rest IH]; intros u n u' n' i i' Hb; simpl in Hb.
  - injection Hb as <- <- <-. split; [done|].
    exists []. rewrite app_nil_r. repeat split; auto; simpl; lia.
  - apply bind_Some in Hb as (f & i1 & _ & Hb).
    destruct (is_fixed f).
    { apply IH in Hb as (Hsub & kept & -> & Hk & Hlen & He).
      split; [done|]. exists kept. repeat split; auto.
      by apply sublist_cons. }
    apply bind_Some in Hb as ([] & i2 & _ & Hb).
    apply bind_Some in Hb as ([] & i3 & _ & Hb).
    apply bind_Some in Hb as (ok & i4 & _ & Hb).
    destruct ok.
    + apply bind_Some in Hb as (v & i5 & _ & Hb).
      destruct (erase_falsified v n false) as [n1 keep] eqn:Hs.
      apply erase_falsified_spec in Hs as [Hn1 Hkeep].
      assert (n1 `sublist_of` n) as Hsub1.
      { subst n1. apply sublist_filter. }
      apply IH in Hb as (Hsub & kept & -> & Hk & Hlen & He).
      split; [by etrans|].
      destruct keep.
      * exists (a :: kept). rewrite <- app_assoc. split; [done|].
        split; [by apply sublist_skip|].
        split; [|done]. destruct Hkeep as [?|?]; [done|]. simpl. lia.
      * destruct Hkeep as [_ Heq]. rewrite Heq in *. exists kept.
        repeat split; auto. by apply sublist_cons.
    + apply bind_Some in Hb as ([] & i5 & _ & Hb).
      apply bind_Some in Hb as (ok2 & i6 & _ & Hb).
      destruct ok2; [|done].
      apply IH in Hb as (Hsub & kept & -> & Hk & Hlen & He).
      split; [done|]. exists kept. repeat split; auto.
      by apply sublist_cons.
Qed.

(** ** The schedule-directed selection *)

Lemma special_sort_loop_spec tries alpha_a neg : ∀ g p g' p' (i i' : Internal St),
  special_sort_loop tries alpha_a neg g p i = Some (inr (g', p'), i') →
  g' = g ++ filter (λ learn, learn ∈ alpha_a) tries ∧
  p ⊆ p' ∧ p' ⊆ p ∪ list_to_set neg.
Proof.
  induction tries as [|learn tries IH]; intros g p g' p' i i' Hs;
    simpl in Hs.
  - injection Hs as <- <- <-. rewrite app_nil_r. set_solver.
  - assert (∀ i1 p1,
      special_sort_loop tries alpha_a neg
        (if bool_decide (learn ∈ alpha_a) then g ++ [learn] else g) p1 i1
        = Some (inr (g', p'), i') →
      p ⊆ p1 → p1 ⊆ p ∪ list_to_set neg →
      g' = g ++ filter (λ learn0, learn0 ∈ alpha_a) (learn :: tries) ∧
      p ⊆ p' ∧ p' ⊆ p ∪ list_to_set neg) as Hrec.
    { intros i1 p1 Hr Hp1 Hp2. apply IH in Hr as (-> & Hq1 & Hq2).
      split.
      - destruct (decide (learn ∈ alpha_a)) as [Hin|Hin].
        + rewrite bool_decide_true by done.
          rewrite filter_cons_True by done. by rewrite <- app_assoc.
        + rewrite bool_decide_false by done.
          by rewrite filter_cons_False by done.
      - set_solver. }
    apply bind_Some in Hs as ([] & i1 & _ & Hs).
    apply bind_Some in Hs as (f & i2 & _ & Hs).
    destruct (is_fixed f); [eapply Hrec; [exact Hs|set_solver..]|].
    apply bind_Some in Hs as (v & i3 & _ & Hs).
    destruct (v <? 0); [done|].
    destruct (0 <? v); [eapply Hrec; [exact Hs|set_solver..]|].
    apply bind_Some in Hs as ([] & i4 & _ & Hs).
    apply bind_Some in Hs as (ok & i5 & _ & Hs).
    destruct ok.
    + apply bind_Some in Hs as (q & i6 & Hq & Hs).
      injection Hq as <- <-.
      eapply Hrec; [exact Hs|set_solver|].
      unfold coverage. intros x [Hx|Hx]%elem_of_union; [set_solver|].
      apply elem_of_union_r. apply elem_of_list_to_set.
      apply elem_of_list_to_set in Hx.
      by apply list_elem_of_filter in Hx as [_ ?].
    + apply bind_Some in Hs as ([] & i6 & _ & Hs).
      apply bind_Some in Hs as (ok2 & i7 & _ & Hs).
      apply bind_Some in Hs as ([] & i8 & _ & Hs). done.
Qed.
End Shrink.

Lemma size_list_to_set_NoDup (l : list Z) :
  size (list_to_set l : gset Z) = length l → NoDup l.
Proof.
  induction l as [|x l IH]; intros Hs; [constructor|].
  rewrite list_to_set_cons in Hs. simpl in Hs.
  pose proof (size_list_to_set_le l) as Hle.
  destruct (decide (x ∈ l)) as [Hin|Hin].
  - replace ({[x]} ∪ list_to_set l : gset Z) with (list_to_set l : gset Z)
      in Hs by set_solver.
    lia.
  - rewrite size_union in Hs by set_solver.
    rewrite size_singleton in Hs.
    constructor; [done|]. apply IH. lia.
Qed.

Section Special.
Context {St : Type} `{Collaborators St}.

(** X18: whenever [greedy_sort_alpha_a_special] returns, the residual
    it returns is empty, and the useful antecedents are either none (the
    early return after a conflict) or the scheduled literals that occur
    in [alpha_a], in schedule order; the second case is reached only with
    a [neg_alpha_c] without repeated literals. *)
Theorem greedy_sort_alpha_a_special_result (alpha_a neg_alpha_c : list Z)
    (useful residual : list Z) (i i' : Internal St) :
  greedy_sort_alpha_a_special alpha_a neg_alpha_c i
    = Some ((useful, residual), i') →
  residual = [] ∧
  (useful = [] ∨
   (useful = filter (λ learn, learn ∈ alpha_a) (global_try i) ∧
    NoDup neg_alpha_c)).
Proof.
  unfold greedy_sort_alpha_a_special. intros Hg.
  apply bind_Some in Hg as ([] & i1 & Hb & Hg).
  injection Hb as <-.
  apply bind_Some in Hg as (tries & i2 & Ht & Hg).
  injection Ht as <- <-. simpl in Hg.
  apply bind_Some in Hg as (r & i3 & Hl & Hg).
  destruct r as [[]|[g p]].
  - injection Hg as <- <- <-. auto.
  - apply bind_Some in Hg as ([] & i4 & _ & Hg).
    destruct (Nat.eqb_spec (size p) (length neg_alpha_c)) as [Hsz|Hsz];
      [|done].
    injection Hg as <- <- <-. split; [done|]. right.
    apply special_sort_loop_spec in Hl as (-> & _ & Hsub).
    split; [done|].
    apply size_list_to_set_NoDup.
    pose proof (size_list_to_set_le neg_alpha_c).
    assert (size p ≤ size (list_to_set neg_alpha_c : gset Z))%nat.
    { apply subseteq_size. set_solver. }
    lia.
Qed.
End Special.

Section RecordedLine.
Context {St : Type} `{Collaborators St}.

Lemma remove_lit_spec lit l :
  remove_lit lit l `sublist_of` l ∧ (lit ∉ remove_lit lit l) ∧
  ∀ x, x ≠ lit → (x ∈ remove_lit lit l ↔ x ∈ l).
Proof.
  unfold remove_lit. split; [apply sublist_filter|]. split.
  - intros Hin. apply list_elem_of_filter in Hin as [? _]. done.
  - intros x Hx. rewrite list_elem_of_filter. tauto.
Qed.

(** X23: with recording on, [add_clause] appends exactly one line to
    each stream: [lit] followed by the literals of [negated_conditional]
    other than [lit], in order, and in the second stream the same line
    followed by [lit] and the literals of [autarky] other than [lit]; with
    recording off it leaves both streams alone. *)
Theorem add_clause_recorded_line (new_clause : list Z) (lit : Z)
    (negated_conditional autarky : list Z) (i i' : Internal St) :
  add_clause new_clause lit negated_conditional autarky i = Some (tt, i') →
  if globalrecord (opts i)
  then ∃ rest rest_pr,
         outFile i' = outFile i ++ [lit :: rest] ∧
         outFile_pr i' = outFile_pr i ++ [(lit :: rest) ++ lit :: rest_pr] ∧
         rest `sublist_of` negated_conditional ∧ (lit ∉ rest) ∧
         rest_pr `sublist_of` autarky ∧ (lit ∉ rest_pr) ∧
         ∀ x, x ≠ lit → ((x ∈ rest ↔ x ∈ negated_conditional) ∧
                         (x ∈ rest_pr ↔ x ∈ autarky))
  else outFile i' = outFile i ∧ outFile_pr i' = outFile_pr i.
Proof.
  unfold add_clause. intros Ha.
  apply bind_Some in Ha as (lv & i1 & Hlv & Ha). injection Hlv as <- <-.
  apply bind_Some in Ha as (o & i2 & Ho & Ha). injection Ho as <- <-.
  apply bind_Some in Ha as ([] & i3 & Hlearn & Ha).
  assert (opts i3 = opts i ∧ outFile i3 = outFile i ∧
          outFile_pr i3 = outFile_pr i) as (Ho3 & Hf3 & Hp3).
  { destruct (globallearn (opts i)).
    - destruct (1 <? length _)%nat.
      + by injection Hlearn as <-.
      + destruct (sort_vec_by_decision_level _ _); [done|].
        by injection Hlearn as <-.
    - by injection Hlearn as <-. }
  destruct (globalrecord (opts i)).
  - injection Ha as <-. simpl.
    destruct (remove_lit_spec lit negated_conditional) as (? & ? & Hn).
    destruct (remove_lit_spec lit autarky) as (? & ? & Ha).
    exists (remove_lit lit negated_conditional), (remove_lit lit autarky).
    rewrite Hf3, Hp3. repeat split; auto.
    + by apply Hn.
    + by apply Hn.
    + by apply Ha.
    + by apply Ha.
  - injection Ha as <-. done.
Qed.
End RecordedLine.

Lemma index_of_lookup (x : Z) (l : list Z) :
  x ∈ l → l !! index_of x l = Some x.
Proof.
  induction l as [|y l IH]; simpl.
  - by intros ?%elem_of_nil.
  - destruct (Z.eqb_spec x y) as [->|Hne]; [done|].
    intros [?|?]%elem_of_cons; [done|]. by apply IH.
Qed.

Lemma pick_useful_all (l tries : list Z) :
  Forall (λ learn, learn ∈ l) tries →
  pick_useful l (map (λ learn, index_of learn l) tries) = Some tries.
Proof.
  induction 1 as [|learn tries Hin Hall IH]; simpl; [done|].
  by rewrite (index_of_lookup _ _ Hin), IH.
Qed.

Lemma sublist_same_length {A} (k l : list A) :
  k `sublist_of` l → length k = length l → k = l.
Proof.
  induction 1 as [|x k l Hsub IH|x k l Hsub IH]; simpl; intros Hlen.
  - done.
  - f_equal. apply IH. lia.
  - apply sublist_length in Hsub. lia.
Qed.

Section Greedy.
Context {St : Type} `{Collaborators St}.

Lemma coverage_loop_spec alpha_a neg : ∀ u p u' p' (i i' : Internal St),
  coverage_loop alpha_a neg u p i = Some ((u', p'), i') →
  ∃ kept sets, u' = u ++ kept ∧ p' = p ++ sets ∧
               kept `sublist_of` alpha_a ∧ length sets = length kept.
Proof.
  induction alpha_a as [|a rest IH]; intros u p u' p' i i' Hc; simpl in Hc.
  - injection Hc as <- <- <-. exists [], []. by rewrite !app_nil_r.
  - assert (∀ i1, coverage_loop rest neg u p i1 = Some ((u', p'), i') →
      ∃ kept sets, u' = u ++ kept ∧ p' = p ++ sets ∧
                   kept `sublist_of` a :: rest ∧ length sets = length kept)
      as Hskip.
    { intros i1 Hr. apply IH in Hr as (kept & sets & -> & -> & Hsub & Hlen).
      exists kept, sets. repeat split; auto. by apply sublist_cons. }
    assert (∀ i1, Some ((u, p), i1) = Some ((u', p'), i') →
      ∃ kept sets, u' = u ++ kept ∧ p' = p ++ sets ∧
                   kept `sublist_of` a :: rest ∧ length sets = length kept)
      as Hstop.
    { intros i1 [= <- <- <-]. exists [], []. rewrite !app_nil_r.
      repeat split; auto. apply sublist_nil_l. }
    apply bind_Some in Hc as (f & i1 & _ & Hc).
    destruct (is_fixed f); [by eapply Hskip|].
    apply bind_Some in Hc as ([] & i2 & _ & Hc).
    apply bind_Some in Hc as ([] & i3 & _ & Hc).
    apply bind_Some in Hc as (ok & i4 & _ & Hc).
    destruct ok.
    + apply bind_Some in Hc as (q & i5 & _ & Hc).
      destruct (0 <? size q)%nat; [|by eapply Hskip].
      apply IH in Hc as (kept & sets & -> & -> & Hsub & Hlen).
      exists (a :: kept), (q :: sets). rewrite <- !app_assoc.
      repeat split; auto; [by apply sublist_skip|]. simpl. by rewrite Hlen.
    + apply bind_Some in Hc as ([] & i5 & _ & Hc).
      apply bind_Some in Hc as (un & i6 & _ & Hc).
      destruct un; [by eapply Hstop|].
      apply bind_Some in Hc as (ok2 & i7 & _ & Hc).
      destruct ok2; [by eapply Hskip|].
      apply bind_Some in Hc as ([] & i8 & _ & Hc). by eapply Hstop.
Qed.

(** X19: whenever [greedy_sort_alpha_a] returns, the useful antecedents
    it returns are exactly the scheduled literals [global_try], every one
    of which is an antecedent, and the residual lies within
    [neg_alpha_c]. *)
Theorem greedy_sort_alpha_a_returns_schedule (alpha_a neg_alpha_c : list Z)
    (useful residual : list Z) (i i' : Internal St) :
  greedy_sort_alpha_a alpha_a neg_alpha_c i
    = Some ((useful, residual), i') →
  useful = global_try i ∧
  Forall (λ learn, learn ∈ alpha_a) (global_try i) ∧
  list_to_set residual ⊆@{gset Z} list_to_set neg_alpha_c.
Proof.
  unfold greedy_sort_alpha_a. intros Hg.
  apply bind_Some in Hg as ([u p] & i1 & Hc & Hg).
  pose proof (frame_coverage_loop _ _ _ _ _ _ _ Hc) as (_ & _ & Htry & _).
  apply coverage_loop_spec in Hc as (kept & sets & Hu & Hp & Hsub & Hlen).
  simpl in Hu, Hp. subst u p.
  apply bind_Some in Hg as ([] & i2 & Hb & Hg). injection Hb as <-.
  apply bind_Some in Hg as (tries & i3 & Ht & Hg). injection Ht as <- <-.
  simpl in Hg. rewrite Htry in Hg.
  destruct (greedySetCoverSpecial (global_try i) alpha_a sets neg_alpha_c)
    as [[chosen res]|] eqn:Hs; [|done].
  unfold greedySetCoverSpecial in Hs.
  destruct (special_loop (global_try i) alpha_a sets
              (list_to_set neg_alpha_c) []) as [[c unc]|] eqn:Hl; [|done].
  injection Hs as <- <-.
  assert (list_to_set (elements unc) ⊆@{gset Z} list_to_set neg_alpha_c)
    as Hres.
  { rewrite list_to_set_elements_L.
    rewrite (special_loop_inv sets alpha_a (list_to_set neg_alpha_c)
               (global_try i) (list_to_set neg_alpha_c) [] c unc);
      [set_solver| |exact Hl].
    unfold chosen_union. simpl. set_solver. }
  apply special_loop_chosen in Hl as (-> & Hsame & Hall). simpl in Hg.
  destruct (global_try i) as [|learn tries] eqn:Hgt.
  - simpl in Hg. injection Hg as <- <- <-. done.
  - assert (kept = alpha_a) as ->.
    { apply sublist_same_length; [done|]. rewrite <- Hlen.
      symmetry. by apply Hsame. }
    rewrite pick_useful_all in Hg by done.
    injection Hg as <- <- <-. done.
Qed.
End Greedy.

(** ** Properties that every step keeps *)

Create HintDb keeps.

Section KeepsMonad.
Context {St : Type} `{Collaborators St}.
Variable P : Internal St → Prop.
Hypothesis P_solver : solver_blind P.

Lemma keeps_ret {A} (a : A) : Keeps P (mret a : M St A).
Proof. by intros i b i' [= <- <-]. Qed.

Lemma keeps_fail {A} : Keeps P (fail : M St A).
Proof. intros i b i' [=]. Qed.

Lemma keeps_bind {A B} (m : M St A) (f : A → M St B) :
  Keeps P m → (∀ a, Keeps P (f a)) → Keeps P (m ≫= f).
Proof.
  intros Hm Hf i b i' Hb HP. apply bind_Some in Hb as (a & i1 & H1 & H2).
  eapply Hf; [exact H2|]. eapply Hm; eauto.
Qed.

Lemma keeps_read {A} (f : Internal St → A) : Keeps P (read f).
Proof. by intros i b i' [= <- <-]. Qed.

Lemma keeps_with_solver (f : St → St) : Keeps P (with_solver f).
Proof. intros i b i' Hr HP. inversion Hr; subst. by apply P_solver. Qed.

Lemma keeps_propagate : Keeps P propagate.
Proof.
  intros i b i'. unfold propagate.
  destruct (ext_propagate (solver i)). intros [= <- <-] HP.
  by apply P_solver.
Qed.

Lemma keeps_random_sort l : Keeps P (random_sort_alpha_a l).
Proof.
  intros i b i'. unfold random_sort_alpha_a.
  destruct (ext_shuffle l (solver i)). intros [= <- <-] HP.
  by apply P_solver.
Qed.

Lemma keeps_rand :
  Keeps P (λ i : Internal St,
             let '(r, s) := ext_rand (solver i) in
             Some (r, {| solver := s; opts := opts i;
                         globalmarks := globalmarks i;
                         global_try := global_try i;
                         outFile := outFile i;
                         outFile_pr := outFile_pr i;
                         clock := clock i |})).
Proof.
  intros i b i'. destruct (ext_rand (solver i)). intros [= <- <-] HP.
  by apply P_solver.
Qed.
End KeepsMonad.

#[export] Hint Resolve keeps_ret keeps_fail keeps_read keeps_with_solver
  keeps_propagate keeps_random_sort keeps_rand : keeps.

(** Decompose a goal [Keeps P m] along the structure of [m]. *)
Ltac keeps_step :=
  match goal with
  | |- Keeps _ (_ ≫= _) => apply keeps_bind; [|intros ?]
  | |- Keeps _ (mbind _ _) => apply keeps_bind; [|intros ?]
  | |- Keeps _ (if ?b then _ else _) => destruct b
  | |- Keeps _ (match ?x with _ => _ end) => destruct x
  | |- Keeps _ (let '(_, _) := ?x in _) => destruct x
  | |- Keeps _ _ => solve [eauto with keeps]
  end.

Ltac keeps := repeat keeps_step.

Section KeepsCode.
Context {St : Type} `{Collaborators St}.
Variable P : Internal St → Prop.
Hypothesis P_solver : solver_blind P.

Lemma keeps_val lit : Keeps P (val lit).
Proof. apply keeps_read. Qed.
Lemma keeps_flags lit : Keeps P (flags lit).
Proof. apply keeps_read. Qed.
Lemma keeps_unsat : Keeps P (unsat (St := St)).
Proof. apply keeps_read. Qed.
Lemma keeps_level : Keeps P (level (St := St)).
Proof. apply keeps_read. Qed.
Lemma keeps_max_var : Keeps P (max_var (St := St)).
Proof. apply keeps_read. Qed.
Lemma keeps_time : Keeps P (time (St := St)).
Proof. intros i a i' [= <- <-] HP. by apply P_solver. Qed.
Lemma keeps_is_decision lit : Keeps P (is_decision lit).
Proof. apply keeps_read. Qed.
Lemma keeps_watches lit : Keeps P (watches lit).
Proof. apply keeps_read. Qed.
Lemma keeps_falsified l : Keeps P (falsified l).
Proof. apply keeps_read. Qed.
Lemma keeps_backtrack l : Keeps P (backtrack l).
Proof. by apply keeps_with_solver. Qed.
Lemma keeps_search_assume_decision l : Keeps P (search_assume_decision l).
Proof. by apply keeps_with_solver. Qed.
Lemma keeps_analyze : Keeps P (analyze (St := St)).
Proof. by apply keeps_with_solver. Qed.
#[local] Hint Resolve keeps_val keeps_flags keeps_unsat keeps_level
  keeps_max_var keeps_time keeps_is_decision keeps_watches keeps_falsified
  keeps_backtrack keeps_search_assume_decision keeps_analyze : keeps.

Lemma keeps_analyze_loop_fuel n : Keeps P (analyze_loop_fuel n).
Proof. induction n; simpl; keeps. Qed.
#[local] Hint Resolve keeps_analyze_loop_fuel : keeps.

Lemma keeps_analyze_loop : Keeps P (analyze_loop (St := St)).
Proof. unfold analyze_loop. keeps. Qed.
#[local] Hint Resolve keeps_analyze_loop : keeps.

Lemma keeps_check_range l : Keeps P (check_range l).
Proof. unfold check_range. keeps. Qed.
#[local] Hint Resolve keeps_check_range : keeps.

Lemma keeps_compare_alpha_a a b : Keeps P (compare_alpha_a a b).
Proof. unfold compare_alpha_a. keeps. Qed.
#[local] Hint Resolve keeps_compare_alpha_a : keeps.

Lemma keeps_imp_sort_inner i js : ∀ l, Keeps P (imp_sort_inner i js l).
Proof. induction js; intros l; simpl; keeps. Qed.
#[local] Hint Resolve keeps_imp_sort_inner : keeps.

Lemma keeps_imp_sort_outer idxs : ∀ l, Keeps P (imp_sort_outer idxs l).
Proof. induction idxs; intros l; simpl; keeps. Qed.
#[local] Hint Resolve keeps_imp_sort_outer : keeps.

Lemma keeps_custom_sort l : Keeps P (custom_sort_alpha_a l).
Proof. unfold custom_sort_alpha_a, imp_sort_alpha_a. keeps. Qed.
#[local] Hint Resolve keeps_custom_sort : keeps.

Lemma keeps_special_sort_loop tries a n :
  ∀ g p, Keeps P (special_sort_loop tries a n g p).
Proof. induction tries; intros g p; simpl; keeps. Qed.
#[local] Hint Resolve keeps_special_sort_loop : keeps.

Lemma keeps_greedy_special a n : Keeps P (greedy_sort_alpha_a_special a n).
Proof. unfold greedy_sort_alpha_a_special. keeps. Qed.
#[local] Hint Resolve keeps_greedy_special : keeps.

Lemma keeps_coverage_loop a n : ∀ u p, Keeps P (coverage_loop a n u p).
Proof. induction a; intros u p; simpl; keeps. Qed.
#[local] Hint Resolve keeps_coverage_loop : keeps.

Lemma keeps_greedy a n : Keeps P (greedy_sort_alpha_a a n).
Proof. unfold greedy_sort_alpha_a. keeps. Qed.
#[local] Hint Resolve keeps_greedy : keeps.

Lemma keeps_bcp_body a : ∀ u n, Keeps P (bcp_shrink_body a u n).
Proof. induction a; intros u n; simpl; keeps. Qed.
#[local] Hint Resolve keeps_bcp_body : keeps.

Lemma keeps_bcp a u n : Keeps P (bcp_shrink a u n).
Proof. unfold bcp_shrink. keeps. Qed.
#[local] Hint Resolve keeps_bcp : keeps.

Lemma keeps_propagate_shrink_body a :
  ∀ u n, Keeps P (propagate_shrink_body a u n).
Proof. induction a; intros u n; simpl; keeps. Qed.
#[local] Hint Resolve keeps_propagate_shrink_body : keeps.

Lemma keeps_propagate_shrink a u n : Keeps P (propagate_shrink a u n).
Proof. unfold propagate_shrink. keeps. Qed.
#[local] Hint Resolve keeps_propagate_shrink : keeps.

Lemma keeps_shrink a n : Keeps P (shrink a n).
Proof. unfold shrink. keeps. Qed.
#[local] Hint Resolve keeps_shrink : keeps.

Lemma keeps_trivial_loop c : Keeps P (trivial_loop c).
Proof. induction c; simpl; keeps. Qed.
#[local] Hint Resolve keeps_trivial_loop : keeps.

Lemma keeps_check_if_clause_trivial c : Keeps P (check_if_clause_trivial c).
Proof. unfold check_if_clause_trivial. keeps. Qed.
#[local] Hint Resolve keeps_check_if_clause_trivial : keeps.

Lemma keeps_filtered_out c : Keeps P (filtered_out c).
Proof. unfold filtered_out. keeps. Qed.
#[local] Hint Resolve keeps_filtered_out : keeps.

Lemma keeps_propagate_loop_fuel n : Keeps P (propagate_loop_fuel n).
Proof. induction n; simpl; keeps. Qed.
#[local] Hint Resolve keeps_propagate_loop_fuel : keeps.

Lemma keeps_propagate_loop : Keeps P (propagate_loop (St := St)).
Proof. unfold propagate_loop. keeps. Qed.
#[local] Hint Resolve keeps_propagate_loop : keeps.

Lemma keeps_get_touched_literals : Keeps P (get_touched_literals (St := St)).
Proof. unfold get_touched_literals. keeps. Qed.
#[local] Hint Resolve keeps_get_touched_literals : keeps.

Lemma keeps_get_sorted_literals : Keeps P (get_sorted_literals (St := St)).
Proof. unfold get_sorted_literals. keeps. Qed.
#[local] Hint Resolve keeps_get_sorted_literals : keeps.

Lemma keeps_return_if_unsat : Keeps P (return_if_unsat (St := St)).
Proof. unfold return_if_unsat. keeps. Qed.
#[local] Hint Resolve keeps_return_if_unsat : keeps.

Lemma keeps_assert_not_unsat : Keeps P (assert_not_unsat (St := St)).
Proof. unfold assert_not_unsat. keeps. Qed.
#[local] Hint Resolve keeps_assert_not_unsat : keeps.

Lemma keeps_probe_single l : Keeps P (probe_single l).
Proof. unfold probe_single. keeps. Qed.
#[local] Hint Resolve keeps_probe_single : keeps.

Lemma keeps_pick_candidate c l : Keeps P (pick_candidate c l).
Proof. unfold pick_candidate. keeps. Qed.
#[local] Hint Resolve keeps_pick_candidate : keeps.

Lemma keeps_assume_batch l : Keeps P (assume_batch l).
Proof. induction l; simpl; keeps. Qed.
#[local] Hint Resolve keeps_assume_batch : keeps.

(** The computations that write the streams or the bitset keep a
    property that the recording of a clause and steps 1 to 3 keep. *)
Hypothesis P_record : ∀ lit nc a, Keeps P (record_clause lit nc a).
Hypothesis P_collect : Keeps P collect_conditional_part.
#[local] Hint Resolve P_record P_collect : keeps.

Lemma keeps_add_clause c l n a : Keeps P (add_clause c l n a).
Proof. unfold add_clause. keeps. Qed.
#[local] Hint Resolve keeps_add_clause : keeps.

Lemma keeps_fallback_loop cands a t :
  ∀ b, Keeps P (fallback_loop cands a t b).
Proof. induction cands; intros b; simpl; keeps. Qed.
#[local] Hint Resolve keeps_fallback_loop : keeps.

Lemma keeps_assemble a u n c t : Keeps P (assemble a u n c t).
Proof. unfold assemble. keeps. Qed.
#[local] Hint Resolve keeps_assemble : keeps.

Lemma keeps_least_conditional_part t : Keeps P (least_conditional_part t).
Proof. unfold least_conditional_part. keeps. Qed.
#[local] Hint Resolve keeps_least_conditional_part : keeps.

Lemma keeps_probe_pair a b t : Keeps P (probe_pair a b t).
Proof. unfold probe_pair. keeps. Qed.
#[local] Hint Resolve keeps_probe_pair : keeps.

Lemma keeps_polarity_loop a b t ps : Keeps P (polarity_loop a b t ps).
Proof. induction ps; simpl; keeps. Qed.
#[local] Hint Resolve keeps_polarity_loop : keeps.

Lemma keeps_touched_loop a t ls : Keeps P (touched_loop a t ls).
Proof. induction ls; simpl; keeps. Qed.
#[local] Hint Resolve keeps_touched_loop : keeps.

Lemma keeps_candidate_round c t l : Keeps P (candidate_round c t l).
Proof. unfold candidate_round. keeps. Qed.
#[local] Hint Resolve keeps_candidate_round : keeps.

Lemma keeps_candidate_loop cs t l : Keeps P (candidate_loop cs t l).
Proof. induction cs; simpl; keeps. Qed.

Hypothesis P_try : ∀ g, Keeps P (set_global_try g).
#[local] Hint Resolve P_try : keeps.

Lemma keeps_chess_loop sched t : Keeps P (chess_loop sched t).
Proof. induction sched as [|[a g] sched IH]; simpl; keeps. Qed.
End KeepsCode.

Section Invariants.
Context {St : Type} `{Collaborators St}.

(** *** The mark bitset is clear and keeps its size *)

Lemma marks_solver_blind n :
  solver_blind (λ i : Internal St,
    all_clear (globalmarks i) ∧ length (globalmarks i) = n).
Proof. by intros i s. Qed.

Lemma marks_record n lit nc a :
  Keeps (λ i : Internal St,
    all_clear (globalmarks i) ∧ length (globalmarks i) = n)
    (record_clause lit nc a).
Proof. intros i b i' Hr HP. by inversion Hr; subst. Qed.

Lemma marks_try n g :
  Keeps (λ i : Internal St,
    all_clear (globalmarks i) ∧ length (globalmarks i) = n)
    (set_global_try g).
Proof. intros i b i' Hr HP. by inversion Hr; subst. Qed.

Lemma marks_collect n :
  Keeps (λ i : Internal St,
    all_clear (globalmarks i) ∧ length (globalmarks i) = n)
    collect_conditional_part.
Proof.
  intros i r i' Hr [Hc Hn].
  destruct (collect_conditional_part_run i)
    as (marks' & neg & tt & cta & aa & Hs & Hk & Hrun).
  rewrite Hrun in Hr. injection Hr as _ <-. simpl.
  apply scan_clauses_marks in Hs as (added & Hneg & ->).
  simpl in Hneg. subst added. split.
  - by apply unset_set_clear.
  - by rewrite length_unset_marks, length_set_marks.
Qed.

(** *** The two streams run in step *)

Lemma streams_solver_blind a b :
  solver_blind (λ i : Internal St,
    Forall2 prefix (outFile i) (outFile_pr i) ∧
    a `prefix_of` outFile i ∧ b `prefix_of` outFile_pr i).
Proof. by intros i s. Qed.

Lemma streams_record a b lit nc aut :
  Keeps (λ i : Internal St,
    Forall2 prefix (outFile i) (outFile_pr i) ∧
    a `prefix_of` outFile i ∧ b `prefix_of` outFile_pr i)
    (record_clause lit nc aut).
Proof.
  intros i u i' Hr (HF & Ha & Hb). inversion Hr; subst. simpl.
  split; [|split; by apply prefix_app_r].
  apply Forall2_app; [done|]. constructor; [|constructor].
  by exists (lit :: aut).
Qed.

Lemma streams_try a b g :
  Keeps (λ i : Internal St,
    Forall2 prefix (outFile i) (outFile_pr i) ∧
    a `prefix_of` outFile i ∧ b `prefix_of` outFile_pr i)
    (set_global_try g).
Proof. intros i u i' Hr HP. by inversion Hr; subst. Qed.

Lemma streams_collect a b :
  Keeps (λ i : Internal St,
    Forall2 prefix (outFile i) (outFile_pr i) ∧
    a `prefix_of` outFile i ∧ b `prefix_of` outFile_pr i)
    collect_conditional_part.
Proof.
  intros i r i' Hr HP.
  destruct (collect_conditional_part_run i)
    as (marks' & neg & tt & cta & aa & Hs & Hk & Hrun).
  rewrite Hrun in Hr. by injection Hr as _ <-.
Qed.

(** X27: [least_conditional_part] only appends to the two streams, and
    if the lines of [outFile] were the beginnings of the lines of
    [outFile_pr], one by one, before the call, they are so after it. *)
Theorem least_conditional_part_streams (original_time : Z)
    (i i' : Internal St) (b : bool) :
  Forall2 prefix (outFile i) (outFile_pr i) →
  least_conditional_part original_time i = Some (b, i') →
  Forall2 prefix (outFile i') (outFile_pr i') ∧
  outFile i `prefix_of` outFile i' ∧
  outFile_pr i `prefix_of` outFile_pr i'.
Proof.
  intros HF Hl.
  eapply (keeps_least_conditional_part _
            (streams_solver_blind (outFile i) (outFile_pr i))
            (streams_record _ _) (streams_collect _ _)); [exact Hl|].
  done.
Qed.

(** *** Nothing is written *)

Lemma quiet_solver_blind (i0 : Internal St) :
  solver_blind (λ i : Internal St,
    opts i = opts i0 ∧ outFile i = outFile i0 ∧
    outFile_pr i = outFile_pr i0).
Proof. by intros i s. Qed.

(** X28: with the greedy selection and the binary-clause strategy both
    off, a call of [least_conditional_part] that returns at all returns
    false and writes nothing to either stream: [propagate_shrink] hands
    back a value only on its [return false]. *)
Theorem propagate_strategy_never_learns (original_time : Z)
    (i i' : Internal St) (b : bool) :
  globalalphaagreedy (opts i) = false →
  globalbcp (opts i) = false →
  least_conditional_part original_time i = Some (b, i') →
  b = false ∧ outFile i' = outFile i ∧ outFile_pr i' = outFile_pr i.
Proof.
  intros Hg Hbcp. unfold least_conditional_part. intros Hl.
  apply bind_Some in Hl as ([[neg cta] aa] & i1 & H1 & Hl).
  assert (opts i1 = opts i ∧ outFile i1 = outFile i ∧
          outFile_pr i1 = outFile_pr i) as HP1.
  { destruct (collect_conditional_part_run i)
      as (marks' & neg0 & tt & cta0 & aa0 & Hs & Hk & Hrun).
    rewrite Hrun in H1. by injection H1 as _ _ _ <-. }
  apply bind_Some in Hl as (aa' & i2 & H2 & Hl).
  pose proof (keeps_custom_sort _ (quiet_solver_blind i) _ _ _ _ H2 HP1)
    as HP2.
  apply bind_Some in Hl as (r & i3 & H3 & Hl).
  pose proof (keeps_shrink _ (quiet_solver_blind i) _ _ _ _ _ H3 HP2)
    as HP3.
  destruct r as [[]|[u n]].
  - injection Hl as <- <-. by destruct HP3 as (_ & ? & ?).
  - exfalso. unfold shrink in H3.
    apply bind_Some in H3 as (o & i4 & Ho & H3). injection Ho as <- <-.
    destruct HP2 as (Ho2 & _). rewrite Ho2, Hg, Hbcp in H3. simpl in H3.
    apply bind_Some in H3 as (e & i5 & He & H3).
    destruct e; [|done].
    unfold propagate_shrink in He.
    apply bind_Some in He as (r & i6 & _ & He).
    destruct r as [[]|r]; [done|].
    apply bind_Some in He as ([] & i7 & _ & He). done.
Qed.

(** *** After a pass *)

Lemma init_global_run (i : Internal St) :
  init_global i =
    Some (tt, {| solver := solver i; opts := opts i;
                 globalmarks :=
                   replicate (Z.to_nat (2 * ext_max_var (solver i) + 1))
                             false;
                 global_try := global_try i;
                 outFile := []; outFile_pr := [];
                 clock := clock i |}).
Proof. done. Qed.

Lemma global_preprocess_keeps (P : Internal St → Prop) :
  solver_blind P →
  (∀ lit nc a, Keeps P (record_clause lit nc a)) →
  Keeps P collect_conditional_part →
  ∀ (i i' : Internal St) r,
    global_preprocess i = Some (r, i') →
    P {| solver := solver i; opts := opts i;
         globalmarks :=
           replicate (Z.to_nat (2 * ext_max_var (solver i) + 1)) false;
         global_try := global_try i;
         outFile := []; outFile_pr := [];
         clock := clock i |} →
    P i'.
Proof.
  intros Hb Hrec Hcol i i' r Hg HP. unfold global_preprocess in Hg.
  rewrite (bind_eq _ _ _ _ _ (init_global_run i)) in Hg.
  revert Hg HP.
  generalize {| solver := solver i; opts := opts i;
         globalmarks :=
           replicate (Z.to_nat (2 * ext_max_var (solver i) + 1)) false;
         global_try := global_try i;
         outFile := []; outFile_pr := [];
         clock := clock i |}.
  intros i0 Hg HP.
  assert (Keeps P
    (original_time ← time;
     o ← read opts;
     sorted_literals ← (if globalisort o then get_sorted_literals
                        else mret []);
     mv ← max_var;
     candidate_loop (map Z.of_nat (seq 1 (Z.to_nat mv)))
       original_time sorted_literals)) as Hk.
  { pose proof (keeps_candidate_loop P Hb Hrec Hcol).
    pose proof (keeps_get_sorted_literals P).
    pose proof (keeps_time P). pose proof (keeps_max_var P).
    keeps. }
  eapply Hk; eauto.
Qed.

Lemma global_preprocess_chess_keeps (P : Internal St → Prop) :
  solver_blind P →
  (∀ lit nc a, Keeps P (record_clause lit nc a)) →
  Keeps P collect_conditional_part →
  (∀ g, Keeps P (set_global_try g)) →
  ∀ schedule (i i' : Internal St) r,
    global_preprocess_chess_on schedule i = Some (r, i') →
    P {| solver := solver i; opts := opts i;
         globalmarks :=
           replicate (Z.to_nat (2 * ext_max_var (solver i) + 1)) false;
         global_try := global_try i;
         outFile := []; outFile_pr := [];
         clock := clock i |} →
    P i'.
Proof.
  intros Hb Hrec Hcol Htry schedule i i' r Hg HP.
  unfold global_preprocess_chess_on in Hg.
  rewrite (bind_eq _ _ _ _ _ (init_global_run i)) in Hg.
  apply bind_Some in Hg as (t & i1 & Ht & Hg). injection Ht as <- <-.
  eapply (keeps_chess_loop P Hb Hrec Hcol Htry); eauto.
Qed.

(** X11: when either variant of the global pass returns, [globalmarks]
    has [2 * max_var + 1] bits ([max_var] as on entry) and every one of
    them is unset. *)
Theorem global_pass_leaves_marks_clear (i i' : Internal St) (res : Z) :
  (global_preprocess i = Some (res, i') ∨
   ∃ schedule, global_preprocess_chess_on schedule i = Some (res, i')) →
  all_clear (globalmarks i') ∧
  length (globalmarks i') = Z.to_nat (2 * ext_max_var (solver i) + 1).
Proof.
  intros [Hg|[schedule Hg]].
  - eapply (global_preprocess_keeps _ (marks_solver_blind _)
              (marks_record _) (marks_collect _)); [exact Hg|].
    simpl. split; [|by rewrite length_replicate].
    apply Forall_forall. by intros b ->%elem_of_replicate_inv.
  - eapply (global_preprocess_chess_keeps _ (marks_solver_blind _)
              (marks_record _) (marks_collect _) (marks_try _));
      [exact Hg|].
    simpl. split; [|by rewrite length_replicate].
    apply Forall_forall. by intros b ->%elem_of_replicate_inv.
Qed.

(** X12: when either variant of the global pass returns, the two
    streams have the same number of lines and every line of [outFile] is
    the beginning of the line of [outFile_pr] at the same position. *)
Theorem global_pass_streams_in_step (i i' : Internal St) (res : Z) :
  (global_preprocess i = Some (res, i') ∨
   ∃ schedule, global_preprocess_chess_on schedule i = Some (res, i')) →
  Forall2 prefix (outFile i') (outFile_pr i').
Proof.
  intros [Hg|[schedule Hg]].
  - eapply (global_preprocess_keeps _ (streams_solver_blind [] [])
              (streams_record _ _) (streams_collect _ _)); [exact Hg|].
    simpl. split; [constructor|]. split; apply prefix_nil.
  - eapply (global_preprocess_chess_keeps _ (streams_solver_blind [] [])
              (streams_record _ _) (streams_collect _ _)
              (streams_try _ _)); [exact Hg|].
    simpl. split; [constructor|]. split; apply prefix_nil.
Qed.
End Invariants.

(** ** The exit status of the global pass and the touched literals *)

(** Run a computation symbolically along its binds and branches. *)
Ltac exec :=
  repeat match goal with
  | H : (_ ≫= _) _ = Some _ |- _ =>
      let a := fresh "a" in let i := fresh "i" in
      let Ha := fresh "Hrun" in
      apply bind_Some in H as (a & i & Ha & H)
  | H : mret _ _ = Some _ |- _ => inversion H; subst; clear H
  | H : fail _ = Some _ |- _ => discriminate H
  | H : (if ?b then _ else _) _ = Some _ |- _ => destruct b eqn:?
  | H : (match ?x with _ => _ end) _ = Some _ |- _ => destruct x eqn:?
  end.

Section Status.
Context {St : Type} `{Collaborators St}.

Lemma return_if_unsat_status (i i' : Internal St) r :
  return_if_unsat i = Some (r, i') → status_ok r i'.
Proof.
  unfold return_if_unsat, mbind, M_bind, unsat, read. simpl.
  intros [= <- <-] res. destruct (ext_unsat (solver i)) eqn:Hu; [|done].
  by intros [= <-].
Qed.

Lemma status_ok_continue (i : Internal St) : status_ok Continue i.
Proof. by intros res. Qed.

Lemma status_ok_break (i : Internal St) : status_ok Break i.
Proof. by intros res. Qed.
#[local] Hint Resolve return_if_unsat_status status_ok_continue
  status_ok_break : core.

Lemma probe_pair_status a b t (i i' : Internal St) r :
  probe_pair a b t i = Some (r, i') → status_ok r i'.
Proof. unfold probe_pair. intros Hp. exec; eauto. Qed.

Lemma polarity_loop_status a b t ps : ∀ (i i' : Internal St) r,
  polarity_loop a b t ps i = Some (r, i') → status_ok r i'.
Proof.
  induction ps as [|p ps IH]; intros i i' r Hp; simpl in Hp; exec; eauto.
  all: repeat match goal with
       | Hr : probe_pair _ _ _ _ = Some _ |- _ =>
           apply probe_pair_status in Hr
       end; eauto.
Qed.

Lemma touched_loop_status a t ls : ∀ (i i' : Internal St) r,
  touched_loop a t ls i = Some (r, i') → status_ok r i'.
Proof.
  induction ls as [|l ls IH]; intros i i' r Hp; simpl in Hp; exec; eauto.
  all: repeat match goal with
       | Hr : return_if_unsat _ = Some _ |- _ =>
           apply return_if_unsat_status in Hr
       | Hr : polarity_loop _ _ _ _ _ = Some _ |- _ =>
           apply polarity_loop_status in Hr
       end; eauto.
Qed.

Lemma probe_single_status a (i i' : Internal St) r :
  probe_single a i = Some (r, i') → status_ok r i'.
Proof. unfold probe_single. intros Hp. exec; eauto. Qed.

Lemma candidate_round_status c t l (i i' : Internal St) r :
  candidate_round c t l i = Some (r, i') → status_ok r i'.
Proof.
  unfold candidate_round. intros Hp. exec; eauto using probe_single_status.
  all: repeat match goal with
       | Hr : return_if_unsat _ = Some _ |- _ =>
           apply return_if_unsat_status in Hr
       | Hr : touched_loop _ _ _ _ = Some _ |- _ =>
           apply touched_loop_status in Hr
       end; eauto.
Qed.

Lemma candidate_loop_status cs t l : ∀ (i i' : Internal St) res,
  candidate_loop cs t l i = Some (res, i') →
  res = if ext_unsat (solver i') then 20 else 0.
Proof.
  induction cs as [|c cs IH]; intros i i' res Hp; simpl in Hp.
  - unfold mbind, M_bind, unsat, read in Hp. simpl in Hp.
    by injection Hp as <- <-.
  - apply bind_Some in Hp as (t0 & i1 & Ht & Hp). injection Ht as <- <-.
    apply bind_Some in Hp as (o & i2 & Ho & Hp). injection Ho as <- <-.
    destruct (globaltimelim (opts i) <? clock i 0%nat - t).
    { unfold mbind, M_bind, unsat, read in Hp. simpl in Hp.
      by injection Hp as <- <-. }
    apply bind_Some in Hp as (r & i3 & Hr & Hp).
    apply candidate_round_status in Hr.
    destruct r as [| |res'].
    + by apply IH in Hp.
    + unfold mbind, M_bind, unsat, read in Hp. simpl in Hp.
      by injection Hp as <- <-.
    + injection Hp as <- <-. destruct (Hr res' eq_refl) as [-> ->]. done.
Qed.

(** X9: whenever [global_preprocess] returns, its result is 20 if the
    solver's [unsat] flag is set on return and 0 otherwise. *)
Theorem global_preprocess_status (i i' : Internal St) (res : Z) :
  global_preprocess i = Some (res, i') →
  res = if ext_unsat (solver i') then 20 else 0.
Proof.
  unfold global_preprocess. intros Hg.
  apply bind_Some in Hg as ([] & i1 & _ & Hg).
  apply bind_Some in Hg as (t & i2 & _ & Hg).
  apply bind_Some in Hg as (o & i3 & _ & Hg).
  apply bind_Some in Hg as (l & i4 & _ & Hg).
  apply bind_Some in Hg as (mv & i5 & _ & Hg).
  by apply candidate_loop_status in Hg.
Qed.

Lemma chess_loop_status schedule t : ∀ (i i' : Internal St) res,
  chess_loop schedule t i = Some (res, i') →
  (res = 20 ∧ ext_unsat (solver i') = true) ∨
  (res = 0 ∧ (ext_unsat (solver i') = true → schedule = [])).
Proof.
  induction schedule as [|[a g] schedule IH]; intros i i' res Hc;
    simpl in Hc.
  - injection Hc as <- <-. right. done.
  - apply bind_Some in Hc as ([] & i1 & _ & Hc).
    apply bind_Some in Hc as ([] & i2 & _ & Hc).
    apply bind_Some in Hc as (tl & i3 & _ & Hc).
    apply bind_Some in Hc as ([] & i4 & _ & Hc).
    apply bind_Some in Hc as ([] & i5 & _ & Hc).
    apply bind_Some in Hc as (ok & i6 & _ & Hc).
    apply bind_Some in Hc as ([] & i7 & _ & Hc).
    apply bind_Some in Hc as (u & i8 & Hu & Hc).
    injection Hu as <- <-.
    destruct (ext_unsat (solver i7)) eqn:Hun.
    + injection Hc as <- <-. by left.
    + pose proof Hc as Hc'.
      apply IH in Hc as [?|[-> Hs]]; [by left|].
      right. split; [done|]. intros Hu. pose proof (Hs Hu). subst schedule.
      simpl in Hc'. injection Hc' as <-. congruence.
Qed.
End Status.

Section Touched.
Context {St : Type} `{Collaborators St}.

(** X10: whenever [global_preprocess_chess] returns over a schedule,
    its result is 20 with the [unsat] flag set, or 0; with a schedule
    that is not empty the result 0 comes with the flag unset. *)
Theorem global_preprocess_chess_status (schedule : list (list Z * list Z))
    (i i' : Internal St) (res : Z) :
  global_preprocess_chess_on schedule i = Some (res, i') →
  (res = 20 ∧ ext_unsat (solver i') = true) ∨
  (res = 0 ∧ (ext_unsat (solver i') = true → schedule = [])).
Proof.
  unfold global_preprocess_chess_on. intros Hg.
  apply bind_Some in Hg as ([] & i1 & _ & Hg).
  apply bind_Some in Hg as (t & i2 & _ & Hg).
  by apply chess_loop_status in Hg.
Qed.

Lemma touched_scan_spec (s : St) pushed lits :
  ∀ touched vs touched' satisfied vs',
    touched_scan s pushed lits touched vs = (touched', satisfied, vs') →
    satisfied = false →
    Forall (λ l, ¬ 0 < ext_val s l) lits ∧
    (touched' = true → touched = true ∨ Exists (λ l, ext_val s l < 0) lits) ∧
    ∃ added, vs' = vs ++ added ∧
      Forall (λ l, l ∈ lits ∧ ext_val s l = 0 ∧
                   ext_flags s l ≠ FIXED) added.
Proof.
  induction lits as [|l lits IH]; intros touched vs touched' sat vs' Hs Hsat;
    simpl in Hs.
  - injection Hs as <- _ <-. split; [constructor|]. split; [auto|].
    exists []. by rewrite app_nil_r.
  - destruct (Z.ltb_spec 0 (ext_val s l)) as [Hpos|Hnpos].
    { injection Hs as _ <- _. done. }
    assert (∀ (P : Z → Prop) added,
              Forall (λ x, x ∈ lits ∧ P x) added →
              Forall (λ x, x ∈ l :: lits ∧ P x) added) as Hmono.
    { intros P added Hall. eapply Forall_impl; [exact Hall|].
      simpl. intros x [? ?]. split; [by right|done]. }
    destruct (Z.ltb_spec (ext_val s l) 0) as [Hneg|Hnneg].
    { apply IH in Hs as (Hall & Ht & added & -> & Hadd); [|done].
      split; [constructor; [lia|done]|]. split.
      - intros _. right. by left.
      - exists added. split; [done|]. by apply Hmono in Hadd. }
    destruct (negb (bool_decide (l ∈ pushed)) &&
              negb (is_fixed (ext_flags s l))) eqn:Hc.
    + apply IH in Hs as (Hall & Ht & added & -> & Hadd); [|done].
      split; [constructor; [lia|done]|]. split.
      * intros Ht'. destruct (Ht Ht') as [?|?]; [by left|right].
        by right.
      * exists (l :: added). rewrite <- app_assoc. split; [done|].
        constructor; [|by apply Hmono in Hadd].
        split; [by left|]. split; [lia|].
        apply andb_prop in Hc as [_ Hf].
        intros Hfix. by rewrite Hfix in Hf.
    + apply IH in Hs as (Hall & Ht & added & -> & Hadd); [|done].
      split; [constructor; [lia|done]|]. split.
      * intros Ht'. destruct (Ht Ht') as [?|?]; [by left|right].
        by right.
      * exists added. split; [done|]. by apply Hmono in Hadd.
Qed.

Lemma touched_clauses_spec (s : St) cs : ∀ touched_literals,
  ∃ added, touched_clauses s cs touched_literals = touched_literals ++ added ∧
    Forall (λ l, ext_val s l = 0 ∧ ext_flags s l ≠ FIXED ∧
                 ∃ c, c ∈ cs ∧ l ∈ literals c ∧
                      Exists (λ x, ext_val s x < 0) (literals c) ∧
                      Forall (λ x, ¬ 0 < ext_val s x) (literals c)) added.
Proof.
  induction cs as [|c cs IH]; intros tl; simpl.
  - exists []. by rewrite app_nil_r.
  - assert (∀ added,
      Forall (λ l, ext_val s l = 0 ∧ ext_flags s l ≠ FIXED ∧
                 ∃ c, c ∈ cs ∧ l ∈ literals c ∧
                      Exists (λ x, ext_val s x < 0) (literals c) ∧
                      Forall (λ x, ¬ 0 < ext_val s x) (literals c)) added →
      Forall (λ l, ext_val s l = 0 ∧ ext_flags s l ≠ FIXED ∧
                 ∃ c0, c0 ∈ c :: cs ∧ l ∈ literals c0 ∧
                      Exists (λ x, ext_val s x < 0) (literals c0) ∧
                      Forall (λ x, ¬ 0 < ext_val s x) (literals c0)) added)
      as Hmono.
    { intros added Hall. eapply Forall_impl; [exact Hall|]. simpl.
      intros l (? & ? & c0 & ? & ?). split; [done|]. split; [done|].
      exists c0. split; [by right|done]. }
    destruct (touched_scan s tl (literals c) false [])
      as [[touched sat] vs] eqn:Hs.
    destruct (touched && negb sat) eqn:Hc.
    + apply andb_prop in Hc as [-> Hsat]. apply negb_true_iff in Hsat.
      apply touched_scan_spec in Hs as (Hall & Ht & added & Hv & Hadd);
        [|done].
      simpl in Hv. subst vs.
      destruct (IH (tl ++ added)) as (added' & -> & Hadd').
      exists (added ++ added'). split; [by rewrite app_assoc|].
      apply Forall_app. split; [|by apply Hmono].
      eapply Forall_impl; [exact Hadd|]. simpl.
      intros l (Hin & Hv & Hf). split; [done|]. split; [done|].
      exists c. split; [by left|]. split; [done|]. split; [|done].
      destruct (Ht eq_refl) as [?|?]; done.
    + destruct (IH tl) as (added' & -> & Hadd').
      exists added'. split; [done|]. by apply Hmono.
Qed.

(** X7: [get_touched_literals] always returns and leaves the state as
    it is.  With the touch optimisation on, every literal it returns is
    unassigned, not fixed, and occurs in a clause that has a false literal
    and no true one; with it off the result is [1 .. max_var]. *)
Theorem get_touched_literals_spec (i : Internal St) :
  ∃ touched_literals,
    get_touched_literals i = Some (touched_literals, i) ∧
    if globaltouch (opts i)
    then Forall (λ l, ext_val (solver i) l = 0 ∧
                      ext_flags (solver i) l ≠ FIXED ∧
                      ∃ c, c ∈ ext_clauses (solver i) ∧ l ∈ literals c ∧
                           Exists (λ x, ext_val (solver i) x < 0)
                                  (literals c) ∧
                           Forall (λ x, ¬ 0 < ext_val (solver i) x)
                                  (literals c))
                touched_literals
    else touched_literals =
           map Z.of_nat (seq 1 (Z.to_nat (ext_max_var (solver i)))).
Proof.
  unfold get_touched_literals, mbind, M_bind, read. simpl.
  destruct (globaltouch (opts i)); simpl.
  - eexists. split; [reflexivity|].
    destruct (touched_clauses_spec (solver i) (ext_clauses (solver i)) [])
      as (added & -> & Hadd). done.
  - eexists. split; reflexivity.
Qed.
End Touched.

(** ** The length guard and the number of recorded lines *)

Section Guard.
Context {St : Type} `{CollaboratorLaws St}.

(** X24: the length guard of [check_if_clause_trivial] compares in the
    unsigned type, so a negative [globalmaxlen] switches it off: the
    clause, whatever its length, is checked by assumptions, and the call
    returns at decision level 0. *)
Theorem negative_maxlen_disables_length_guard (c : list Z)
    (i : Internal St) :
  - 2 ^ 63 ≤ globalmaxlen (opts i) < 0 →
  Z.of_nat (length c) < 2 ^ 63 →
  exceeds_maxlen (opts i) c = false ∧
  ∃ i', check_if_clause_trivial c i =
          Some (trivial_by_assumptions (ext_backtrack 0 (solver i)) c, i') ∧
        ext_level (solver i') = 0.
Proof.
  intros Hneg Hlen.
  assert (exceeds_maxlen (opts i) c = false) as Hguard.
  { unfold exceeds_maxlen. apply Z.ltb_ge.
    replace (globalmaxlen (opts i)) with
      (globalmaxlen (opts i) + 2 ^ 64 + (-1) * 2 ^ 64) by lia.
    rewrite Z.mod_add by lia. rewrite Z.mod_small by lia. lia. }
  split; [done|].
  unfold check_if_clause_trivial, mbind, M_bind, read. simpl.
  rewrite Hguard. simpl.
  destruct (trivial_loop_spec c
              {| solver := ext_backtrack 0 (solver i); opts := opts i;
                 globalmarks := globalmarks i;
                 global_try := global_try i; outFile := outFile i;
                 outFile_pr := outFile_pr i;
                 clock := clock i |}) as [i' Hi'].
  simpl in Hi'. rewrite Hi'. eexists. split; [done|]. simpl.
  apply backtrack_level.
Qed.
End Guard.

Section Lines.
Context {St : Type} `{Collaborators St}.

Lemma lines_solver_blind (o : Options) (n m : nat) :
  solver_blind (λ i : Internal St,
    opts i = o ∧ length (outFile i) = n ∧ length (outFile_pr i) = m).
Proof. by intros i s. Qed.

Lemma add_clause_lines c l nc a (i i' : Internal St) :
  add_clause c l nc a i = Some (tt, i') →
  opts i' = opts i ∧
  length (outFile i') =
    (length (outFile i) + if globalrecord (opts i) then 1 else 0)%nat ∧
  length (outFile_pr i') = 
    (length (outFile_pr i) + if globalrecord (opts i) then 1 else 0)%nat.
Proof.
  unfold add_clause. intros Ha.
  apply bind_Some in Ha as (lv & i1 & Hlv & Ha). injection Hlv as <- <-.
  apply bind_Some in Ha as (o & i2 & Ho & Ha). injection Ho as <- <-.
  apply bind_Some in Ha as ([] & i3 & Hlearn & Ha).
  assert (opts i3 = opts i ∧ outFile i3 = outFile i ∧
          outFile_pr i3 = outFile_pr i) as (Ho3 & Hf3 & Hp3).
  { destruct (globallearn (opts i)).
    - destruct (1 <? length _)%nat.
      + by injection Hlearn as <-.
      + destruct (sort_vec_by_decision_level _ _); [done|].
        by injection Hlearn as <-.
    - by injection Hlearn as <-. }
  destruct (globalrecord (opts i)).
  - injection Ha as <-. simpl. rewrite !length_app, Hf3, Hp3. done.
  - injection Ha as <-. rewrite Hf3, Hp3. split; [done|]. lia.
Qed.

Lemma fallback_loop_lines cands a t : ∀ b0 (i i' : Internal St) b,
  fallback_loop cands a t b0 i = Some (b, i') →
  opts i' = opts i ∧
  (length (outFile i) ≤ length (outFile i')
     ≤ length (outFile i) + length cands)%nat ∧
  (length (outFile_pr i') + length (outFile i) =
   length (outFile i') + length (outFile_pr i))%nat ∧
  (globalrecord (opts i) = false →
   length (outFile i') = length (outFile i)).
Proof.
  induction cands as [|c cands IH]; intros b0 i i' b Hf; simpl in Hf.
  - injection Hf as <- <-. split; [done|]. split; [lia|]. split; [lia|done].
  - apply bind_Some in Hf as (t0 & i1 & Ht & Hf). injection Ht as <- <-.
    apply bind_Some in Hf as (o & i2 & Ho & Hf). injection Ho as <- <-.
    destruct (globaltimelim (opts i) <? clock i 0%nat - t).
    { injection Hf as <- <-. simpl.
      split; [done|]. split; [lia|]. split; [lia|done]. }
    apply bind_Some in Hf as (skip & i3 & Hs & Hf).
    pose proof (keeps_filtered_out _
                  (lines_solver_blind (opts i) (length (outFile i))
                     (length (outFile_pr i))) _ _ _ _ Hs
                  (conj eq_refl (conj eq_refl eq_refl)))
      as (Ho3 & Hl3 & Hp3).
    apply bind_Some in Hf as ([] & i4 & Ha & Hf).
    apply IH in Hf as (Ho' & Hl' & Hp' & Hr').
    destruct skip.
    + injection Ha as <-. split; [congruence|]. simpl.
      split; [lia|]. split; [lia|]. intros Hrec.
      rewrite Hr' by congruence. done.
    + apply add_clause_lines in Ha as (Ho4 & Hl4 & Hp4).
      split; [congruence|]. simpl.
      split; [destruct (globalrecord (opts i3)); lia|].
      split; [destruct (globalrecord (opts i3)); lia|].
      intros Hrec. rewrite Hr' by congruence.
      rewrite Ho3, Hrec in Hl4. lia.
Qed.

(** X29: a call of [least_conditional_part] writes as many lines to
    [outFile_pr] as to [outFile], at most one or [globalmaxclause] of
    them, whichever is larger, and none with recording off. *)
Theorem least_conditional_part_lines_bounded (original_time : Z)
    (i i' : Internal St) (b : bool) :
  least_conditional_part original_time i = Some (b, i') →
  (length (outFile i) ≤ length (outFile i')
     ≤ length (outFile i)
       + Nat.max 1 (Z.to_nat (globalmaxclause (opts i))))%nat ∧
  (length (outFile_pr i') + length (outFile i) =
   length (outFile i') + length (outFile_pr i))%nat ∧
  (globalrecord (opts i) = false →
   length (outFile i') = length (outFile i)).
Proof.
  unfold least_conditional_part. intros Hl.
  apply bind_Some in Hl as ([[neg cta] aa] & i1 & H1 & Hl).
  assert (opts i1 = opts i ∧ length (outFile i1) = length (outFile i) ∧
          length (outFile_pr i1) = length (outFile_pr i)) as HP1.
  { destruct (collect_conditional_part_run i)
      as (marks' & neg0 & tt & cta0 & aa0 & Hs & Hk & Hrun).
    rewrite Hrun in H1. by injection H1 as _ _ _ <-. }
  apply bind_Some in Hl as (aa' & i2 & H2 & Hl).
  pose proof (keeps_custom_sort _ (lines_solver_blind _ _ _) _ _ _ _ H2 HP1)
    as HP2.
  apply bind_Some in Hl as (r & i3 & H3 & Hl).
  pose proof (keeps_shrink _ (lines_solver_blind _ _ _) _ _ _ _ _ H3 HP2)
    as (Ho3 & Hl3 & Hp3).
  destruct r as [[]|[u n]].
  { injection Hl as <- <-. rewrite Hl3, Hp3. split; [lia|]. split; [lia|done]. }
  unfold assemble in Hl.
  apply bind_Some in Hl as (o & i4 & Ho & Hl). injection Ho as <- <-.
  destruct (bool_decide (u = []) || globalnoshrink (opts i3)).
  - apply fallback_loop_lines in Hl as (Ho' & Hlen & Hpr & Hrec).
    rewrite length_take in Hlen. rewrite Ho3 in Hlen, Hrec.
    split; [lia|]. split; [lia|].
    intros Hoff. rewrite Hrec by done. done.
  - apply bind_Some in Hl as (skip & i5 & Hs & Hl).
    pose proof (keeps_filtered_out _
                  (lines_solver_blind (opts i3) (length (outFile i3))
                     (length (outFile_pr i3))) _ _ _ _ Hs
                  (conj eq_refl (conj eq_refl eq_refl)))
      as (Ho5 & Hl5 & Hp5).
    apply bind_Some in Hl as ([] & i6 & Ha & Hl). injection Hl as <- <-.
    destruct skip.
    + injection Ha as <-. split; [lia|]. split; [lia|]. intros _. lia.
    + apply add_clause_lines in Ha as (Ho6 & Hl6 & Hp6).
      rewrite Ho5, Ho3 in Hl6, Hp6.
      destruct (globalrecord (opts i)).
      * split; [lia|]. split; [lia|done].
      * split; [lia|]. split; [lia|]. intros _. lia.
Qed.
End Lines.

(** ** The budgets and the search mode *)

Lemma preprocessing_budget_view (scale : Z → Z) (o : Options) (s : LimitState) :
  budget_view (init_preprocessing_limits scale o s) =
  (lim_conflicts (lim s), lim_decisions (lim s), lim_localsearch (lim s),
   (if inc_preprocessing (inc s) <=? 0 then 0 else inc_preprocessing (inc s)),
   (inc_conflicts (inc s), inc_decisions (inc s), inc_localsearch (inc s),
    inc_preprocessing (inc s)),
   (stats_conflicts s, stats_decisions s)).
Proof.
  destruct s as [l i la c d st av r];
    destruct l as [ini ? ? ? ? ? ? ? ? ? ? ? ? ? ? ? ?];
    destruct i as [? ? ? ? ? ?].
  destruct ini; lazy -[Z.add Z.leb]; reflexivity.
Qed.

Lemma before_mode_budget_view (o : Options) (s : LimitState) :
  budget_view (search_limits_before_mode o s) = budget_view s.
Proof.
  destruct s as [l i la c d st av r];
    destruct l as [ini ? ? ? ? ? ? ? ? ? ? ? ? ? ? ? ?];
    destruct i as [? ? ? ? ? ?].
  destruct ini; lazy -[Z.add]; reflexivity.
Qed.

Lemma init_stable_budget_view (o : Options) (b : bool) (s s1 : LimitState) :
  init_stable o b s = Some s1 → budget_view s1 = budget_view s.
Proof.
  unfold init_stable.
  destruct (negb b); [intros [= <-]; done|].
  destruct (opt_stabilize o && stabilizeonly o), (stable s);
    intros [= <-]; done.
Qed.

Lemma after_mode_budget_view (o : Options) (s : LimitState) :
  budget_view (search_limits_after_mode o s) =
  ((if inc_conflicts (inc s) <? 0 then -1
    else stats_conflicts s + inc_conflicts (inc s)),
   (if inc_decisions (inc s) <? 0 then -1
    else stats_decisions s + inc_decisions (inc s)),
   (if inc_localsearch (inc s) <=? 0 then 0 else inc_localsearch (inc s)),
   lim_preprocessing (lim s),
   (inc_conflicts (inc s), inc_decisions (inc s), inc_localsearch (inc s),
    inc_preprocessing (inc s)),
   (stats_conflicts s, stats_decisions s)).
Proof.
  destruct s as [l i la c d st av r];
    destruct l as [ini ? ? ? ? ? ? ? ? ? ? ? ? ? ? ? ?];
    destruct i as [? ? ? ? ? ?].
  lazy -[Z.add Z.leb Z.ltb]; reflexivity.
Qed.

(** X5: after the two limit functions have run, the limits on
    preprocessing and local-search rounds are their increments clamped at
    0, the conflict and the decision limit are -1 (no limit) for a negative
    increment and the current count plus the increment otherwise; neither
    the increments nor the counters change. *)
Theorem init_limits_budgets (scale : Z → Z) (o : Options)
    (s s' : LimitState) :
  init_limits scale o s = Some s' →
  lim_preprocessing (lim s') = Z.max 0 (inc_preprocessing (inc s)) ∧
  lim_localsearch (lim s') = Z.max 0 (inc_localsearch (inc s)) ∧
  lim_conflicts (lim s') =
    (if inc_conflicts (inc s) <? 0 then -1
     else stats_conflicts s + inc_conflicts (inc s)) ∧
  lim_decisions (lim s') =
    (if inc_decisions (inc s) <? 0 then -1
     else stats_decisions s + inc_decisions (inc s)) ∧
  inc_conflicts (inc s') = inc_conflicts (inc s) ∧
  inc_decisions (inc s') = inc_decisions (inc s) ∧
  stats_conflicts s' = stats_conflicts s ∧
  stats_decisions s' = stats_decisions s.
Proof.
  unfold init_limits, init_search_limits.
  pose proof (preprocessing_budget_view scale o s) as Hp.
  set (p := init_preprocessing_limits scale o s) in *.
  pose proof (before_mode_budget_view o p) as Hb.
  set (q := search_limits_before_mode o p) in *.
  clearbody q p.
  destruct (init_stable o (initialized (lim p)) q) as [s1|] eqn:Hst;
    [|discriminate].
  intros [= <-]. apply init_stable_budget_view in Hst.
  pose proof (after_mode_budget_view o s1) as Ha.
  unfold budget_view in *.
  repeat match goal with
         | H : (_, _) = (_, _) |- _ => apply pair_equal_spec in H as [? ?]
         end.
  repeat match goal with H : _ = _ |- _ => rewrite H end.
  repeat split.
  - destruct (Z.leb_spec (inc_preprocessing (inc s)) 0); lia.
  - destruct (Z.leb_spec (inc_localsearch (inc s)) 0); lia.
Qed.

(** X6: [init_search_limits] fails its assertion exactly on an
    incremental call with the forced stable mode configured while the
    solver is not in stable mode; whenever it returns, the solver is in
    stable mode exactly when the forced stable mode is configured, the
    limits are marked initialised, and the reluctant-doubling scheduler is
    off exactly when stabilisation is off or its period is 0. *)
Theorem init_search_limits_mode (o : Options) (s : LimitState) :
  (init_search_limits o s = None ↔
   initialized (lim s) = true ∧
   opt_stabilize o && stabilizeonly o = true ∧ stable s = false) ∧
  ∀ s', init_search_limits o s = Some s' →
    stable s' = opt_stabilize o && stabilizeonly o ∧
    initialized (lim s') = true ∧
    (reluctant_state s' = ReluctantDisabled ↔
     opt_stabilize o = false ∨ reluctant o = 0).
Proof.
  unfold init_search_limits.
  assert (initialized (lim (search_limits_before_mode o s))
            = initialized (lim s) ∧
          stable (search_limits_before_mode o s) = stable s) as [Hi Hs].
  { destruct s as [l i la c d st av r];
      destruct l as [ini ? ? ? ? ? ? ? ? ? ? ? ? ? ? ? ?].
    destruct ini; lazy -[Z.add]; done. }
  set (q := search_limits_before_mode o s) in *. clearbody q.
  assert (∀ s1, stable (search_limits_after_mode o s1) = stable s1 ∧
                initialized (lim (search_limits_after_mode o s1)) = true ∧
                reluctant_state (search_limits_after_mode o s1) =
                  (if opt_stabilize o && negb (reluctant o =? 0)
                   then ReluctantEnabled (reluctant o) (reluctantmax o)
                   else ReluctantDisabled)) as Hafter.
  { intros s1. destruct s1 as [l i la c d st av r];
      destruct l as [ini ? ? ? ? ? ? ? ? ? ? ? ? ? ? ? ?].
    lazy -[Z.add Z.eqb Z.ltb Z.leb andb negb]. done. }
  assert (∀ s1, reluctant_state (search_limits_after_mode o s1)
                  = ReluctantDisabled ↔
                opt_stabilize o = false ∨ reluctant o = 0) as Hrel.
  { intros s1. destruct (Hafter s1) as (_ & _ & ->).
    destruct (opt_stabilize o); simpl; [|by split; auto].
    destruct (Z.eqb_spec (reluctant o) 0); simpl.
    - split; auto.
    - split; [done|]. intros [?|?]; done. }
  unfold init_stable. rewrite Hs.
  destruct (initialized (lim s)) eqn:Hini; simpl;
    destruct (opt_stabilize o && stabilizeonly o) eqn:Hso;
    destruct (stable s) eqn:Hst; simpl.
  all: split;
    [split; [try done; intros (? & ? & ?); done|try done; intros (? & ? & ?); done]|].
  all: try done.
  all: intros s' [= <-]; split; [|split; [apply Hafter|apply Hrel]].
  all: rewrite (proj1 (Hafter _)); simpl; congruence.
Qed.

(** ** The variable tables *)

(** ** The table-growing helpers *)

Lemma enlarge_init_length {T} (v : list T) (N : Z) (i : T) :
  length (enlarge_init v N i) = Nat.max (length v) (Z.to_nat N).
Proof.
  unfold enlarge_init. destruct (Z.ltb_spec (Z.of_nat (length v)) N).
  - rewrite length_app, length_replicate. lia.
  - lia.
Qed.

Lemma enlarge_init_prefix {T} (v : list T) (N : Z) (i : T) :
  v `prefix_of` enlarge_init v N i.
Proof.
  unfold enlarge_init. destruct (Z.of_nat (length v) <? N); [|done].
  by apply prefix_app_r.
Qed.

Lemma enlarge_init_lookup {T} (v : list T) (N : Z) (i : T) (k : nat) :
  enlarge_init v N i !! k =
  if decide (k < length v)%nat then v !! k
  else if decide (k < Z.to_nat N)%nat then Some i else None.
Proof.
  unfold enlarge_init. destruct (Z.ltb_spec (Z.of_nat (length v)) N).
  - destruct (decide (k < length v)%nat).
    + by rewrite lookup_app_l.
    + rewrite lookup_app_r by lia.
      destruct (decide (k < Z.to_nat N)%nat).
      * apply lookup_replicate_2. lia.
      * apply lookup_replicate_None. lia.
  - destruct (decide (k < length v)%nat); [done|].
    rewrite decide_False by lia. apply lookup_ge_None. lia.
Qed.

(** X1: [enlarge_init] never shrinks a vector: the result has the
    larger of the two sizes, begins with the old vector, holds the given
    value at every new index, and a second call with the same size changes
    nothing; [enlarge_only] and [enlarge_zero] are the same function with
    the default value and with 0. *)
Theorem enlarge_init_grows_only {T} (dflt : T) (v : list T) (N : Z) (i : T) :
  length (enlarge_init v N i) = Nat.max (length v) (Z.to_nat N) ∧
  v `prefix_of` enlarge_init v N i ∧
  (∀ k, (length v ≤ k < Z.to_nat N)%nat → enlarge_init v N i !! k = Some i) ∧
  enlarge_init (enlarge_init v N i) N i = enlarge_init v N i ∧
  enlarge_only dflt v N = enlarge_init v N dflt ∧
  ∀ z : list Z, enlarge_zero z N = enlarge_init z N 0.
Proof.
  split; [apply enlarge_init_length|].
  split; [apply enlarge_init_prefix|].
  split.
  { intros k Hk. rewrite enlarge_init_lookup.
    rewrite decide_False by lia. by rewrite decide_True by lia. }
  split; [|done].
  unfold enlarge_init at 1. rewrite enlarge_init_length.
  destruct (Z.ltb_spec (Z.of_nat (Nat.max (length v) (Z.to_nat N))) N);
    [lia|done].
Qed.

(** ** The size computation of [enlarge] *)

Lemma grow_vsize_spec (new_max_var : Z) (fuel : nat) : ∀ v,
  0 < v → v ≤ 2 ^ 63 → 0 ≤ new_max_var < 2 ^ 62 →
  new_max_var < v * 2 ^ (Z.of_nat fuel - 1) →
  ∃ r, grow_vsize fuel v new_max_var = Some r ∧ new_max_var < r ∧
       r ≤ Z.max v (2 * new_max_var) ∧ ∃ k, 0 ≤ k ∧ r = v * 2 ^ k.
Proof.
  assert (2 ^ 62 = 4611686018427387904) as E62 by (vm_compute; reflexivity).
  assert (2 ^ 63 = 9223372036854775808) as E63 by (vm_compute; reflexivity).
  assert (2 ^ 64 = 18446744073709551616) as E64 by (vm_compute; reflexivity).
  rewrite E62, E63.
  induction fuel as [|fuel IH]; intros v Hv Hv62 Hn Hf.
  - change (Z.of_nat 0 - 1) with (-1) in Hf.
    rewrite Z.pow_neg_r in Hf by lia. lia.
  - cbn [grow_vsize]. destruct (Z.leb_spec v new_max_var) as [Hle|Hgt].
    + unfold to_size_t. rewrite E64. rewrite Z.mod_small by lia.
      destruct (IH (v * 2)) as (r & -> & Hr & Hmax & k & Hk & ->);
        try lia.
      { replace (Z.of_nat (S fuel) - 1) with (Z.of_nat fuel) in Hf by lia.
        destruct fuel as [|fuel].
        - change (2 ^ Z.of_nat 0) with 1 in Hf. lia.
        - replace (Z.of_nat (S fuel)) with (Z.of_nat (S fuel) - 1 + 1)
            in Hf by lia.
          rewrite Z.pow_add_r in Hf by lia.
          change (2 ^ 1) with 2 in Hf. lia. }
      eexists. split; [done|]. split; [done|]. split; [lia|].
      exists (k + 1). split; [lia|]. rewrite Z.pow_add_r by lia.
      change (2 ^ 1) with 2. lia.
    + eexists. split; [done|]. split; [done|]. split; [lia|].
      exists 0. split; [done|]. change (2 ^ 0) with 1. lia.
Qed.

(** X2: for a table size of at most [2 ^ 32] and a variable count
    below [2 ^ 31] the size computation of [enlarge] ends, without
    wrapping around, in a size above [new_max_var]: one more than
    [new_max_var] when there was no table, and otherwise the old size
    doubled at least once and at most until it is twice the larger of the
    old size and [new_max_var]. *)
Theorem new_vsize_of_spec (vsize new_max_var : Z) :
  0 ≤ vsize ≤ 2 ^ 32 → 0 ≤ new_max_var < 2 ^ 31 →
  ∃ new_vsize, new_vsize_of vsize new_max_var = Some new_vsize ∧
    new_max_var < new_vsize ∧
    (if vsize =? 0 then new_vsize = 1 + new_max_var
     else (∃ k, 1 ≤ k ∧ new_vsize = vsize * 2 ^ k) ∧
          new_vsize ≤ Z.max (2 * vsize) (2 * new_max_var)).
Proof.
  assert (2 ^ 31 = 2147483648) as E31 by (vm_compute; reflexivity).
  assert (2 ^ 32 = 4294967296) as E32 by (vm_compute; reflexivity).
  assert (2 ^ 64 = 18446744073709551616) as E64 by (vm_compute; reflexivity).
  rewrite E31, E32.
  intros Hv Hn. unfold new_vsize_of, to_size_t. rewrite E64.
  rewrite (Z.mod_small new_max_var) by lia.
  destruct (Z.eqb_spec vsize 0) as [->|Hne].
  - rewrite Z.mod_small by lia. cbn [grow_vsize].
    destruct (Z.leb_spec (1 + new_max_var) new_max_var); [lia|].
    eexists. split; [done|]. lia.
  - rewrite Z.mod_small by lia.
    destruct (grow_vsize_spec new_max_var 65 (2 * vsize))
      as (r & Hr & Hlt & Hmax & k & Hk & ->).
    + lia.
    + assert (2 ^ 63 = 9223372036854775808) as -> by (vm_compute; reflexivity).
      lia.
    + assert (2 ^ 62 = 4611686018427387904) as -> by (vm_compute; reflexivity).
      lia.
    + change (Z.of_nat 65 - 1) with 64. rewrite E64. lia.
    + exists (2 * vsize * 2 ^ k). split; [done|]. split; [done|].
      split; [|done].
      exists (k + 1). split; [lia|]. rewrite Z.pow_add_r by lia.
      change (2 ^ 1) with 2. lia.
Qed.

(** The part of the size computation that [enlarge] rests on. *)
Lemma new_vsize_of_bound (vsize new_max_var : Z) :
  0 ≤ vsize ≤ 2 * new_max_var + 1 → vsize ≤ new_max_var →
  0 ≤ new_max_var < 2 ^ 31 →
  ∃ new_vsize, new_vsize_of vsize new_max_var = Some new_vsize ∧
    new_max_var < new_vsize ≤ 2 * new_max_var + 1.
Proof.
  assert (2 ^ 31 = 2147483648) as E31 by (vm_compute; reflexivity).
  assert (2 ^ 64 = 18446744073709551616) as E64 by (vm_compute; reflexivity).
  rewrite E31.
  intros Hv Hsmall Hn. unfold new_vsize_of, to_size_t. rewrite E64.
  rewrite (Z.mod_small new_max_var) by lia.
  destruct (Z.eqb_spec vsize 0) as [->|Hne].
  - rewrite Z.mod_small by lia. cbn [grow_vsize].
    destruct (Z.leb_spec (1 + new_max_var) new_max_var); [lia|].
    eexists. split; [done|]. lia.
  - rewrite Z.mod_small by lia.
    destruct (grow_vsize_spec new_max_var 65 (2 * vsize))
      as (r & Hr & Hlt & Hmax & _).
    + lia.
    + assert (2 ^ 63 = 9223372036854775808) as -> by (vm_compute; reflexivity).
      lia.
    + assert (2 ^ 62 = 4611686018427387904) as -> by (vm_compute; reflexivity).
      lia.
    + change (Z.of_nat 65 - 1) with 64. rewrite E64. lia.
    + exists r. split; [done|]. lia.
Qed.

Lemma memcpy_into_zeros (n0 d : Z) (src : list Z) (s n : Z) :
  0 ≤ d → 0 ≤ n → d + n ≤ n0 → 0 ≤ s → s + n ≤ Z.of_nat (length src) →
  ∃ b, memcpy (replicate (Z.to_nat n0) 0) d src s n = Some b ∧
       Z.of_nat (length b) = n0 ∧
       ∀ j, 0 ≤ j < n0 →
         b !! Z.to_nat j =
         if (d <=? j) && (j <? d + n) then src !! Z.to_nat (s + (j - d))
         else Some 0.
Proof.
  intros Hd Hn Hdn Hs Hsn. unfold memcpy.
  rewrite length_replicate.
  rewrite (proj2 (Z.leb_le 0 d)) by lia.
  rewrite (proj2 (Z.leb_le (d + n) _)) by lia.
  rewrite (proj2 (Z.leb_le 0 s)) by lia.
  rewrite (proj2 (Z.leb_le (s + n) _)) by lia. simpl.
  eexists. split; [reflexivity|].
  rewrite take_replicate, drop_replicate.
  assert (length (take (Z.to_nat n) (drop (Z.to_nat s) src)) = Z.to_nat n)
    as Hmid.
  { rewrite length_take, length_drop. lia. }
  split.
  { rewrite !length_app, Hmid, !length_replicate. lia. }
  intros j Hj.
  destruct (Z.leb_spec d j) as [Hdj|Hdj]; simpl.
  - rewrite lookup_app_r by (rewrite length_replicate; lia).
    rewrite length_replicate.
    destruct (Z.ltb_spec j (d + n)) as [Hjn|Hjn].
    + rewrite lookup_app_l by lia.
      rewrite lookup_take_lt by lia. rewrite lookup_drop. f_equal. lia.
    + rewrite lookup_app_r by lia. apply lookup_replicate_2. lia.
  - rewrite lookup_app_l by (rewrite length_replicate; lia).
    apply lookup_replicate_2. lia.
Qed.

Lemma all_zero_true (read : Z → option Z) (lo hi : Z) :
  (∀ k, lo ≤ k ≤ hi → read k = Some 0) →
  Tables.all_zero read (Tables.range lo hi) = true.
Proof.
  intros Hall. unfold Tables.all_zero, Tables.range.
  apply forallb_forall. intros k Hk. apply bool_decide_eq_true.
  apply in_map_iff in Hk as (j & <- & Hj). apply in_seq in Hj.
  apply Hall. lia.
Qed.

Lemma all_minus_one_true (read : Z → option Z) (lo hi : Z) :
  (∀ k, lo ≤ k ≤ hi → read k = Some (-1)) →
  forallb (λ k, bool_decide (read k = Some (-1))) (Tables.range lo hi) = true.
Proof.
  intros Hall. unfold Tables.range.
  apply forallb_forall. intros k Hk. apply bool_decide_eq_true.
  apply in_map_iff in Hk as (j & <- & Hj). apply in_seq in Hj.
  apply Hall. lia.
Qed.

Section TableProofs.
Context {Watches Var Link Flags : Type}.
Variables (no_watches : Watches) (no_var : Var) (no_link : Link)
  (no_flags : Flags).

(** What is in the block that [enlarge_vals] allocates. *)
Lemma enlarge_vals_block_lookup (new_vsize : Z)
    (s : Tables.t Watches Var Link Flags) :
  0 ≤ Tables.max_var s < 2 ^ 31 →
  Tables.max_var s < new_vsize ≤ 2 ^ 33 →
  match Tables.vals s with
  | Some block => Z.of_nat (length block) = 2 * Tables.vsize s ∧
                  Tables.max_var s < Tables.vsize s
  | None => Tables.vsize s = 0
  end →
  ∃ block, Tables.enlarge_vals_block new_vsize s = Some block ∧
    Z.of_nat (length block) = 2 * new_vsize ∧
    ∀ k, - new_vsize ≤ k < new_vsize →
      block !! Z.to_nat (new_vsize + k) =
      Some (if Z.abs k <=? Tables.max_var s
            then default 0 (Tables.val_at s k) else 0).
Proof.
  assert (2 ^ 31 = 2147483648) as E31 by (vm_compute; reflexivity).
  assert (2 ^ 32 = 4294967296) as E32 by (vm_compute; reflexivity).
  assert (2 ^ 33 = 8589934592) as E33 by (vm_compute; reflexivity).
  assert (2 ^ 64 = 18446744073709551616) as E64 by (vm_compute; reflexivity).
  rewrite E31, E33. intros Hmv Hnv Hvals.
  unfold Tables.enlarge_vals_block, Tables.val_at, to_size_t, to_unsigned.
  rewrite E32, E64.
  rewrite (Z.mod_small (2 * new_vsize)) by lia.
  destruct (Tables.vals s) as [old|] eqn:Hold.
  - destruct Hvals as [Hlen Hlt].
    rewrite (Z.mod_small (Tables.max_var s)) by lia.
    rewrite (Z.mod_small (2 * Tables.max_var s)) by lia.
    rewrite (Z.mod_small (2 * Tables.max_var s + 1)) by lia.
    rewrite (Z.mod_small (2 * Tables.max_var s + 1)) by lia.
    destruct (memcpy_into_zeros (2 * new_vsize)
                (new_vsize - Tables.max_var s) old
                (Tables.vsize s - Tables.max_var s)
                (2 * Tables.max_var s + 1))
      as (b & Hb & Hblen & Hlook); try lia.
    exists b. split; [exact Hb|]. split; [exact Hblen|].
    intros k Hk. rewrite Hlook by lia.
    destruct (Z.leb_spec (Z.abs k) (Tables.max_var s)) as [Hin|Hout].
    + rewrite (proj2 (Z.leb_le _ _)) by lia.
      rewrite (proj2 (Z.ltb_lt _ _)) by lia. simpl.
      rewrite (proj2 (Z.leb_le 0 _)) by lia.
      replace (Tables.vsize s - Tables.max_var s +
               (new_vsize + k - (new_vsize - Tables.max_var s)))
        with (Tables.vsize s + k) by lia.
      destruct (lookup_lt_is_Some_2 old (Z.to_nat (Tables.vsize s + k)))
        as [x Hx]; [lia|].
      rewrite Hx. done.
    + destruct (Z.leb_spec (new_vsize - Tables.max_var s) (new_vsize + k));
        simpl; [|done].
      destruct (Z.ltb_spec (new_vsize + k)
                  (new_vsize - Tables.max_var s
                   + (2 * Tables.max_var s + 1))); [lia|done].
  - rewrite Hvals. simpl. eexists. split; [reflexivity|].
    split; [rewrite length_replicate; lia|].
    intros k Hk. rewrite lookup_replicate_2 by lia.
    by destruct (Z.abs k <=? Tables.max_var s).
Qed.

(** X3: [enlarge_vals] allocates [2 * new_vsize] bytes in which every
    literal of [- max_var .. max_var] keeps the value it had and every
    other literal has the value 0; all of them have the value 0 when there
    was no block before. *)
Theorem enlarge_vals_keeps_values (new_vsize : Z)
    (s : Tables.t Watches Var Link Flags) :
  0 ≤ Tables.max_var s < 2 ^ 31 →
  Tables.max_var s < new_vsize ≤ 2 ^ 33 →
  match Tables.vals s with
  | Some block => Z.of_nat (length block) = 2 * Tables.vsize s ∧
                  Tables.max_var s < Tables.vsize s
  | None => Tables.vsize s = 0
  end →
  ∃ block, Tables.enlarge_vals_block new_vsize s = Some block ∧
    Z.of_nat (length block) = 2 * new_vsize ∧
    (∀ k x, Z.abs k ≤ Tables.max_var s → Tables.val_at s k = Some x →
            block !! Z.to_nat (new_vsize + k) = Some x) ∧
    (∀ k, - new_vsize ≤ k < new_vsize → Tables.max_var s < Z.abs k →
          block !! Z.to_nat (new_vsize + k) = Some 0) ∧
    (Tables.vals s = None →
     ∀ k, - new_vsize ≤ k < new_vsize →
          block !! Z.to_nat (new_vsize + k) = Some 0).
Proof.
  intros Hmv Hnv Hvals.
  destruct (enlarge_vals_block_lookup new_vsize s Hmv Hnv Hvals)
    as (block & Hb & Hlen & Hlook).
  exists block. split; [exact Hb|]. split; [exact Hlen|].
  split; [|split].
  - intros k x Hk Hx. rewrite Hlook by lia.
    rewrite (proj2 (Z.leb_le _ _)) by lia. by rewrite Hx.
  - intros k Hk Hout. rewrite Hlook by lia.
    by rewrite (proj2 (Z.leb_gt _ _)) by lia.
  - intros Hnone k Hk. rewrite Hlook by lia.
    unfold Tables.val_at. rewrite Hnone.
    by destruct (Z.abs k <=? Tables.max_var s).
Qed.
End TableProofs.

Section InitVars.
Context {Watches Var Link Flags : Type}.
Variables (no_watches : Watches) (no_var : Var) (no_link : Link)
  (no_flags : Flags).

Lemma enlarge_init_sized {A} (v : list A) (N : Z) (i : A) :
  N ≤ Z.of_nat (length (enlarge_init v N i)).
Proof. rewrite enlarge_init_length. lia. Qed.

Lemma enlarge_init_fresh {A} (v : list A) (N : Z) (i : A) (P : nat → Prop) :
  (∀ k, P k → (k < length v)%nat → v !! k = Some i) →
  ∀ k, P k → (k < length (enlarge_init v N i))%nat →
       enlarge_init v N i !! k = Some i.
Proof.
  intros Hold k HP Hk. rewrite enlarge_init_lookup.
  rewrite enlarge_init_length in Hk.
  destruct (decide (k < length v)%nat); [by apply Hold|].
  rewrite decide_True by lia. done.
Qed.

(** What [enlarge] does when [init_vars] calls it. *)
Lemma enlarge_spec (new_max_var : Z)
    (s : Tables.t Watches Var Link Flags) :
  tables_ok s → Tables.max_var s < new_max_var < 2 ^ 31 →
  Tables.vsize s ≤ new_max_var →
  ∃ s', Tables.enlarge no_watches no_var no_link no_flags new_max_var s
          = Some s' ∧
    Tables.max_var s' = Tables.max_var s ∧
    new_max_var < Tables.vsize s' ≤ 2 * new_max_var + 1 ∧
    tables_sized s' ∧ tables_extend s s' ∧
    (∀ k, - Tables.vsize s' ≤ k < Tables.vsize s' →
       Tables.val_at s' k =
       Some (if Z.abs k <=? Tables.max_var s
             then default 0 (Tables.val_at s k) else 0)) ∧
    (∀ k : nat, Tables.max_var s < Z.of_nat k →
       (k < length (Tables.btab s'))%nat → Tables.btab s' !! k = Some 0) ∧
    (∀ k : nat, Tables.max_var s < Z.of_nat k →
       (k < length (Tables.gtab s'))%nat → Tables.gtab s' !! k = Some 0) ∧
    (∀ k : nat, 2 * Tables.max_var s + 1 < Z.of_nat k →
       (k < length (Tables.ptab s'))%nat →
       Tables.ptab s' !! k = Some (-1)) ∧
    Tables.btab s' !! 0%nat = Some 0 ∧
    Tables.stats_vars s' = Tables.stats_vars s ∧
    Tables.stats_unused s' = Tables.stats_unused s ∧
    Tables.stats_inactive s' = Tables.stats_inactive s.
Proof.
  assert (2 ^ 31 = 2147483648) as E31 by (vm_compute; reflexivity).
  assert (2 ^ 32 = 4294967296) as E32 by (vm_compute; reflexivity).
  assert (2 ^ 33 = 8589934592) as E33 by (vm_compute; reflexivity).
  assert (2 ^ 64 = 18446744073709551616) as E64 by (vm_compute; reflexivity).
  intros (Hmv & Hvs & Hvals & Hlb & Hlg & Hlp & Hfv & Hfb & Hfg & Hfp & Hb0)
         Hnew Hsmall.
  rewrite E31 in *.
  destruct (new_vsize_of_bound (Tables.vsize s) new_max_var)
    as (nv & Hnv & Hlt & Hbound); [lia|lia|rewrite E31; lia|].
  destruct (enlarge_vals_block_lookup nv s)
    as (block & Hblock & Hblen & Hlook).
  { rewrite E31. lia. }
  { rewrite E33. lia. }
  { exact Hvals. }
  unfold Tables.enlarge. rewrite Hnv, Hblock.
  eexists. split; [reflexivity|]. simpl.
  unfold to_size_t. rewrite E64. rewrite (Z.mod_small (2 * nv)) by lia.
  split; [done|]. split; [lia|].
  split.
  { unfold tables_sized, enlarge_zero, enlarge_only. simpl.
    rewrite Hblen.
    repeat split; try (intros ->; simpl); try apply enlarge_init_sized.
    all: try (pose proof (enlarge_init_sized (Tables.wtab s) (2 * nv)
                            no_watches) as Hw; exact Hw).
    all: try (pose proof (enlarge_init_sized (Tables.vtab s) nv no_var)
                as Hw; exact Hw).
    all: try (pose proof (enlarge_init_sized (Tables.links s) nv no_link)
                as Hw; exact Hw).
    all: try (pose proof (enlarge_init_sized (Tables.ftab s) nv no_flags)
                as Hw; exact Hw). }
  split.
  { unfold tables_extend, enlarge_zero; simpl.
    repeat split; try apply enlarge_init_prefix.
    - destruct (Tables.lrat s || Tables.frat s);
        [apply enlarge_init_prefix|done].
    - destruct (Tables.external s); [apply enlarge_init_prefix|done]. }
  split.
  { intros k Hk. unfold Tables.val_at at 1. simpl.
    destruct (Z.leb_spec 0 (nv + k)) as [Hge|Hneg]; [|clear -Hk Hneg; lia].
    by apply Hlook. }
  split; [apply (enlarge_init_fresh _ _ _ (λ k, Tables.max_var s < Z.of_nat k));
          exact Hfb|].
  split; [apply (enlarge_init_fresh _ _ _ (λ k, Tables.max_var s < Z.of_nat k));
          exact Hfg|].
  split; [apply (enlarge_init_fresh _ _ _
                   (λ k, 2 * Tables.max_var s + 1 < Z.of_nat k));
          exact Hfp|].
  split; [|done].
  unfold enlarge_zero. rewrite enlarge_init_lookup.
  destruct Hb0 as [Hb0| ->].
  - rewrite decide_True; [done|]. by apply lookup_lt_Some in Hb0.
  - rewrite decide_False by (simpl; lia). rewrite decide_True by lia. done.
Qed.

Variable init_queue init_scores :
  Z → Z → Tables.t Watches Var Link Flags → Tables.t Watches Var Link Flags.

(** X4: on tables that meet their invariant, [init_vars] with a larger
    variable count passes every one of its assertions; when it hands over
    to [init_queue], [max_var] is the new count, [vsize] is above it, the
    invariant holds again, every table begins with its old content, the
    values of the old literals are kept, and after a call of [enlarge]
    every table has its full size; the counters of [stats] then grow by
    the number of new variables. *)
Theorem init_vars_tables_ready (new_max_var : Z)
    (s : Tables.t Watches Var Link Flags) :
  tables_ok s → Tables.max_var s < new_max_var < 2 ^ 31 →
  ∃ s1,
    Tables.init_vars_tables no_watches no_var no_link no_flags new_max_var s
      = Some (inr s1) ∧
    Tables.init_vars no_watches no_var no_link no_flags
      init_queue init_scores new_max_var s =
      Some (Tables.count_initialized (new_max_var - Tables.max_var s)
              (init_scores (Tables.max_var s) new_max_var
                 (init_queue (Tables.max_var s) new_max_var s1))) ∧
    Tables.max_var s1 = new_max_var ∧
    new_max_var < Tables.vsize s1 ∧
    tables_ok s1 ∧ tables_extend s s1 ∧
    (Tables.vsize s ≤ new_max_var → tables_sized s1) ∧
    (new_max_var < Tables.vsize s → Tables.vsize s1 = Tables.vsize s) ∧
    ∀ k x, Z.abs k ≤ Tables.max_var s → Tables.val_at s k = Some x →
           Tables.val_at s1 k = Some x.
Proof.
  assert (2 ^ 31 = 2147483648) as E31 by (vm_compute; reflexivity).
  assert (2 ^ 64 = 18446744073709551616) as E64 by (vm_compute; reflexivity).
  intros Hok Hnew. pose proof Hok as Hok'.
  destruct Hok' as
    (Hmv & Hvs & Hvals & Hlb & Hlg & Hlp & Hfv & Hfb & Hfg & Hfp & Hb0).
  rewrite E31 in *.
  assert (∀ s0 : Tables.t Watches Var Link Flags,
    Tables.max_var s0 = Tables.max_var s →
    new_max_var < Tables.vsize s0 ≤ 2 * new_max_var + 1 →
    (∃ block, Tables.vals s0 = Some block ∧
              Z.of_nat (length block) = 2 * Tables.vsize s0) →
    Tables.vsize s0 ≤ Z.of_nat (length (Tables.btab s0)) →
    Tables.vsize s0 ≤ Z.of_nat (length (Tables.gtab s0)) →
    2 * Tables.vsize s0 ≤ Z.of_nat (length (Tables.ptab s0)) →
    (∀ k, Tables.max_var s < Z.abs k →
          - Tables.vsize s0 ≤ k < Tables.vsize s0 →
          Tables.val_at s0 k = Some 0) →
    (∀ k : nat, Tables.max_var s < Z.of_nat k →
          (k < length (Tables.btab s0))%nat →
          Tables.btab s0 !! k = Some 0) →
    (∀ k : nat, Tables.max_var s < Z.of_nat k →
          (k < length (Tables.gtab s0))%nat →
          Tables.gtab s0 !! k = Some 0) →
    (∀ k : nat, 2 * Tables.max_var s + 1 < Z.of_nat k →
          (k < length (Tables.ptab s0))%nat →
          Tables.ptab s0 !! k = Some (-1)) →
    Tables.btab s0 !! 0%nat = Some 0 →
    Tables.fresh_entries_clear new_max_var s0 = true ∧
    tables_ok (Tables.set_max_var new_max_var s0)) as Hready.
  { intros s0 Hm0 Hv0 (block & Hb & Hbl) Hlb0 Hlg0 Hlp0 Hfv0 Hfb0 Hfg0 Hfp0
           Hb00.
    split.
    - unfold Tables.fresh_entries_clear. rewrite Hm0.
      rewrite !all_zero_true, all_minus_one_true.
      + rewrite Hb00. by rewrite bool_decide_eq_true_2.
      + intros k Hk. apply Hfp0; lia.
      + intros k Hk. apply Hfg0; lia.
      + intros k Hk. apply Hfb0; lia.
      + intros k Hk. apply Hfv0; lia.
      + intros k Hk. apply Hfv0; lia.
    - unfold tables_ok. simpl. rewrite Hb, E31.
      split; [lia|]. split; [lia|]. split; [split; [done|lia]|].
      split; [done|]. split; [done|]. split; [done|].
      split.
      { intros k Hk Hr. unfold Tables.val_at in *. simpl.
        apply (Hfv0 k); lia. }
      split; [intros k Hk; apply Hfb0; lia|].
      split; [intros k Hk; apply Hfg0; lia|].
      split; [intros k Hk; apply Hfp0; lia|]. by left. }
  unfold Tables.init_vars, Tables.init_vars_tables.
  rewrite (proj2 (Z.leb_gt _ _)) by lia.
  unfold to_size_t. rewrite E64, Z.mod_small by lia.
  destruct (Z.leb_spec (Tables.vsize s) new_max_var) as [Hsmall|Hlarge].
  - destruct (enlarge_spec new_max_var s Hok)
      as (s' & -> & Hm' & Hv' & Hsized & Hext & Hval & Hb' & Hg' & Hp' &
          Hb0' & _); [rewrite E31; lia|done|].
    pose proof Hsized as Hsized'.
    destruct Hsized' as (_ & _ & _ & _ & _ & Hsb & Hsg & _ & Hsp & _ & _ &
                         _ & _ & _ & _ & _ & _ & _ & Hsv).
    destruct (Tables.vals s') as [block'|] eqn:Hblock'; [|done].
    destruct (Hready s') as [Hclear Hok1]; try done.
    { by exists block'. }
    { intros k Hk Hr. rewrite Hval by lia.
      rewrite (proj2 (Z.leb_gt _ _)) by lia. done. }
    rewrite Hclear. eexists. split; [reflexivity|]. split; [reflexivity|].
    simpl. split; [done|]. split; [lia|]. split; [done|].
    split; [exact Hext|]. split; [intros _; exact Hsized|].
    split; [lia|].
    intros k x Hk Hx.
    change (Tables.val_at (Tables.set_max_var new_max_var s') k)
      with (Tables.val_at s' k).
    rewrite Hval.
    + rewrite (proj2 (Z.leb_le _ _)) by lia. by rewrite Hx.
    + unfold Tables.val_at in Hx.
      destruct (Tables.vals s) as [old|]; [|done].
      destruct Hvals as [_ ?]. lia.
  - destruct (Tables.vals s) as [old|] eqn:Hold; [|lia].
    destruct Hvals as [Holdlen Hmvs].
    destruct (Hready s) as [Hclear Hok1]; try done; try lia.
    { by exists old. }
    { destruct Hb0 as [?|Hnil]; [done|].
      rewrite Hnil in Hlb. simpl in Hlb. lia. }
    rewrite Hclear. eexists. split; [reflexivity|]. split; [reflexivity|].
    simpl. split; [done|]. split; [lia|]. split; [done|].
    split; [by repeat split|]. split; [lia|]. split; [done|].
    intros k x _ Hx. exact Hx.
Qed.
End InitVars.

(** ** The limit of a local-search round *)

Lemma walk_limit_saturates (LONG_MAX walkmineff round : Z) :
  0 < LONG_MAX → 0 ≤ walkmineff → 0 < round →
  0 ≤ walk_limit LONG_MAX walkmineff round ≤ LONG_MAX ∧
  walk_limit LONG_MAX walkmineff round ≤ walkmineff * round * round + round ∧
  (walkmineff * round * round + round ≤ LONG_MAX →
   walk_limit LONG_MAX walkmineff round = walkmineff * round * round).
Proof.
  intros HL He Hr. unfold walk_limit.
  rewrite Z.quot_div_nonneg by lia.
  pose proof (Z.div_mod LONG_MAX round ltac:(lia)) as Hdm.
  pose proof (Z.mod_pos_bound LONG_MAX round Hr) as Hmod.
  destruct (Z.ltb_spec (walkmineff * round) (LONG_MAX `div` round))
    as [Hlt|Hge].
  - split; [nia|]. split; [nia|]. done.
  - split; [lia|]. split; [nia|]. intros Hfit. nia.
Qed.

(** X13: whenever [local_search_round] returns, the round number is
    positive; with [unsat] set or without variables the result is 0 and
    nothing has changed; otherwise [walk_round] ran once, with
    [localsearching] set around it, on a limit between 0 and [LONG_MAX]
    that is [walkmineff * round * round] whenever that stays [round]
    below [LONG_MAX]. *)
Theorem local_search_round_limit {R} (walk_round : Z → bool → Walker R → Z * Walker R)
    (LONG_MAX round : Z) (s : Walker R) (res : Z) (s' : Walker R) :
  0 < LONG_MAX → 0 ≤ walkmineff s →
  local_search_round walk_round LONG_MAX round s = Some (res, s') →
  0 < round ∧
  if walker_unsat s || (walker_max_var s =? 0)
  then res = 0 ∧ s' = s
  else ∃ limit s1,
         walk_round limit true (set_localsearching true s) = (res, s1) ∧
         s' = set_localsearching false s1 ∧
         localsearching s = false ∧ localsearching s1 = true ∧
         0 ≤ limit ≤ LONG_MAX ∧
         limit ≤ walkmineff s * round * round + round ∧
         (walkmineff s * round * round + round ≤ LONG_MAX →
          limit = walkmineff s * round * round).
Proof.
  intros HL He. unfold local_search_round.
  destruct (Z.ltb_spec 0 round) as [Hr|Hr]; simpl; [|done].
  intros Hrun. split; [done|].
  destruct (walker_unsat s); simpl.
  { by injection Hrun as <- <-. }
  destruct (walker_max_var s =? 0).
  { by injection Hrun as <- <-. }
  destruct (localsearching s) eqn:Hflag; [done|].
  destruct (walk_round _ true (set_localsearching true s)) as [r s1] eqn:Hw.
  destruct (localsearching s1) eqn:Hflag1; [|done].
  injection Hrun as <- <-.
  exists (walk_limit LONG_MAX (walkmineff s) round), s1.
  split; [exact Hw|]. split; [done|]. split; [done|]. split; [done|].
  apply (walk_limit_saturates LONG_MAX (walkmineff s) round); done.
Qed.

(** ** The further properties on concrete inputs *)

Lemma greedySetCover_chosen_distinct_witness :
  ∃ chosen residual,
    greedySetCover [{[5]}; {[3; 4]}] [3; 4; 5] = Some (chosen, residual) ∧
    NoDup chosen ∧ Forall (λ k, (k < 2)%nat) chosen ∧
    (length chosen ≤ 2)%nat.
Proof.
  assert (∃ c r, greedySetCover [{[5]}; {[3; 4]}] [3; 4; 5] = Some (c, r))
    as (c & r & Hrun) by (eexists _, _; vm_compute; reflexivity).
  exists c, r. split; [exact Hrun|].
  exact (greedySetCover_chosen_distinct _ _ _ _ Hrun).
Defined.

Lemma greedySetCover_covers_all_witness :
  ∃ chosen residual,
    greedySetCover [{[5]}; {[3; 4]}] [3; 4; 5; 6] = Some (chosen, residual) ∧
    chosen_union [{[5]}; {[3; 4]}] chosen = ⋃ [{[5]}; {[3; 4]}] ∧
    list_to_set residual =@{gset Z}
      list_to_set [3; 4; 5; 6] ∖ ⋃ [{[5]}; {[3; 4]}].
Proof.
  assert (∃ c r, greedySetCover [{[5]}; {[3; 4]}] [3; 4; 5; 6] = Some (c, r))
    as (c & r & Hrun) by (eexists _, _; vm_compute; reflexivity).
  exists c, r. split; [exact Hrun|].
  apply (greedySetCover_covers_all _ _ _ _); [|exact Hrun].
  apply (bool_decide_unpack _). vm_compute. reflexivity.
Defined.

Lemma greedySetCoverSpecial_defined_witness :
  ∃ chosen residual,
    greedySetCoverSpecial [11; 10] [10; 11] [{[3; 4]}; {[5]}] [3; 4; 5]
      = Some (chosen, residual) ∧
    chosen = [1; 0]%nat.
Proof.
  assert (∃ c r, greedySetCoverSpecial [11; 10] [10; 11] [{[3; 4]}; {[5]}]
                   [3; 4; 5] = Some (c, r))
    as (c & r & Hrun) by (eexists _, _; vm_compute; reflexivity).
  exists c, r. split; [exact Hrun|].
  exact (proj2 (greedySetCoverSpecial_defined [11; 10] [10; 11]
                  [{[3; 4]}; {[5]}] [3; 4; 5]) c r Hrun).
Defined.

Lemma custom_sort_alpha_a_permutes_witness :
  let st := internal_init sorting_options linked_formula in
  ∃ i', custom_sort_alpha_a [2; 1] st = Some ([1; 2], i') ∧
        [1; 2] ≡ₚ [2; 1].
Proof.
  intros st.
  assert (∃ i', custom_sort_alpha_a [2; 1] st = Some ([1; 2], i'))
    as [i' Hrun] by (eexists; vm_compute; reflexivity).
  exists i'. split; [exact Hrun|].
  exact (proj1 (custom_sort_alpha_a_permutes (H := toy_collaborators)
                  [2; 1] [1; 2] st i' eq_refl Hrun)).
Defined.

Lemma neg_alpha_c_no_duplicates_witness :
  let st := linked_probe default_options in
  ∃ i', collect_conditional_part st
          = Some (([3], [[3; -3]; [3; 2]], [-3; 2]), i') ∧
        NoDup [3] ∧ Forall (λ c : list Z, NoDup c) [[3; -3]; [3; 2]].
Proof.
  intros st.
  assert (∃ i', collect_conditional_part st
                  = Some (([3], [[3; -3]; [3; 2]], [-3; 2]), i'))
    as [i' Hrun] by (eexists; vm_compute; reflexivity).
  exists i'. split; [exact Hrun|].
  apply (neg_alpha_c_no_duplicates (H := toy_collaborators) st i'
           [3] [[3; -3]; [3; 2]] [-3; 2]); [| |exact Hrun].
  - apply (bool_decide_unpack _). vm_compute. reflexivity.
  - apply (bool_decide_unpack _). vm_compute. reflexivity.
Defined.

Lemma greedy_sort_alpha_a_special_result_witness :
  let st := linked_scheduled default_options in
  ∃ i', greedy_sort_alpha_a_special [-3; 2] [3] st = Some (([2], []), i') ∧
        [2] = filter (λ learn, learn ∈ [-3; 2]) (global_try st).
Proof.
  intros st.
  assert (∃ i', greedy_sort_alpha_a_special [-3; 2] [3] st
                  = Some (([2], []), i'))
    as [i' Hrun] by (eexists; vm_compute; reflexivity).
  exists i'. split; [exact Hrun|].
  destruct (greedy_sort_alpha_a_special_result (H := toy_collaborators)
              [-3; 2] [3] [2] [] st i' Hrun) as [_ [Hempty|[Hfilter _]]].
  - discriminate Hempty.
  - exact Hfilter.
Defined.

Lemma bcp_shrink_body_shrinks_witness :
  let st := linked_probe default_options in
  bcp_shrink_body [-3; 2] [] [3] st = Some (([2], []), st) ∧
  [] `sublist_of` [3].
Proof.
  intros st.
  assert (bcp_shrink_body [-3; 2] [] [3] st = Some (([2], []), st))
    as Hrun by (vm_compute; reflexivity).
  split; [exact Hrun|].
  exact (proj1 (proj2 (bcp_shrink_body_shrinks (H := toy_collaborators)
                         [-3; 2] [] [3] [2] [] st st Hrun))).
Defined.

Lemma propagate_shrink_body_shrinks_witness :
  let st := linked_probe
              (global_options false false false false true true 10 100 1000000) in
  ∃ i', propagate_shrink_body [2] [] [4] st = Some (inr ([], [4]), i') ∧
        [4] `sublist_of` [4].
Proof.
  intros st.
  assert (∃ i', propagate_shrink_body [2] [] [4] st
                  = Some (inr ([], [4]), i'))
    as [i' Hrun] by (eexists; vm_compute; reflexivity).
  exists i'. split; [exact Hrun|].
  exact (proj1 (propagate_shrink_body_shrinks (H := toy_collaborators)
                  [2] [] [4] [] [4] st i' Hrun)).
Defined.

Lemma add_clause_recorded_line_witness :
  let st := linked_probe default_options in
  ∃ i' rest rest_pr,
    add_clause [3; 2] 2 [3; 2] [-3; 2] st = Some (tt, i') ∧
    outFile i' = outFile st ++ [2 :: rest] ∧
    outFile_pr i' = outFile_pr st ++ [(2 :: rest) ++ 2 :: rest_pr] ∧
    (2 ∉ rest) ∧ (2 ∉ rest_pr).
Proof.
  intros st.
  assert (∃ i', add_clause [3; 2] 2 [3; 2] [-3; 2] st = Some (tt, i'))
    as [i' Hrun] by (eexists; vm_compute; reflexivity).
  pose proof (add_clause_recorded_line (H := toy_collaborators)
                [3; 2] 2 [3; 2] [-3; 2] st i' Hrun) as Hline.
  change (globalrecord (opts st)) with true in Hline.
  destruct Hline as (rest & rest_pr & Hout & Hpr & _ & Hn & _ & Hnp & _).
  exists i', rest, rest_pr. repeat split; assumption.
Defined.

Lemma least_conditional_part_streams_witness :
  let st := linked_probe default_options in
  ∃ b i', least_conditional_part 0 st = Some (b, i') ∧
          Forall2 prefix (outFile i') (outFile_pr i').
Proof.
  intros st.
  assert (∃ b i', least_conditional_part 0 st = Some (b, i'))
    as (b & i' & Hrun) by (eexists _, _; vm_compute; reflexivity).
  exists b, i'. split; [exact Hrun|].
  apply (least_conditional_part_streams (H := toy_collaborators) 0 st i' b);
    [|exact Hrun].
  vm_compute. constructor.
Defined.

Lemma propagate_strategy_never_learns_witness :
  let st := core_decided
              (global_options false false false false true true 10 100 1000000) in
  ∃ i', least_conditional_part 0 st = Some (false, i') ∧
        outFile i' = outFile st.
Proof.
  intros st.
  assert (∃ i', least_conditional_part 0 st = Some (false, i'))
    as [i' Hrun] by (eexists; vm_compute; reflexivity).
  exists i'. split; [exact Hrun|].
  exact (proj1 (proj2 (propagate_strategy_never_learns
                         (H := toy_collaborators) 0 st i' false
                         eq_refl eq_refl Hrun))).
Defined.

Lemma global_preprocess_status_witness :
  let st := internal_init default_options linked_formula in
  ∃ res i', global_preprocess st = Some (res, i') ∧
            res = if ext_unsat (solver i') then 20 else 0.
Proof.
  intros st.
  assert (∃ res i', global_preprocess st = Some (res, i'))
    as (res & i' & Hrun) by (eexists _, _; vm_compute; reflexivity).
  exists res, i'. split; [exact Hrun|].
  exact (global_preprocess_status (H := toy_collaborators) st i' res Hrun).
Defined.

Lemma global_preprocess_chess_status_witness :
  let st := internal_init
              (global_options true false true false true true 10 100 0)
              board_formula in
  ∃ i', global_preprocess_chess_on (take 1 asses) st = Some (0, i') ∧
        (ext_unsat (solver i') = true → take 1 asses = []).
Proof.
  intros st.
  assert (∃ i', global_preprocess_chess_on (take 1 asses) st = Some (0, i'))
    as [i' Hrun] by (eexists; vm_compute; reflexivity).
  exists i'. split; [exact Hrun|].
  destruct (global_preprocess_chess_status (H := toy_collaborators)
              (take 1 asses) st i' 0 Hrun) as [[H20 _]|[_ Hs]].
  - discriminate H20.
  - exact Hs.
Defined.

Lemma global_pass_leaves_marks_clear_witness :
  let st := internal_init default_options linked_formula in
  ∃ res i', global_preprocess st = Some (res, i') ∧
            all_clear (globalmarks i') ∧ length (globalmarks i') = 11%nat.
Proof.
  intros st.
  assert (∃ res i', global_preprocess st = Some (res, i'))
    as (res & i' & Hrun) by (eexists _, _; vm_compute; reflexivity).
  exists res, i'. split; [exact Hrun|].
  exact (global_pass_leaves_marks_clear (H := toy_collaborators) st i' res
           (or_introl Hrun)).
Defined.

Lemma global_pass_streams_in_step_witness :
  let st := internal_init default_options linked_formula in
  ∃ res i', global_preprocess st = Some (res, i') ∧
            Forall2 prefix (outFile i') (outFile_pr i').
Proof.
  intros st.
  assert (∃ res i', global_preprocess st = Some (res, i'))
    as (res & i' & Hrun) by (eexists _, _; vm_compute; reflexivity).
  exists res, i'. split; [exact Hrun|].
  exact (global_pass_streams_in_step (H := toy_collaborators) st i' res
           (or_introl Hrun)).
Defined.

Lemma two_var_tables_ok : tables_ok two_var_tables.
Proof.
  unfold tables_ok. simpl.
  split; [lia|]. split; [lia|]. split; [split; [reflexivity|lia]|].
  split; [lia|]. split; [lia|]. split; [lia|].
  split.
  { intros k Hk Hr.
    assert (k = -4 ∨ k = -3 ∨ k = 3) as [->|[->| ->]] by lia; reflexivity. }
  split.
  { intros k Hk Hr. assert (k = 3%nat) as -> by lia. reflexivity. }
  split.
  { intros k Hk Hr. assert (k = 3%nat) as -> by lia. reflexivity. }
  split; [|by left].
  intros k Hk Hr. assert (k = 6 ∨ k = 7)%nat as [->| ->] by lia; reflexivity.
Qed.

Lemma least_conditional_part_lines_bounded_witness :
  let st := linked_probe default_options in
  ∃ b i', least_conditional_part 0 st = Some (b, i') ∧
          (length (outFile i') ≤ 10)%nat.
Proof.
  intros st.
  assert (∃ b i', least_conditional_part 0 st = Some (b, i'))
    as (b & i' & Hrun) by (eexists _, _; vm_compute; reflexivity).
  exists b, i'. split; [exact Hrun|].
  exact (proj2 (proj1 (least_conditional_part_lines_bounded
                         (H := toy_collaborators) 0 st i' b Hrun))).
Defined.

Lemma negative_maxlen_disables_length_guard_witness :
  let st := linked_probe
              (global_options false false true true true true 10 (-1) 1000000) in
  exceeds_maxlen (opts st) [3; 2] = false ∧
  ∃ i', check_if_clause_trivial [3; 2] st =
          Some (trivial_by_assumptions (ext_backtrack 0 (solver st)) [3; 2],
                i') ∧
        ext_level (solver i') = 0.
Proof.
  intros st.
  apply (negative_maxlen_disables_length_guard (H0 := toy_laws) [3; 2] st).
  - change (globalmaxlen (opts st)) with (-1). lia.
  - change (Z.of_nat (length [3; 2])) with 2. lia.
Defined.

Lemma init_limits_budgets_witness :
  ∃ s', init_limits (λ v, v) default_options incremental_state = Some s' ∧
        lim_preprocessing (lim s') = 0 ∧ lim_conflicts (lim s') = -1.
Proof.
  assert (∃ s', init_limits (λ v, v) default_options incremental_state
                  = Some s') as [s' Hrun]
    by (eexists; vm_compute; reflexivity).
  exists s'. split; [exact Hrun|].
  destruct (init_limits_budgets (λ v, v) default_options incremental_state
              s' Hrun) as (Hp & _ & Hc & _).
  split; [exact Hp|exact Hc].
Defined.

Lemma new_vsize_of_spec_witness :
  ∃ new_vsize, new_vsize_of 4 9 = Some new_vsize ∧ 9 < new_vsize.
Proof.
  destruct (new_vsize_of_spec 4 9 ltac:(lia) ltac:(lia))
    as (nv & Hnv & Hlt & _).
  exists nv. split; [exact Hnv|exact Hlt].
Defined.

Lemma enlarge_vals_keeps_values_witness :
  ∃ block, Tables.enlarge_vals_block 8 two_var_tables = Some block ∧
           block !! Z.to_nat (8 + -2) = Some (-1) ∧
           block !! Z.to_nat (8 + 3) = Some 0.
Proof.
  destruct (enlarge_vals_keeps_values 8 two_var_tables)
    as (block & Hb & _ & Hkept & Hzero & _).
  - simpl. lia.
  - simpl. lia.
  - simpl. split; [reflexivity|lia].
  - exists block. split; [exact Hb|].
    split.
    + apply (Hkept (-2) (-1)); [simpl; lia|reflexivity].
    + apply (Hzero 3); simpl; lia.
Defined.

Lemma init_vars_tables_ready_witness :
  ∃ s1, Tables.init_vars_tables tt tt tt tt 5 two_var_tables
          = Some (inr s1) ∧
        Tables.max_var s1 = 5 ∧ 5 < Tables.vsize s1 ∧
        Tables.val_at s1 (-2) = Some (-1).
Proof.
  destruct (init_vars_tables_ready tt tt tt tt (λ _ _ s, s) (λ _ _ s, s)
              5 two_var_tables two_var_tables_ok)
    as (s1 & Hrun & _ & Hmax & Hsize & _ & _ & _ & _ & Hval).
  - simpl. lia.
  - exists s1. split; [exact Hrun|]. split; [exact Hmax|].
    split; [exact Hsize|].
    apply Hval; [simpl; lia|reflexivity].
Defined.

Lemma greedy_sort_alpha_a_returns_schedule_witness :
  let st := linked_scheduled default_options in
  ∃ i', greedy_sort_alpha_a [2] [3] st = Some (([2], []), i') ∧
        [2] = global_try st.
Proof.
  intros st.
  assert (∃ i', greedy_sort_alpha_a [2] [3] st = Some (([2], []), i'))
    as [i' Hrun] by (eexists; vm_compute; reflexivity).
  exists i'. split; [exact Hrun|].
  exact (proj1 (greedy_sort_alpha_a_returns_schedule
                  (H := toy_collaborators) [2] [3] [2] [] st i' Hrun)).
Defined.

Lemma local_search_round_limit_witness :
  ∃ res s', local_search_round idle_walk_round (2 ^ 63 - 1) 3 idle_walker
              = Some (res, s') ∧
            ∃ limit s1, idle_walk_round limit true
                          (set_localsearching true idle_walker) = (res, s1) ∧
                        limit = 20 * 3 * 3.
Proof.
  assert (∃ res s', local_search_round idle_walk_round (2 ^ 63 - 1) 3
                      idle_walker = Some (res, s'))
    as (res & s' & Hrun) by (eexists _, _; vm_compute; reflexivity).
  exists res, s'. split; [exact Hrun|].
  destruct (proj2 (local_search_round_limit idle_walk_round (2 ^ 63 - 1) 3
                     idle_walker res s' ltac:(lia) ltac:(simpl; lia) Hrun))
    as (limit & s1 & Hwalk & _ & _ & _ & _ & _ & Hexact).
  exists limit, s1. split; [exact Hwalk|].
  apply Hexact. simpl. lia.
Defined.

